(** * Efecte MCP server: TTL cache, credential manager, session registry
      and reference-value diagnostics

    A shallow embedding of the TypeScript sources

      - [src/utils/cache.ts]            (class [Cache], scheduled clean-up)
      - [src/api/auth.ts]               (class [AuthManager])
      - [src/api/client.ts]             (class [EfecteApiClient], interceptors)
      - [src/server-http.ts]            (class [EfecteHttpServer])
      - [src/utils/reference-attributes.ts] ([findSimilarMatch] and helpers)
      - [src/utils/validation.ts], [src/utils/config.ts], [src/utils/search.ts]
      - [src/tools/auth.ts], [src/tools/template.ts],
        [src/resources/templates.ts]
      - [http-proxy.js]                 (the bridge from standard input)

    followed by the properties proved about it.

    Conventions of the embedding.
    - JavaScript numbers that hold millisecond time stamps and durations are
      integers ([Z]); [Date.now()] is an explicit argument of a synchronous
      block, or a reading of the clock of the world for composed code.
    - A JavaScript [Map<string, V>] is a [gmap string V]; [null]/[undefined]
      results are [None].
    - An [async] function is cut at its [await]s: the part that runs
      synchronously when the function is called, and the continuation that
      runs when the awaited operation settles. *)

From Stdlib Require Import ZArith QArith Lqa String Ascii List Lia.
Close Scope Q_scope.
From stdpp Require Import base gmap strings list pretty.

Open Scope Z_scope.

(* ===================================================================== *)
(** * Part I: the embedding                                               *)
(* ===================================================================== *)

(** ** JavaScript truthiness of the values that the code tests *)

(** [if (s)] for a string: the empty string is falsy. *)
Definition truthy_string (s : string) : bool :=
  match s with
  | EmptyString => false
  | String _ _ => true
  end.

(** [if (x)] for [x : string | null | undefined]. *)
Definition truthy_opt_string (o : option string) : bool :=
  match o with
  | Some s => truthy_string s
  | None => false
  end.

(** [if (n)] and [n || d] for an integral number or [undefined]: [0] and
    [undefined] are falsy. *)
Definition truthy_opt_number (o : option Z) : bool :=
  match o with
  | Some n => negb (n =? 0)
  | None => false
  end.

(** ** JavaScript strings *)

Module JsString.

(** Strings are sequences of code units below 256.  On these,
    [toLowerCase()] maps [A]-[Z] and the capital letters of Latin-1
    (0xC0-0xDE without 0xD7) to the letter 32 code units above, and leaves
    the rest. *)
Definition lowerChar (c : ascii) : ascii :=
  let n := nat_of_ascii c in
  if ((65 <=? n) && (n <=? 90)
      || (192 <=? n) && (n <=? 214)
      || (216 <=? n) && (n <=? 222))%nat
  then ascii_of_nat (n + 32)
  else c.

Fixpoint toLowerCase (s : string) : string :=
  match s with
  | EmptyString => EmptyString
  | String c s' => String (lowerChar c) (toLowerCase s')
  end.

(** [s.includes(search)]: [search] occurs in [s] as a substring. *)
Fixpoint includes (s search : string) : bool :=
  String.prefix search s
  || match s with
     | EmptyString => false
     | String _ s' => includes s' search
     end.

End JsString.

(** ** [src/utils/cache.ts]: class [Cache<T>] *)

Module Cache.
Section WithValue.
Context {T : Type}.

(** [interface CacheEntry<T> { value: T; expiresAt: number }] *)
Record CacheEntry : Type := mkEntry { value : T; expiresAt : Z }.

(** The private field [cache: Map<string, CacheEntry<T>>]. *)
Local Abbreviation t := (gmap string CacheEntry).

Definition empty : t := ∅.

(** [set(key, value, ttlMs)]; [now] is the reading of [Date.now()]. *)
Definition set (now : Z) (key : string) (v : T) (ttlMs : Z) (c : t) : t :=
  let expiresAt := now + ttlMs in
  <[key := mkEntry v expiresAt]> c.

(** [get(key)]: the result ([None] is [null]) and the cache afterwards. *)
Definition get (now : Z) (key : string) (c : t) : option T * t :=
  match c !! key with
  | None => (None, c)
  | Some entry =>
      if now >? expiresAt entry
      then (None, base.delete key c)
      else (Some (value entry), c)
  end.

(** [delete(key)]: whether the key was present, and the cache afterwards. *)
Definition delete (key : string) (c : t) : bool * t :=
  let result := bool_decide (is_Some (c !! key)) in
  (result, base.delete key c).

(** [clear()] *)
Definition clear (c : t) : t := ∅.

(** [size()] *)
Definition size (c : t) : nat := base.size c.

(** [cleanExpired()]: the loop over [this.cache.entries()] deletes the
    keys whose entry satisfies [now > entry.expiresAt]. *)
Definition cleanExpired (now : Z) (c : t) : t :=
  foldr (fun '(key, entry) acc =>
           if now >? expiresAt entry then base.delete key acc else acc)
        c (map_to_list c).

End WithValue.
Arguments CacheEntry : clear implicits.
Abbreviation t T := (gmap string (CacheEntry T)).
End Cache.

(** ** Configuration ([src/utils/config.ts], the options the core reads) *)

Module Config.
Record EfecteConfig : Type := mkConfig {
  timeout : Z;                   (* efecteConfig.timeout *)
  templatesTTL : Z;              (* caching.templatesTTL *)
  authTokenTTL : Z;              (* caching.authTokenTTL *)
  tokenRefreshThreshold : Z;     (* security.tokenRefreshThreshold, seconds *)
  sessionTimeout : option Z      (* transport.http.sessionTimeout?: number *)
}.

(** The defaults of [buildConfig()]. *)
Definition defaults : EfecteConfig :=
  {| timeout := 30000;
     templatesTTL := 300000;
     authTokenTTL := 3300000;
     tokenRefreshThreshold := 300;
     sessionTimeout := Some 1800000 |}.
End Config.

(** ** Errors and promise results *)

(** The request configuration of axios, with the two headers that the
    interceptors read and write. *)
Record RequestConfig : Type := mkRequest {
  url : option string;
  method : option string;
  hdrAuthorization : option string;   (* headers['Authorization'] *)
  hdrXRetry : option string;          (* headers['X-Retry'] *)
  reqTimeout : option Z
}.

(** A thrown JavaScript value as far as the code inspects it: whether
    [axios.isAxiosError] holds, [error.code], [error.message],
    [error.config] and [error.response?.status], and the two marks that the
    response interceptor puts on the errors that it creates. *)
Record JsError : Type := mkJsError {
  isAxiosError : bool;
  code : option string;
  message : string;
  config : option RequestConfig;
  responseStatus : option Z;
  isTimeout : bool;
  isNetworkError : bool
}.

(** [new Error(msg)] *)
Definition newError (msg : string) : JsError :=
  {| isAxiosError := false; code := None; message := msg; config := None;
     responseStatus := None; isTimeout := false; isNetworkError := false |}.

(** How a promise settles (or how a synchronous block ends): a value or a
    thrown error. *)
Inductive Result (A : Type) : Type :=
| Ok (a : A)
| Throw (e : JsError).
Arguments Ok {A} a.
Arguments Throw {A} e.

(** ** [src/api/auth.ts]: class [AuthManager] *)

Module AuthManager.

(** The fields of the class.  A promise is identified by the number of the
    credential exchange that settles it. *)
Record Fields : Type := mkFields {
  tokenCache : gmap string (Cache.CacheEntry string);
  tokenExpiresAt : Z;
  authPromise : option nat
}.

(** The object together with the part of the run-time that the properties
    speak about: how many [POST users/login] requests were issued, which
    of them are still outstanding (and whether the [finally] callback of
    [getToken] is attached to their promise), and how the settled ones
    settled. *)
Record State : Type := mkState {
  this : Fields;
  loginRequests : nat;
  inflight : gmap nat bool;
  settled : gmap nat (Result string)
}.

(** [new AuthManager()] in a fresh run-time. *)
Definition init : State :=
  {| this := {| tokenCache := Cache.empty; tokenExpiresAt := 0;
                authPromise := None |};
     loginRequests := 0; inflight := ∅; settled := ∅ |}.

Definition set_this (f : Fields) (s : State) : State :=
  {| this := f; loginRequests := loginRequests s; inflight := inflight s;
     settled := settled s |}.

Definition set_tokenCache (c : gmap string (Cache.CacheEntry string))
    (s : State) : State :=
  set_this {| tokenCache := c; tokenExpiresAt := tokenExpiresAt (this s);
              authPromise := authPromise (this s) |} s.

Definition set_tokenExpiresAt (z : Z) (s : State) : State :=
  set_this {| tokenCache := tokenCache (this s); tokenExpiresAt := z;
              authPromise := authPromise (this s) |} s.

Definition set_authPromise (p : option nat) (s : State) : State :=
  set_this {| tokenCache := tokenCache (this s);
              tokenExpiresAt := tokenExpiresAt (this s);
              authPromise := p |} s.

(** What [axios.post(getApiUrl('users/login'), ...)] settles with: a
    response, of which the code reads [response.data.token] and
    [response.headers['authorization']], or a rejection. *)
Inductive PostOutcome : Type :=
| Responded (dataToken headerAuthorization : option string)
| Rejected (e : JsError).

(** What a call of [getToken()] hands to its caller when its synchronous
    part ends: a token (the promise of the [async] function is already
    resolved with it), or the promise of exchange [p] to wait for. *)
Inductive Outcome : Type :=
| Resolved (token : string)
| Awaits (p : nat).

Section WithConfig.
Variable efecteConfig : Config.EfecteConfig.

(** The synchronous part of [authenticate()], up to the [await] of
    [axios.post]: the request is issued. *)
Definition authenticate_start (viaGetToken : bool) (s : State)
  : nat * State :=
  let p := loginRequests s in
  (p, {| this := this s; loginRequests := S p;
         inflight := <[p := viaGetToken]> (inflight s);
         settled := settled s |}).

(** The [catch (error)] branch of [authenticate()]: the error it throws. *)
Definition authenticate_catch (error : JsError) : JsError :=
  if isAxiosError error then
    if bool_decide (responseStatus error = Some 401)
    then newError "Invalid credentials"
    else newError ("Authentication failed: " +:+ message error)
  else error.

(** [token.startsWith('Bearer ') ? token : `Bearer ${token}`] *)
Definition bearer (token : string) : string :=
  if String.prefix "Bearer " token then token else "Bearer " +:+ token.

(** The rest of [authenticate()], from the point where [axios.post]
    settles with [r]; [tset] is the reading of [Date.now()] inside
    [tokenCache.set], [trec] the one in the assignment of
    [tokenExpiresAt]. *)
Definition authenticate_resume (r : PostOutcome) (tset trec : Z)
    (s : State) : Result string * State :=
  match r with
  | Responded dataToken headerAuthorization =>
      let token :=
        if truthy_opt_string dataToken then dataToken
        else headerAuthorization in
      match (if truthy_opt_string token then token else None) with
      | None =>
          (* if (!token) throw ..., which the catch branch receives *)
          (Throw (authenticate_catch
             (newError "No token received from authentication endpoint")), s)
      | Some token =>
          let bearerToken := bearer token in
          let s :=
            set_tokenCache
              (Cache.set tset "token" bearerToken
                 (Config.authTokenTTL efecteConfig)
                 (tokenCache (this s))) s in
          let s :=
            set_tokenExpiresAt (trec + Config.authTokenTTL efecteConfig) s in
          (Ok bearerToken, s)
      end
  | Rejected error => (Throw (authenticate_catch error), s)
  end.

(** The test of the first [if] of [getToken()]; [now] is the reading of
    [Date.now()] in the comparison. *)
Definition fresh_enough (cachedToken : option string) (now : Z)
    (s : State) : bool :=
  truthy_opt_string cachedToken
  && (tokenExpiresAt (this s)
      >? now + Config.tokenRefreshThreshold efecteConfig * 1000).

(** [getToken()], its synchronous part; [tget] is the reading of
    [Date.now()] inside [tokenCache.get], [now] the one in the
    comparison. *)
Definition getToken (tget now : Z) (s : State) : Outcome * State :=
  let '(cachedToken, c) := Cache.get tget "token" (tokenCache (this s)) in
  let s := set_tokenCache c s in
  match (if fresh_enough cachedToken now s then cachedToken else None) with
  | Some token => (Resolved token, s)
  | None =>
      match authPromise (this s) with
      | Some p => (Awaits p, s)
      | None =>
          let '(p, s) := authenticate_start true s in
          (Awaits p, set_authPromise (Some p) s)
      end
  end.

(** The exchange [p] settles with [r]: the continuation of
    [authenticate()] runs, then the [finally] callback when the exchange
    was started by [getToken()], and the promise is settled. *)
Definition settle (p : nat) (r : PostOutcome) (tset trec : Z)
    (s : State) : State :=
  match inflight s !! p with
  | None => s
  | Some viaGetToken =>
      let '(res, s) := authenticate_resume r tset trec s in
      let s := if viaGetToken : bool then set_authPromise None s else s in
      {| this := this s; loginRequests := loginRequests s;
         inflight := delete p (inflight s);
         settled := <[p := res]> (settled s) |}
  end.

(** [clearToken()] *)
Definition clearToken (s : State) : State :=
  let s := set_tokenCache (snd (Cache.delete "token" (tokenCache (this s)))) s in
  let s := set_tokenExpiresAt 0 s in
  set_authPromise None s.

(** [isAuthenticated()] *)
Definition isAuthenticated (tget now : Z) (s : State) : bool * State :=
  let '(cachedToken, c) := Cache.get tget "token" (tokenCache (this s)) in
  let s := set_tokenCache c s in
  (match cachedToken with
   | Some _ => tokenExpiresAt (this s) >? now
   | None => false
   end, s).

(** What the caller of [getToken()] receives once the state is [s]. *)
Definition received (o : Outcome) (s : State) : option (Result string) :=
  match o with
  | Resolved token => Some (Ok token)
  | Awaits p => settled s !! p
  end.

(** What can happen to an [AuthManager]: the calls of its methods and
    the settling of an outstanding exchange. *)
Inductive Event : Type :=
| CallGetToken (tget now : Z)
| CallAuthenticate
| Settles (p : nat) (r : PostOutcome) (tset trec : Z)
| CallClearToken
| CallIsAuthenticated (tget now : Z).

Definition step (ev : Event) (s : State) : State :=
  match ev with
  | CallGetToken tget now => snd (getToken tget now s)
  | CallAuthenticate => snd (authenticate_start false s)
  | Settles p r tset trec => settle p r tset trec s
  | CallClearToken => clearToken s
  | CallIsAuthenticated tget now => snd (isAuthenticated tget now s)
  end.

(** The states that a run of the program can be in. *)
Inductive reachable : State -> Prop :=
| reachable_init : reachable init
| reachable_step ev s : reachable s -> reachable (step ev s).

(** Several callers call [getToken()] one after the other, before
    anything settles. *)
Fixpoint getToken_all (callers : list (Z * Z)) (s : State)
  : list Outcome * State :=
  match callers with
  | [] => ([], s)
  | (tget, now) :: rest =>
      let '(o, s) := getToken tget now s in
      let '(os, s) := getToken_all rest s in
      (o :: os, s)
  end.

(** The token that [getToken()] finds in the cache at time [tget]: the
    value of its [const cachedToken]. *)
Definition cachedToken (tget : Z) (s : State) : option string :=
  fst (Cache.get tget "token" (tokenCache (this s))).

(** The token that [authenticate()] extracts from a login response, if
    there is one:
    [response.data.token || response.headers['authorization']], and a
    falsy value is none. *)
Definition carried_token (r : PostOutcome) : option string :=
  match r with
  | Responded dataToken headerAuthorization =>
      let token :=
        if truthy_opt_string dataToken then dataToken
        else headerAuthorization in
      if truthy_opt_string token then token else None
  | Rejected _ => None
  end.

(** What holds of every state that a run can be in: the cached token
    carries the prefix, the marker names an outstanding exchange that
    [getToken()] started, and the exchanges are numbered below
    [loginRequests]. *)
Definition invariant (s : State) : Prop :=
  (forall e, tokenCache (this s) !! "token" = Some e ->
             String.prefix "Bearer " (Cache.value e) = true) /\
  (forall p, authPromise (this s) = Some p -> inflight s !! p = Some true) /\
  (forall p, is_Some (inflight s !! p) -> (p < loginRequests s)%nat) /\
  (forall p, is_Some (settled s !! p) -> (p < loginRequests s)%nat).

End WithConfig.
End AuthManager.

(** ** [src/server-http.ts]: class [EfecteHttpServer], the session registry *)

Module EfecteHttpServer.

(** [interface TransportInfo]; the transport and the protocol engine
    ([Server]) are objects of the SDK and appear as handles. *)
Record TransportInfo : Type := mkInfo {
  transport : nat;
  server : nat;
  lastActivity : Z
}.

(** The bodies that the routes send. *)
Inductive Body : Type :=
| JsonError (error : string)                    (* { error } *)
| JsonRpcError (code : Z) (message : string)    (* { jsonrpc, error, id } *)
| Text (text : string)
| NoBody.

(** What the registry code does to the outside, in the order in which it
    does it. *)
Inductive Effect : Type :=
| RegistryDelete (sessionId : string)   (* this.transports.delete(id) *)
| ServerClose (server : nat)            (* server.close() is called *)
| HandleRequest (transport : nat)       (* transport.handleRequest(...) *)
| Respond (status : Z) (body : Body).   (* res.status(..).json/send(..) *)

(** The private field [transports: Map<string, TransportInfo>] and the
    effects so far, oldest first. *)
Record State : Type := mkState {
  transports : gmap string TransportInfo;
  log : list Effect
}.

Definition init : State := {| transports := ∅; log := [] |}.

(** [this.transports.has(sessionId)] *)
Definition has (sessionId : string) (st : State) : bool :=
  bool_decide (is_Some (transports st !! sessionId)).

Definition emit (e : Effect) (st : State) : State :=
  {| transports := transports st; log := log st ++ [e] |}.

(** [this.transports.delete(sessionId)] *)
Definition registry_delete (sessionId : string) (st : State) : State :=
  emit (RegistryDelete sessionId)
    {| transports := delete sessionId (transports st); log := log st |}.

(** [transportInfo.lastActivity = now], on the object that the map holds. *)
Definition touch (sessionId : string) (now : Z) (st : State) : State :=
  {| transports :=
       alter (fun info => {| transport := transport info;
                             server := server info;
                             lastActivity := now |})
             sessionId (transports st);
     log := log st |}.

Section WithConfig.
Variable efecteConfig : Config.EfecteConfig.

(** [efecteConfig.transport.http.sessionTimeout || 1800000]: [undefined]
    and [0] are falsy. *)
Definition sessionTimeout : Z :=
  match Config.sessionTimeout efecteConfig with
  | Some n => if n =? 0 then 1800000 else n
  | None => 1800000
  end.

(** The first loop of [cleanupIdleSessions()]: the identifiers pushed
    to [sessionsToClose]. *)
Definition idleSessions (now : Z) (st : State) : list string :=
  foldl (fun sessionsToClose '(sessionId, transportInfo) =>
           let idleTime := now - lastActivity transportInfo in
           if idleTime >? sessionTimeout
           then sessionsToClose ++ [sessionId]
           else sessionsToClose)
        [] (map_to_list (transports st)).

(** The body of the second loop. *)
Definition closeIdleSession (st : State) (sessionId : string) : State :=
  match transports st !! sessionId with
  | Some transportInfo =>
      (* Remove from map first to prevent race conditions *)
      let st := registry_delete sessionId st in
      (* Then close asynchronously *)
      emit (ServerClose (server transportInfo)) st
  | None => st
  end.

(** [cleanupIdleSessions()] *)
Definition cleanupIdleSessions (now : Z) (st : State) : State :=
  let sessionsToClose := idleSessions now st in
  foldl closeIdleSession st sessionsToClose.

(** [DELETE /mcp], up to the [await] of [server.close()]: either the
    response is sent, or the close of the session is awaited. *)
Inductive DeleteStep : Type :=
| DeleteDone
| DeleteAwaitsClose (sessionId : string).

Definition delete_mcp_begin (sessionId : option string) (st : State)
  : DeleteStep * State :=
  match sessionId with
  | Some sid =>
      if negb (truthy_string sid) then
        (DeleteDone, emit (Respond 400 (JsonError "Missing session ID")) st)
      else
        match transports st !! sid with
        | Some transportInfo =>
            (DeleteAwaitsClose sid,
             emit (ServerClose (server transportInfo)) st)
        | None =>
            (DeleteDone,
             emit (Respond 404 (JsonError "Session not found")) st)
        end
  | None =>
      (DeleteDone, emit (Respond 400 (JsonError "Missing session ID")) st)
  end.

(** [DELETE /mcp] from the point where [server.close()] has settled;
    a rejection is caught and logged, so both ways of settling continue
    alike. *)
Definition delete_mcp_resume (sessionId : string) (closed : Result unit)
    (st : State) : State :=
  let st := registry_delete sessionId st in
  emit (Respond 204 NoBody) st.

(** [POST /mcp], its synchronous part: the routing decision.  [now1] and
    [now2] are the two readings of [Date.now()] on the path of a known
    session. *)
Inductive PostStep : Type :=
| PostRouted (transport : nat)
| PostInitializes
| PostRejected.

Definition post_mcp_begin (sessionId : option string)
    (isInitializeRequest : bool) (now1 now2 : Z) (st : State)
  : PostStep * State :=
  let known :=
    match sessionId with
    | Some sid => truthy_string sid && has sid st
    | None => false
    end in
  if known then
    match sessionId ≫= (fun sid => transports st !! sid), sessionId with
    | Some transportInfo, Some sid =>
        let st := touch sid now1 st in
        let st := touch sid now2 st in
        (PostRouted (transport transportInfo),
         emit (HandleRequest (transport transportInfo)) st)
    | _, _ => (PostRejected, st)
    end
  else if negb (truthy_opt_string sessionId) && isInitializeRequest then
    (PostInitializes, st)
  else
    (PostRejected,
     emit (Respond 400 (JsonRpcError (-32000)
       "Bad Request: No valid session ID provided or not an initialization request"))
       st).

(** [GET /mcp], its synchronous part. *)
Definition get_mcp_begin (sessionId : option string) (now : Z)
    (st : State) : option nat * State :=
  match sessionId with
  | Some sid =>
      if negb (truthy_string sid) || negb (has sid st) then
        (None, emit (Respond 400 (Text "Invalid or missing session ID")) st)
      else
        match transports st !! sid with
        | Some transportInfo =>
            let st := touch sid now st in
            (Some (transport transportInfo),
             emit (HandleRequest (transport transportInfo)) st)
        | None => (None, st)
        end
  | None =>
      (None, emit (Respond 400 (Text "Invalid or missing session ID")) st)
  end.

(** The callback [onsessioninitialized] of a new transport:
    [this.transports.set(sid, { transport, server, lastActivity })]. *)
Definition onsessioninitialized (sid : string) (transport server : nat)
    (now : Z) (st : State) : State :=
  {| transports :=
       <[sid := {| transport := transport; server := server;
                   lastActivity := now |}]> (transports st);
     log := log st |}.

(** The callback [transport.onclose], and likewise the clean-up of the
    [catch] in the initialization path: with
    [sid = transport.sessionId || pendingSessionId], the session is
    deleted if it is registered. *)
Definition onclose (sid : option string) (st : State) : State :=
  match sid with
  | Some sid =>
      if truthy_string sid && has sid st then registry_delete sid st
      else st
  | None => st
  end.

(** What can happen to the registry. *)
Inductive Event : Type :=
| PostMcp (sessionId : option string) (isInitializeRequest : bool)
          (now1 now2 : Z)
| GetMcp (sessionId : option string) (now : Z)
| DeleteMcpBegin (sessionId : option string)
| DeleteMcpResume (sessionId : string) (closed : Result unit)
| SessionInitialized (sid : string) (transport server : nat) (now : Z)
| TransportClosed (sid : option string)
| CleanupIdleSessions (now : Z).

Definition step (st : State) (ev : Event) : State :=
  match ev with
  | PostMcp sessionId isInit now1 now2 =>
      snd (post_mcp_begin sessionId isInit now1 now2 st)
  | GetMcp sessionId now => snd (get_mcp_begin sessionId now st)
  | DeleteMcpBegin sessionId => snd (delete_mcp_begin sessionId st)
  | DeleteMcpResume sessionId closed =>
      delete_mcp_resume sessionId closed st
  | SessionInitialized sid transport server now =>
      onsessioninitialized sid transport server now st
  | TransportClosed sid => onclose sid st
  | CleanupIdleSessions now => cleanupIdleSessions now st
  end.

Definition run (st : State) (evs : list Event) : State :=
  foldl step st evs.

(** The event registers a session under [sid]. *)
Definition initializes (sid : string) (ev : Event) : Prop :=
  match ev with
  | SessionInitialized sid' _ _ _ => sid' = sid
  | _ => False
  end.

End WithConfig.
End EfecteHttpServer.

(** ** [src/utils/reference-attributes.ts]: the closest-match suggestion *)

Module ReferenceAttributes.
Import JsString.

(** [Math.min(a, b, c)] *)
Definition min3 (a b c : nat) : nat := Nat.min (Nat.min a b) c.

(** The matrix [number[][]] is a list of rows.  [matrix[i][j]] as a
    value: *)
Definition cell (matrix : list (list nat)) (i j : nat) : nat :=
  default 0%nat (matrix !! i ≫= (fun row => row !! j)).

(** [matrix[i][j] = v]: an index inside the row is overwritten, and the
    index at the end of the row extends the row by one element (the code
    assigns to no index beyond that). *)
Definition assign (matrix : list (list nat)) (i j v : nat)
  : list (list nat) :=
  alter (fun row =>
           if (j <? length row)%nat then <[j := v]> row else row ++ [v])
        i matrix.

(** The body of the inner loop of [levenshteinDistance], for the strings
    as lists of characters; [!!] is [charAt]. *)
Definition innerBody (s1 s2 : list ascii) (i : nat)
    (matrix : list (list nat)) (j : nat) : list (list nat) :=
  if bool_decide (s2 !! (i - 1)%nat = s1 !! (j - 1)%nat) then
    assign matrix i j (cell matrix (i - 1) (j - 1))
  else
    assign matrix i j
      (min3 (cell matrix (i - 1) (j - 1) + 1)   (* substitution *)
            (cell matrix i (j - 1) + 1)         (* insertion *)
            (cell matrix (i - 1) j + 1)).       (* deletion *)

(** The body of the outer loop: [for (let j = 1; j <= str1.length; j++)]. *)
Definition outerBody (s1 s2 : list ascii) (matrix : list (list nat))
    (i : nat) : list (list nat) :=
  foldl (innerBody s1 s2 i) matrix (seq 1 (length s1)).

(** [levenshteinDistance(str1, str2)] *)
Definition levenshteinDistance (str1 str2 : string) : nat :=
  let s1 := list_ascii_of_string str1 in
  let s2 := list_ascii_of_string str2 in
  (* for (let i = 0; i <= str2.length; i++) matrix[i] = [i]; *)
  let matrix :=
    foldl (fun matrix i => matrix ++ [[i]]) [] (seq 0 (S (length s2))) in
  (* for (let j = 0; j <= str1.length; j++) matrix[0][j] = j; *)
  let matrix :=
    foldl (fun matrix j => assign matrix 0 j j) matrix
          (seq 0 (S (length s1))) in
  (* for (let i = 1; i <= str2.length; i++) ... *)
  let matrix := foldl (outerBody s1 s2) matrix (seq 1 (length s2)) in
  cell matrix (length s2) (length s1).

(** [calculateSimilarity(str1, str2)], an exact rational for the
    floating-point number. *)
Definition calculateSimilarity (str1 str2 : string) : Q :=
  let maxLength := Nat.max (String.length str1) (String.length str2) in
  if (maxLength =? 0)%nat then 1%Q
  else
    let distance := levenshteinDistance str1 str2 in
    (1 - inject_Z (Z.of_nat distance) / inject_Z (Z.of_nat maxLength))%Q.

(** [similarities.sort((a, b) => b.similarity - a.similarity)]: the sort
    of an array is stable, so the result is the one of a stable insertion
    sort, in which an element goes in front of the first element that the
    comparator does not put before it. *)
Definition comparator (a b : string * Q) : Q := (snd b - snd a)%Q.

Fixpoint insertSorted (a : string * Q) (sorted : list (string * Q))
  : list (string * Q) :=
  match sorted with
  | [] => [a]
  | b :: rest =>
      if Qle_bool (comparator a b) 0 then a :: b :: rest
      else b :: insertSorted a rest
  end.

Definition sort (l : list (string * Q)) : list (string * Q) :=
  foldr insertSorted [] l.

(** The default of the parameter [threshold], [0.6]. *)
Definition defaultThreshold : Q := (6 # 10)%Q.

(** [findSimilarMatch(target, options, threshold)] *)
Definition findSimilarMatch (target : string) (options : list string)
    (threshold : Q) : option string :=
  if (length options =? 0)%nat then None
  else
    let targetLower := toLowerCase target in
    (* First, try exact case-insensitive match *)
    let exactMatch :=
      List.find (fun opt => String.eqb (toLowerCase opt) targetLower)
                options in
    if truthy_opt_string exactMatch then exactMatch
    else
      (* Try substring match (contains) *)
      let substringMatch :=
        List.find (fun opt =>
                     includes (toLowerCase opt) targetLower
                     || includes targetLower (toLowerCase opt))
                  options in
      if truthy_opt_string substringMatch then substringMatch
      else
        (* Calculate Levenshtein distance for all options *)
        let similarities :=
          map (fun option =>
                 (option,
                  calculateSimilarity targetLower (toLowerCase option)))
              options in
        (* Sort by similarity (highest first) *)
        let similarities := sort similarities in
        (* Return the best match if it's above threshold *)
        match similarities with
        | best :: _ =>
            if Qle_bool threshold (snd best) then Some (fst best) else None
        | [] => None
        end.

(** The recurrence that the matrix tabulates, on the prefixes of the two
    strings read backwards: for [x] the first [i] characters of [str2] and
    [y] the first [j] characters of [str1], both reversed,
    [recurrence x y] is what the loops store in [matrix[i][j]]. *)
Fixpoint recurrence (x y : list ascii) : nat :=
  match x with
  | [] => length y
  | a :: x' =>
      (fix inner (y : list ascii) : nat :=
         match y with
         | [] => length x
         | b :: y' =>
             if Ascii.eqb a b then recurrence x' y'
             else min3 (recurrence x' y' + 1) (inner y' + 1)
                       (recurrence x' y + 1)
         end) y
  end.

(** The cell [matrix[i][j]] that the loops are to compute. *)
Definition ideal (s1 s2 : list ascii) (i j : nat) : nat :=
  recurrence (rev (take i s2)) (rev (take j s1)).

(** The rows [0 .. i - 1] of the matrix when they are complete, and the
    rows [i .. i + n - 1] as the first loop leaves them. *)
Definition doneRows (s1 s2 : list ascii) (i : nat) : list (list nat) :=
  (fun k => ideal s1 s2 k <$> seq 0 (S (length s1))) <$> seq 0 i.

Definition todoRows (i n : nat) : list (list nat) :=
  (fun k => [k]) <$> seq i n.

(** The edit distance in the words of the glossary: [edits s t n] says that
    [n] single-character insertions, deletions and substitutions transform
    [s] into [t]; the distance is the least such [n]. *)
Inductive edits : list ascii -> list ascii -> nat -> Prop :=
| edits_nil : edits [] [] 0
| edits_keep a s t n : edits s t n -> edits (a :: s) (a :: t) n
| edits_substitute a b s t n : edits s t n -> edits (a :: s) (b :: t) (S n)
| edits_delete a s t n : edits s t n -> edits (a :: s) t (S n)
| edits_insert b s t n : edits s t n -> edits s (b :: t) (S n).

(** The first element of the list, if there is one, has a highest
    score. *)
Definition head_is_highest (l : list (string * Q)) : Prop :=
  match l with
  | [] => True
  | best :: _ => forall x, x ∈ l -> (snd x <= snd best)%Q
  end.

End ReferenceAttributes.

(** ** [src/api/client.ts]: class [EfecteApiClient], the interceptors *)

(** The client is an instance of the library axios.  What the embedding
    takes from the behaviour of axios: [request(config)] runs the request
    interceptor, hands the resulting configuration to the adapter, and
    passes the outcome to the response interceptor; a rejection of the
    request interceptor or of the adapter reaches the error handler of the
    response interceptor; the error of a failed dispatch carries the
    configuration that was dispatched. *)

Module EfecteApiClient.

(** An axios response, [response.status] and [response.data]. *)
Record Response : Type := mkResponse { status : Z; data : string }.

(** What the adapter of axios settles a dispatched request with: a
    response that [validateStatus] accepts, or an [AxiosError] with its
    [code], [message] and, if the server answered, [response.status]. *)
Inductive AdapterOutcome : Type :=
| Answered (response : Response)
| Failed (code : option string) (message : string) (status : option Z).

(** What the client does to the outside, in the order in which it does
    it. *)
Inductive Effect : Type :=
| Dispatched (config : RequestConfig)   (* a request goes to the server *)
| ClearedToken                          (* authManager.clearToken() *)
| LoginIssued (p : nat).                (* POST users/login, exchange p *)

(** One request running alone: the [AuthManager], the clock (a stream of
    readings of [Date.now()] and how many were taken), the network (how
    the [p]-th login exchange and the [n]-th dispatched request settle)
    and the effects so far, oldest first. *)
Record World : Type := mkWorld {
  authManager : AuthManager.State;
  clock : nat -> Z;
  ticks : nat;
  loginNet : nat -> AuthManager.PostOutcome;
  apiNet : nat -> RequestConfig -> AdapterOutcome;
  trace : list Effect
}.

(** The requests dispatched in a trace. *)
Fixpoint dispatches (tr : list Effect) : list RequestConfig :=
  match tr with
  | [] => []
  | Dispatched c :: tr => c :: dispatches tr
  | _ :: tr => dispatches tr
  end.

(** Code that awaits: it ends with a value or a thrown error, or its
    promise never settles ([None]). *)
Definition M (A : Type) : Type := World -> option (Result A * World).

Definition ret {A} (a : A) : M A := fun w => Some (Ok a, w).

Definition throw {A} (e : JsError) : M A := fun w => Some (Throw e, w).

Definition bind {A B} (m : M A) (k : A -> M B) : M B :=
  fun w =>
    match m w with
    | Some (Ok a, w') => k a w'
    | Some (Throw e, w') => Some (Throw e, w')
    | None => None
    end.

(** [promise.then(undefined, handler)] *)
Definition catch {A} (m : M A) (handler : JsError -> M A) : M A :=
  fun w =>
    match m w with
    | Some (Throw e, w') => handler e w'
    | settled => settled
    end.

Notation "x <- m ;; k" := (bind m (fun x => k))
  (at level 100, m at next level, right associativity).
Notation "m ;; k" := (bind m (fun _ => k))
  (at level 100, right associativity).

Definition set_authManager (s : AuthManager.State) (w : World) : World :=
  {| authManager := s; clock := clock w; ticks := ticks w;
     loginNet := loginNet w; apiNet := apiNet w; trace := trace w |}.

Definition advance (n : nat) (w : World) : World :=
  {| authManager := authManager w; clock := clock w;
     ticks := (n + ticks w)%nat;
     loginNet := loginNet w; apiNet := apiNet w; trace := trace w |}.

Definition emit (es : list Effect) (w : World) : World :=
  {| authManager := authManager w; clock := clock w; ticks := ticks w;
     loginNet := loginNet w; apiNet := apiNet w; trace := trace w ++ es |}.

(** [config.headers['Authorization'] = token] *)
Definition set_Authorization (token : string) (c : RequestConfig)
  : RequestConfig :=
  {| url := url c; method := method c; hdrAuthorization := Some token;
     hdrXRetry := hdrXRetry c; reqTimeout := reqTimeout c |}.

(** [config.headers['X-Retry'] = 'true'] *)
Definition set_XRetry (c : RequestConfig) : RequestConfig :=
  {| url := url c; method := method c;
     hdrAuthorization := hdrAuthorization c;
     hdrXRetry := Some "true"; reqTimeout := reqTimeout c |}.

(** [config.timeout = t] *)
Definition set_timeout (t : Z) (c : RequestConfig) : RequestConfig :=
  {| url := url c; method := method c;
     hdrAuthorization := hdrAuthorization c;
     hdrXRetry := hdrXRetry c; reqTimeout := Some t |}.

(** [url?.includes(part)], where [undefined] is falsy. *)
Definition url_includes (part : string) (u : option string) : bool :=
  match u with
  | Some u => JsString.includes u part
  | None => false
  end.

Section WithConfig.
Variable efecteConfig : Config.EfecteConfig.

(** [await promise] for the promise of login exchange [p]: an
    outstanding exchange settles as the network says, with the two
    readings of the clock that the continuation of [authenticate()]
    takes. *)
Definition await (p : nat) : M string :=
  fun w =>
    let s := authManager w in
    match AuthManager.inflight s !! p with
    | Some _ =>
        let tset := clock w (ticks w) in
        let trec := clock w (S (ticks w)) in
        let s' :=
          AuthManager.settle efecteConfig p (loginNet w p) tset trec s in
        match AuthManager.settled s' !! p with
        | Some r => Some (r, advance 2 (set_authManager s' w))
        | None => None
        end
    | None =>
        match AuthManager.settled s !! p with
        | Some r => Some (r, w)
        | None => None
        end
    end.

(** [await this.authManager.getToken()] *)
Definition getToken : M string :=
  fun w =>
    let s := authManager w in
    let tget := clock w (ticks w) in
    let now := clock w (S (ticks w)) in
    let '(o, s') := AuthManager.getToken efecteConfig tget now s in
    let issued :=
      if (AuthManager.loginRequests s <? AuthManager.loginRequests s')%nat
      then [LoginIssued (AuthManager.loginRequests s)] else [] in
    let w := emit issued (advance 2 (set_authManager s' w)) in
    match o with
    | AuthManager.Resolved token => Some (Ok token, w)
    | AuthManager.Awaits p => await p w
    end.

(** [this.authManager.clearToken()] *)
Definition clearToken : M unit :=
  fun w =>
    Some (Ok tt,
          emit [ClearedToken]
            (set_authManager (AuthManager.clearToken (authManager w)) w)).

(** The error that axios builds for a failed dispatch of [c]. *)
Definition axiosError (c : RequestConfig) (code : option string)
    (message : string) (status : option Z) : JsError :=
  {| isAxiosError := true; code := code; message := message;
     config := Some c; responseStatus := status;
     isTimeout := false; isNetworkError := false |}.

(** The request goes to the adapter; it is the [n]-th dispatched
    request, where [n] requests were dispatched before. *)
Definition dispatchRequest (c : RequestConfig) : M Response :=
  fun w =>
    let n := length (dispatches (trace w)) in
    let w' := emit [Dispatched c] w in
    match apiNet w n c with
    | Answered response => Some (Ok response, w')
    | Failed code message status =>
        Some (Throw (axiosError c code message status), w')
    end.

(** The request interceptor. *)
Definition requestInterceptor (c : RequestConfig) : M RequestConfig :=
  c <- (if truthy_opt_string (url c)
           && negb (url_includes "/users/login" (url c))
           && negb (url_includes "/echo" (url c))
        then
          token <- getToken ;;
          ret (set_Authorization token c)
        else ret c) ;;
  (* Ensure timeout is set (use config timeout or default) *)
  let c :=
    if negb (truthy_opt_number (reqTimeout c))
    then set_timeout (Config.timeout efecteConfig) c else c in
  ret c.

(** [error.config?.url] *)
Definition error_url (error : JsError) : option string :=
  config error ≫= url.

(** The error handler of the response interceptor; [request] is
    [this.client.request]. *)
Definition responseRejected (request : RequestConfig -> M Response)
    (error : JsError) : M Response :=
  let requestUrl :=
    if truthy_opt_string (error_url error)
    then default "unknown" (error_url error) else "unknown" in
  (* Handle timeout errors *)
  if bool_decide (code error = Some "ECONNABORTED")
     || JsString.includes (message error) "timeout" then
    let timeout :=
      if truthy_opt_number (config error ≫= reqTimeout)
      then default 0 (config error ≫= reqTimeout)
      else Config.timeout efecteConfig in
    throw {| isAxiosError := false; code := Some "ETIMEDOUT";
             message :=
               "Request to " +:+ requestUrl +:+ " timed out after "
               +:+ pretty timeout
               +:+ "ms. The server may be slow or unreachable.";
             config := None; responseStatus := None;
             isTimeout := true; isNetworkError := false |}
  (* Handle network errors *)
  else if bool_decide (code error = Some "ENOTFOUND")
          || bool_decide (code error = Some "ECONNREFUSED")
          || bool_decide (code error = Some "ECONNRESET") then
    throw {| isAxiosError := false; code := code error;
             message :=
               "Network error connecting to " +:+ requestUrl +:+ ": "
               +:+ message error
               +:+ ". Please check your connection and server availability.";
             config := None; responseStatus := None;
             isTimeout := false; isNetworkError := true |}
  else
    match responseStatus error with
    | Some status =>
        if (status =? 401)
           && negb (url_includes "/users/login" (error_url error))
        then
          clearToken ;;
          match config error with
          | Some c =>
              if negb (truthy_opt_string (hdrXRetry c)) then
                let c := set_XRetry c in
                token <- getToken ;;
                let c := set_Authorization token c in
                request c
              else throw error
          | None => throw error
          end
        else throw error
    | None => throw error
    end.

(** [this.client.request(config)]: the chain of axios, the request
    interceptor, the dispatch, and the response interceptor, whose
    error handler also receives a rejection of the request interceptor.
    The handler calls [request] again; [fuel] bounds the depth of
    these calls. *)
Fixpoint request (fuel : nat) (c : RequestConfig) : M Response :=
  match fuel with
  | O => fun _ => None
  | S fuel =>
      catch (c <- requestInterceptor c ;; dispatchRequest c)
            (responseRejected (request fuel))
  end.

(** The error is not one that the response interceptor takes for a
    timeout or for a network error. *)
Definition plain (code : option string) (message : string) : Prop :=
  code <> Some "ECONNABORTED" /\
  JsString.includes message "timeout" = false /\
  code <> Some "ENOTFOUND" /\ code <> Some "ECONNREFUSED" /\
  code <> Some "ECONNRESET".

(** The adapter answers with a 401 response (axios gives the error the
    code [ERR_BAD_REQUEST] and the message
    [Request failed with status code 401]). *)
Definition unauthorized (out : AdapterOutcome) : Prop :=
  exists code message,
    out = Failed code message (Some 401) /\ plain code message.

(** The token is the normalized token of a login exchange numbered [p]
    or higher. *)
Definition obtained_from (w : World) (p : nat) (token : string) : Prop :=
  exists q tk,
    (p <= q)%nat /\ AuthManager.carried_token (loginNet w q) = Some tk /\
    token = AuthManager.bearer tk.

(** A rejection of the login request is an error of axios, or at least
    an error without a response. *)
Definition login_errors_plain (w : World) : Prop :=
  forall q e,
    loginNet w q = AuthManager.Rejected e ->
    isAxiosError e = true \/ responseStatus e = None.

(** A step of the client that leaves the network as it is and dispatches
    nothing. *)
Definition quiet (w w' : World) : Prop :=
  loginNet w' = loginNet w /\ apiNet w' = apiNet w /\
  exists tr, trace w' = trace w ++ tr /\ dispatches tr = [].

End WithConfig.
End EfecteApiClient.

(** ** [src/tools/auth.ts]: the tools [efecte_login], [efecte_logout] and
       [efecte_check_auth] *)

Module AuthTools.

(** [error instanceof Error ? error.message : 'Unknown error']; the thrown
    values of the embedding are [Error] objects. *)
Definition errorMessage (error : JsError) : string := message error.

(** The object that a tool returns; a property that the object does not
    have is [None]. *)
Record Reply : Type := mkReply {
  success : option bool;
  authenticated : option bool;
  message : string;
  tokenReceived : option bool
}.

(** [login], up to its [await]: it calls [authenticate()] itself, not
    [getToken()]. *)
Definition login_begin (s : AuthManager.State) : nat * AuthManager.State :=
  AuthManager.authenticate_start false s.

(** [login], from the point where the promise of [authenticate()] has
    settled. *)
Definition login_resume (settled : Result string) : Reply :=
  match settled with
  | Ok token =>
      {| success := Some true; authenticated := None;
         message := "Successfully authenticated with Efecte API";
         tokenReceived := Some (truthy_string token) |}
  | Throw error =>
      {| success := Some false; authenticated := None;
         message := "Authentication failed: " +:+ errorMessage error;
         tokenReceived := None |}
  end.

(** [logout] *)
Definition logout (s : AuthManager.State) : Reply * AuthManager.State :=
  let s := AuthManager.clearToken s in
  ({| success := Some true; authenticated := None;
      message := "Successfully logged out from Efecte API";
      tokenReceived := None |}, s).

(** [checkAuth] *)
Definition checkAuth (tget now : Z) (s : AuthManager.State)
  : Reply * AuthManager.State :=
  let '(isAuthenticated, s) := AuthManager.isAuthenticated tget now s in
  ({| success := None; authenticated := Some isAuthenticated;
      message := if isAuthenticated
                 then "Currently authenticated with Efecte API"
                 else "Not authenticated with Efecte API";
      tokenReceived := None |}, s).

End AuthTools.

(** ** Synchronous code that can throw *)

(** [Result] sequences like [try]-less JavaScript: the first [throw]
    ends the block. *)
#[global] Instance Result_bind : MBind Result :=
  fun A B k r =>
    match r with
    | Ok a => k a
    | Throw e => Throw e
    end.

(** A block that ended without a [throw]: each of its steps did. *)
Ltac bind_inv H :=
  repeat match type of H with
         | (match ?r with Ok _ => _ | Throw _ => _ end) = Ok _ =>
             let E := fresh "E" in
             destruct r eqn:E; [| discriminate H]
         end.

(** ** More of JavaScript strings *)

Module JsText.

(** The white space and line terminators among the code units below 256:
    TAB, LF, VT, FF, CR, SP and NBSP; these are what [trim()] removes, what
    [\s] matches and what [parseInt] skips. *)
Definition isWhiteSpace (c : ascii) : bool :=
  let n := nat_of_ascii c in
  ((9 <=? n) && (n <=? 13) || (n =? 32) || (n =? 160))%nat.

Fixpoint trimStart (s : string) : string :=
  match s with
  | EmptyString => EmptyString
  | String c s' => if isWhiteSpace c then trimStart s' else s
  end.

Fixpoint trimEnd (s : string) : string :=
  match s with
  | EmptyString => EmptyString
  | String c s' =>
      match trimEnd s' with
      | EmptyString => if isWhiteSpace c then EmptyString else String c EmptyString
      | t => String c t
      end
  end.

(** [s.trim()] *)
Definition trim (s : string) : string := trimEnd (trimStart s).

(** [s.split(sep)] for a separator of one character. *)
Fixpoint split (sep : ascii) (s : string) : list string :=
  match s with
  | EmptyString => [EmptyString]
  | String c s' =>
      if Ascii.eqb c sep then EmptyString :: split sep s'
      else
        match split sep s' with
        | piece :: pieces => String c piece :: pieces
        | [] => [String c EmptyString]
        end
  end.

(** [s.replace(/^\//, '')] *)
Definition stripLeadingSlash (s : string) : string :=
  match s with
  | String "/" s' => s'
  | _ => s
  end.

(** [s.replace(/\/$/, '')]: [$] matches at the end of the input only. *)
Fixpoint stripTrailingSlash (s : string) : string :=
  match s with
  | EmptyString => EmptyString
  | String c EmptyString => if Ascii.eqb c "/" then EmptyString else s
  | String c s' => String c (stripTrailingSlash s')
  end.

(** The value of a decimal digit. *)
Definition digitValue (c : ascii) : option Z :=
  let n := nat_of_ascii c in
  if ((48 <=? n) && (n <=? 57))%nat then Some (Z.of_nat (n - 48)) else None.

(** The number that the longest prefix of decimal digits denotes; [acc]
    is the value of the digits read so far, [None] before the first. *)
Fixpoint digits (s : string) (acc : option Z) : option Z :=
  match s with
  | EmptyString => acc
  | String c s' =>
      match digitValue c with
      | Some d => digits s' (Some (10 * default 0 acc + d))
      | None => acc
      end
  end.

(** [parseInt(s, 10)]; [None] is [NaN].  Leading white space is skipped,
    a sign is read, and the digits up to the first other character count.
    (The integer is kept exactly; JavaScript rounds it to a double, which
    is the same number below 2^53.) *)
Definition parseInt (s : string) : option Z :=
  match trimStart s with
  | String "-" rest => (fun n => - n) <$> digits rest None
  | String "+" rest => digits rest None
  | rest => digits rest None
  end.

End JsText.

(** ** [src/utils/validation.ts] *)

(** The numbers that the callers pass to these functions are results of
    [parseInt] other than [NaN] and lengths of buffers, so they are
    integers ([Z]), for which [Number.isInteger] holds. *)

Module Validation.
Import JsText.

(** [validateNonEmpty(value, fieldName)] *)
Definition validateNonEmpty (value fieldName : string) : Result unit :=
  if negb (truthy_string value) || (String.length (trim value) =? 0)%nat
  then Throw (newError (fieldName +:+ " cannot be empty"))
  else Ok tt.

(** The character class [[a-zA-Z0-9_-]]. *)
Definition isTemplateCodeChar (c : ascii) : bool :=
  let n := nat_of_ascii c in
  ((97 <=? n) && (n <=? 122) || (65 <=? n) && (n <=? 90)
   || (48 <=? n) && (n <=? 57) || (n =? 95) || (n =? 45))%nat.

(** [/^[a-zA-Z0-9_-]+$/.test(s)] *)
Definition matchesTemplateCode (s : string) : bool :=
  truthy_string s && forallb isTemplateCodeChar (list_ascii_of_string s).

(** [validateTemplateCode(templateCode)] *)
Definition validateTemplateCode (templateCode : string) : Result unit :=
  _ ← validateNonEmpty templateCode "Template code";
  if negb (matchesTemplateCode templateCode) then
    Throw (newError
      "Template code must contain only alphanumeric characters, underscores, or hyphens")
  else Ok tt.

(** [validateDataCardId(dataCardId)] *)
Definition validateDataCardId (dataCardId : string) : Result unit :=
  validateNonEmpty dataCardId "Data card ID".

(** [validateAttributeCode(attributeCode)] *)
Definition validateAttributeCode (attributeCode : string) : Result unit :=
  validateNonEmpty attributeCode "Attribute code".

(** [Math.round(a / b)] for integers [a] and [b > 0]: the nearest
    integer, a half going up. *)
Definition roundDiv (a b : Z) : Z := (2 * a + b) / (2 * b).

(** The default of [maxSizeBytes], 50MB. *)
Definition defaultMaxSizeBytes : Z := 50 * 1024 * 1024.

(** [validateFileSize(size, maxSizeBytes)] *)
Definition validateFileSize (size maxSizeBytes : Z) : Result unit :=
  if size <=? 0 then
    Throw (newError "File size must be greater than 0")
  else if size >? maxSizeBytes then
    let maxSizeMB := roundDiv maxSizeBytes (1024 * 1024) in
    Throw (newError ("File size exceeds maximum allowed size of "
                     +:+ pretty maxSizeMB +:+ "MB"))
  else Ok tt.

(** [validatePort(port, fieldName)] *)
Definition validatePort (port : Z) (fieldName : string) : Result unit :=
  if (port <? 1) || (port >? 65535) then
    Throw (newError (fieldName +:+ " must be an integer between 1 and 65535"))
  else Ok tt.

(** [validateTimeout(timeout, min, max, fieldName)] *)
Definition validateTimeout (timeout min max : Z) (fieldName : string)
  : Result unit :=
  if (timeout <? min) || (timeout >? max) then
    Throw (newError (fieldName +:+ " must be an integer between "
                     +:+ pretty min +:+ "ms and " +:+ pretty max +:+ "ms"))
  else Ok tt.

(** [validatePaginationLimit(limit, min, max)] *)
Definition validatePaginationLimit (limit min max : Z) : Result unit :=
  if (limit <? min) || (limit >? max) then
    Throw (newError ("Pagination limit must be an integer between "
                     +:+ pretty min +:+ " and " +:+ pretty max))
  else Ok tt.

Section WithURL.
(** Whether [new URL(url)] returns (rather than throws), by the URL
    parser of the platform. *)
Variable parsesAsURL : string -> bool.

(** [validateUrl(url, fieldName)] *)
Definition validateUrl (url fieldName : string) : Result unit :=
  _ ← validateNonEmpty url fieldName;
  if parsesAsURL url then Ok tt
  else Throw (newError (fieldName +:+ " must be a valid URL")).

End WithURL.
End Validation.

(** ** [src/utils/config.ts]: reading the configuration *)

Module ConfigLoader.
Import JsText Validation.

(** [process.env] *)
Abbreviation Env := (gmap string string).

(** The object that [buildConfig()] returns ([interface EfecteConfig]),
    nested properties by their last name. *)
Record EfecteConfig : Type := mkEfecteConfig {
  baseUrl : string;
  apiPath : string;
  username : string;
  password : string;
  timeout : Z;
  templatesTTL : Z;                     (* caching *)
  authTokenTTL : Z;
  defaultLimit : Z;                     (* pagination *)
  maxLimit : Z;
  transportDefault : string;            (* transport.default *)
  httpEnabled : bool;                   (* transport.http *)
  httpPort : Z;
  httpHost : string;
  allowedOrigins : option (list string);
  sessionTimeout : Z;
  loggingLevel : string;                (* logging *)
  enableStructured : bool;
  enablePerformanceMetrics : bool;
  enableAuditLogging : bool;            (* security *)
  maxRequestsPerMinute : Z;
  tokenRefreshThreshold : Z
}.

(** The options that the cache, the credential manager, the client and
    the session registry read. *)
Definition core (c : EfecteConfig) : Config.EfecteConfig :=
  {| Config.timeout := timeout c;
     Config.templatesTTL := templatesTTL c;
     Config.authTokenTTL := authTokenTTL c;
     Config.tokenRefreshThreshold := tokenRefreshThreshold c;
     Config.sessionTimeout := Some (sessionTimeout c) |}.

(** [getEnvVar(key, defaultValue?)] *)
Definition getEnvVar (env : Env) (key : string)
    (defaultValue : option string) : Result string :=
  let value := env !! key in
  if negb (truthy_opt_string value) && negb (truthy_opt_string defaultValue)
  then Throw (newError ("Missing required environment variable: " +:+ key))
  else Ok (if truthy_opt_string value then default EmptyString value
           else default EmptyString defaultValue).

(** [getEnvBool(key, defaultValue)] *)
Definition getEnvBool (env : Env) (key : string) (defaultValue : bool)
  : bool :=
  match env !! key with
  | Some value =>
      if negb (truthy_string value) then defaultValue
      else String.eqb (JsString.toLowerCase value) "true"
  | None => defaultValue
  end.

(** [getEnvNumber(key, defaultValue)] *)
Definition getEnvNumber (env : Env) (key : string) (defaultValue : Z)
  : Result Z :=
  match env !! key with
  | Some value =>
      if negb (truthy_string value) then Ok defaultValue
      else
        match parseInt value with
        | Some num => Ok num
        | None =>
            Throw (newError ("Invalid number for environment variable "
                             +:+ key +:+ ": " +:+ value))
        end
  | None => Ok defaultValue
  end.

(** A string between double quotes. *)
Definition quoted (s : string) : string :=
  let dquote := String (ascii_of_nat 34) EmptyString in
  dquote +:+ s +:+ dquote.

(** [const validLogLevels] *)
Definition validLogLevels : list string := ["debug"; "info"; "warn"; "error"].

Section WithURL.
Variable parsesAsURL : string -> bool.

(** [buildConfig()] *)
Definition buildConfig (env : Env) : Result EfecteConfig :=
  baseUrl ← getEnvVar env "EFECTE_BASE_URL" None;
  _ ← validateUrl parsesAsURL baseUrl "EFECTE_BASE_URL";
  timeout ← getEnvNumber env "EFECTE_TIMEOUT" 30000;
  _ ← validateTimeout timeout 1000 300000 "EFECTE_TIMEOUT";
  defaultLimit ← getEnvNumber env "EFECTE_PAGINATION_DEFAULT_LIMIT" 50;
  _ ← validatePaginationLimit defaultLimit 1 200;
  maxLimit ← getEnvNumber env "EFECTE_PAGINATION_MAX_LIMIT" 200;
  _ ← validatePaginationLimit maxLimit 1 200;
  _ ← (if defaultLimit >? maxLimit then
         Throw (newError
           "EFECTE_PAGINATION_DEFAULT_LIMIT cannot be greater than EFECTE_PAGINATION_MAX_LIMIT")
       else Ok tt);
  httpPort ← getEnvNumber env "EFECTE_TRANSPORT_HTTP_PORT" 3000;
  _ ← validatePort httpPort "EFECTE_TRANSPORT_HTTP_PORT";
  sessionTimeout ←
    getEnvNumber env "EFECTE_TRANSPORT_HTTP_SESSION_TIMEOUT" 1800000;
  _ ← (if sessionTimeout <? 60000 then
         Throw (newError
           "EFECTE_TRANSPORT_HTTP_SESSION_TIMEOUT must be at least 60000ms (1 minute)")
       else Ok tt);
  maxRequestsPerMinute ←
    getEnvNumber env "EFECTE_SECURITY_MAX_REQUESTS_PER_MINUTE" 60;
  _ ← (if (maxRequestsPerMinute <? 1) || (maxRequestsPerMinute >? 10000) then
         Throw (newError
           "EFECTE_SECURITY_MAX_REQUESTS_PER_MINUTE must be between 1 and 10000")
       else Ok tt);
  tokenRefreshThreshold ←
    getEnvNumber env "EFECTE_SECURITY_TOKEN_REFRESH_THRESHOLD" 300;
  _ ← (if (tokenRefreshThreshold <? 0) || (tokenRefreshThreshold >? 3600) then
         Throw (newError
           "EFECTE_SECURITY_TOKEN_REFRESH_THRESHOLD must be between 0 and 3600 seconds")
       else Ok tt);
  loggingLevel ← getEnvVar env "EFECTE_LOGGING_LEVEL" (Some "info");
  _ ← (if negb (bool_decide
                  (JsString.toLowerCase loggingLevel ∈ validLogLevels)) then
         Throw (newError ("EFECTE_LOGGING_LEVEL must be one of: "
                          +:+ String.concat ", " validLogLevels))
       else Ok tt);
  transportDefault ← getEnvVar env "EFECTE_TRANSPORT_DEFAULT" (Some "stdio");
  _ ← (if negb (String.eqb transportDefault "stdio")
          && negb (String.eqb transportDefault "http") then
         Throw (newError ("EFECTE_TRANSPORT_DEFAULT must be either "
                          +:+ quoted "stdio" +:+ " or " +:+ quoted "http"))
       else Ok tt);
  apiPath ← getEnvVar env "EFECTE_API_PATH" (Some "/rest-api/itsm/v1");
  username ← getEnvVar env "EFECTE_USERNAME" None;
  password ← getEnvVar env "EFECTE_PASSWORD" None;
  templatesTTL ← getEnvNumber env "EFECTE_CACHE_TEMPLATES_TTL" 300000;
  authTokenTTL ← getEnvNumber env "EFECTE_CACHE_AUTH_TOKEN_TTL" 3300000;
  let httpEnabled := getEnvBool env "EFECTE_TRANSPORT_HTTP_ENABLED" false in
  httpHost ← getEnvVar env "EFECTE_TRANSPORT_HTTP_HOST" (Some "0.0.0.0");
  let allowedOrigins :=
    match env !! "EFECTE_TRANSPORT_HTTP_ALLOWED_ORIGINS" with
    | Some value =>
        if truthy_string value then Some (trim <$> split "," value) else None
    | None => None
    end in
  Ok {| baseUrl := baseUrl; apiPath := apiPath; username := username;
        password := password; timeout := timeout;
        templatesTTL := templatesTTL; authTokenTTL := authTokenTTL;
        defaultLimit := defaultLimit; maxLimit := maxLimit;
        transportDefault := transportDefault;
        httpEnabled := httpEnabled; httpPort := httpPort;
        httpHost := httpHost; allowedOrigins := allowedOrigins;
        sessionTimeout := sessionTimeout;
        loggingLevel := loggingLevel;
        enableStructured :=
          getEnvBool env "EFECTE_LOGGING_ENABLE_STRUCTURED" false;
        enablePerformanceMetrics :=
          getEnvBool env "EFECTE_LOGGING_ENABLE_PERFORMANCE_METRICS" false;
        enableAuditLogging :=
          getEnvBool env "EFECTE_SECURITY_ENABLE_AUDIT_LOGGING" false;
        maxRequestsPerMinute := maxRequestsPerMinute;
        tokenRefreshThreshold := tokenRefreshThreshold |}.

End WithURL.

(** [getApiUrl(path)] for the configuration [efecteConfig]. *)
Definition getApiUrl (efecteConfig : EfecteConfig) (path : string) : string :=
  let baseUrl := stripTrailingSlash (baseUrl efecteConfig) in
  let apiPath :=
    stripTrailingSlash (stripLeadingSlash (apiPath efecteConfig)) in
  let cleanPath := stripLeadingSlash path in
  if truthy_string cleanPath
  then baseUrl +:+ "/" +:+ apiPath +:+ "/" +:+ cleanPath
  else baseUrl +:+ "/" +:+ apiPath.

End ConfigLoader.

(** ** [src/server-http.ts]: shutting the server down *)

Module EfecteHttpServerStop.
Import EfecteHttpServer.

(** [stop()], up to its [await] of [Promise.allSettled(closePromises)]:
    the loop over [this.transports] calls [server.close()] for every
    session. *)
Definition stop_begin (st : State) : State :=
  foldl (fun st '(sessionId, transportInfo) =>
           emit (ServerClose (server transportInfo)) st)
        st (map_to_list (transports st)).

(** [stop()] from the point where all the closes have settled (a
    rejection is caught and logged): [this.transports.clear()]. *)
Definition stop_resume (st : State) : State :=
  {| transports := ∅; log := log st |}.

End EfecteHttpServerStop.

(** ** [src/utils/reference-attributes.ts]: the attribute of a filter *)

Module ReferenceFilter.
Import JsText.

(** The longest prefix of characters that satisfy [p], and the rest: what
    a greedy [[...]*] matches at the start of [s]. *)
Fixpoint span (p : ascii -> bool) (s : string) : string * string :=
  match s with
  | EmptyString => (EmptyString, EmptyString)
  | String c s' =>
      if p c then let '(taken, rest) := span p s' in (String c taken, rest)
      else (EmptyString, s)
  end.

Definition isDollar (c : ascii) : bool := Ascii.eqb c "$".

(** The class of the two quote characters, single and double. *)
Definition isQuote (c : ascii) : bool :=
  Ascii.eqb c "'" || Ascii.eqb c (ascii_of_nat 34).

(** The regular expression [\$([^$]+)\$\s*=\s*Q([^Q]+)Q], where [Q] is
    the class of the two quote characters, at the start of [s]: the two
    groups of the match, if there is one.  Each greedy repetition is
    followed by a character outside its class, so the longest repetition
    is the only one that can lead to a match. *)
Definition matchAt (s : string) : option (string * string) :=
  match s with
  | String c s1 =>
      if isDollar c then
        let '(attribute, s2) := span (fun c => negb (isDollar c)) s1 in
        match attribute, s2 with
        | String _ _, String _ s3 =>       (* [^$]+ and the second [\$] *)
            match trimStart s3 with        (* \s* *)
            | String e s5 =>
                if Ascii.eqb e "=" then
                  match trimStart s5 with  (* \s* *)
                  | String q s7 =>
                      if isQuote q then
                        let '(value, s8) :=
                          span (fun c => negb (isQuote c)) s7 in
                        match value, s8 with
                        | String _ _, String _ _ => Some (attribute, value)
                        | _, _ => None
                        end
                      else None
                  | EmptyString => None
                  end
                else None
            | EmptyString => None
            end
        | _, _ => None
        end
      else None
  | EmptyString => None
  end.

(** [extractReferenceAttributeFromFilter(filter)]: [filter.match] finds
    the leftmost match. *)
Fixpoint extractReferenceAttributeFromFilter (filter : string)
  : option (string * string) :=
  match matchAt filter with
  | Some groups => Some groups
  | None =>
      match filter with
      | EmptyString => None
      | String _ rest => extractReferenceAttributeFromFilter rest
      end
  end.

End ReferenceFilter.

(** ** [src/tools/template.ts] and [src/resources/templates.ts]: reading
       templates through a cache *)

(** What a function that awaits [apiClient.get(path)] does when it is
    called: it ends at once, or it requests [path] and goes on when the
    request has settled. *)
Inductive Step (A : Type) : Type :=
| Return (r : Result A)
| Fetch (path : string).
Arguments Return {A} r.
Arguments Fetch {A} path.

Module TemplateTools.
Import Validation.

Section WithConfig.
Variable efecteConfig : Config.EfecteConfig.
(** The body of a response of the API; the tools pass it on as it is. *)
Context {T : Type}.
(** [if (body)]: [null], [undefined], the empty string, [0], [NaN] and
    [false] are falsy, every other body is truthy. *)
Variable truthy : T -> bool.

(** [getTemplate(args)], up to its [await]; [now] is the reading of
    [Date.now()] in [templateCache.get]. *)
Definition getTemplate_begin (now : Z) (templateCode : string)
    (templateCache : Cache.t T) : Step T * Cache.t T :=
  match validateTemplateCode templateCode with
  | Throw error =>
      (Return (Throw (newError ("Failed to get template: "
                                +:+ message error))), templateCache)
  | Ok _ =>
      let '(cached, templateCache) :=
        Cache.get now templateCode templateCache in
      match cached with
      | Some cached =>
          if truthy cached                        (* if (cached) *)
          then (Return (Ok cached), templateCache)
          else (Fetch ("dc/" +:+ templateCode), templateCache)
      | None => (Fetch ("dc/" +:+ templateCode), templateCache)
      end
  end.

(** [getTemplate(args)], from the point where the request has settled;
    [now] is the reading of [Date.now()] in [templateCache.set]. *)
Definition getTemplate_resume (now : Z) (templateCode : string)
    (settled : Result T) (templateCache : Cache.t T)
  : Result T * Cache.t T :=
  match settled with
  | Ok result =>
      (Ok result,
       Cache.set now templateCode result (Config.templatesTTL efecteConfig)
         templateCache)
  | Throw error =>
      (Throw (newError ("Failed to get template: " +:+ message error)),
       templateCache)
  end.

(** [listTemplates(args)], likewise; the list is cached under ['all']. *)
Definition listTemplates_begin (now : Z) (templateListCache : Cache.t T)
  : Step T * Cache.t T :=
  let '(cached, templateListCache) :=
    Cache.get now "all" templateListCache in
  match cached with
  | Some cached =>
      if truthy cached                            (* if (cached) *)
      then (Return (Ok cached), templateListCache)
      else (Fetch "dc", templateListCache)
  | None => (Fetch "dc", templateListCache)
  end.

Definition listTemplates_resume (now : Z) (settled : Result T)
    (templateListCache : Cache.t T) : Result T * Cache.t T :=
  match settled with
  | Ok result =>
      (Ok result,
       Cache.set now "all" result (Config.templatesTTL efecteConfig)
         templateListCache)
  | Throw error =>
      (Throw (newError ("Failed to list templates: " +:+ message error)),
       templateListCache)
  end.

End WithConfig.
End TemplateTools.

Module TemplateResources.

(** [interface RESTTemplateInfoElement] *)
Record RESTTemplateInfoElement : Type := mkTemplateInfoElement {
  name : string;
  templateCode : string;
  url : string
}.

(** A resource as [registerTemplateResources()] lists it. *)
Record Resource : Type := mkResource {
  uri : string;
  resourceName : string;         (* name *)
  description : string;
  mimeType : string
}.

(** The function that [registerTemplateResources()] maps over the
    templates. *)
Definition toResource (template : RESTTemplateInfoElement) : Resource :=
  {| uri := "efecte://templates/" +:+ templateCode template;
     resourceName := name template;
     description :=
       "Template: " +:+ name template +:+ " (" +:+ templateCode template
       +:+ ")";
     mimeType := "application/json" |}.

(** [s.replace(pattern, '')] for a string [pattern]: the first occurrence
    of [pattern] is removed. *)
Fixpoint removeFirst (pattern s : string) : string :=
  if String.prefix pattern s
  then String.substring (String.length pattern)
         (String.length s - String.length pattern) s
  else
    match s with
    | EmptyString => EmptyString
    | String c s' => String c (removeFirst pattern s')
    end.

Section WithConfig.
Variable efecteConfig : Config.EfecteConfig.
Context {T : Type}.
(** [if (!template)] tests the body for being falsy. *)
Variable truthy : T -> bool.

(** [readResource(uri)], up to its [await] or, when the cache serves the
    template, up to its [return]: the value of [template], from which the
    returned object is built. *)
Definition readResource_begin (now : Z) (uri : string)
    (templateCache : Cache.t T) : Step T * Cache.t T :=
  if negb (String.prefix "efecte://templates/" uri) then
    (Return (Throw (newError ("Invalid resource URI: " +:+ uri))),
     templateCache)
  else
    let templateCode := removeFirst "efecte://templates/" uri in
    let '(template, templateCache) :=
      Cache.get now templateCode templateCache in
    match template with
    | Some template =>
        if negb (truthy template)                 (* if (!template) *)
        then (Fetch ("dc/" +:+ templateCode), templateCache)
        else (Return (Ok template), templateCache)
    | None => (Fetch ("dc/" +:+ templateCode), templateCache)
    end.

(** [readResource(uri)], from the point where the request has settled,
    up to its [return]: the value of [template], from which the returned
    object is built, and the cache. *)
Definition readResource_resume (now : Z) (uri : string)
    (settled : Result T) (templateCache : Cache.t T)
  : Result T * Cache.t T :=
  let templateCode := removeFirst "efecte://templates/" uri in
  match settled with
  | Ok template =>
      (Ok template,
       Cache.set now templateCode template
         (Config.templatesTTL efecteConfig) templateCache)
  | Throw error => (Throw error, templateCache)
  end.

End WithConfig.
End TemplateResources.

(** ** [src/utils/search.ts]: text search in data cards *)

Module Search.
Import JsString JsText.

(** A value of type [any] in a response of the API, as far as it is a
    JSON scalar; [null] and a missing property are [None] where such a
    value is optional. *)
Inductive JsValue : Type :=
| JsonString (s : string)
| JsonNumber (n : Z)
| JsonBoolean (b : bool).

(** [String(v)] *)
Definition toText (v : JsValue) : string :=
  match v with
  | JsonString s => s
  | JsonNumber n => pretty n
  | JsonBoolean b => if b then "true" else "false"
  end.

(** [interface RESTValueElement], the two properties that are read. *)
Record RESTValueElement : Type := mkValueElement {
  value : option JsValue;
  name : option string
}.

(** [interface RESTDataCardElement] *)
Record RESTDataCardElement : Type := mkElement {
  values : option (list RESTValueElement)
}.

(** A data card: [data] is present when the cards were requested in
    full. *)
Record RESTDataCard : Type := mkDataCard {
  data : option (gmap string RESTDataCardElement);
  cardName : option string;        (* name *)
  dataCardId : option string
}.

(** [interface RESTPaginatedDataCardsInfo]; [rest] stands for the other
    properties of [meta], which the spread copies. *)
Record RESTPaginatedDataCardsInfo (M : Type) : Type := mkPage {
  count : nat;                     (* meta.count *)
  rest : M;
  cards : list RESTDataCard        (* data *)
}.
Arguments mkPage {M} count rest cards.
Arguments count {M} _.
Arguments rest {M} _.
Arguments cards {M} _.

(** [getCommonTextFields()] *)
Definition getCommonTextFields : list string :=
  ["title"; "subject"; "name"; "description"; "primary_id"; "summary";
   "details"; "notes"; "comment"; "text"].

(** [extractTextValue(element)] *)
Definition extractTextValue (element : RESTDataCardElement) : string :=
  match values element with
  | None | Some [] => EmptyString
  | Some (firstValue :: _) =>
      match value firstValue with
      | Some v => toText v
      | None =>
          match name firstValue with
          | Some n => n
          | None => EmptyString
          end
      end
  end.

(** The line terminators among the code units below 256, which [.] does
    not match. *)
Definition isLineTerminator (c : ascii) : bool :=
  let n := nat_of_ascii c in ((n =? 10) || (n =? 13))%nat.

(** A string without its last character, and that character. *)
Fixpoint unsnoc (s : string) : option (string * ascii) :=
  match s with
  | EmptyString => None
  | String c s' =>
      match unsnoc s' with
      | None => Some (EmptyString, c)
      | Some (init, last) => Some (String c init, last)
      end
  end.

(** The group of the regular expression [^Q(.+)Q$] on [s], where [Q] is
    the class of the two quote characters: [s] begins and ends with a
    quote and has a middle part without line terminators. *)
Definition quotedMatch (s : string) : option string :=
  match s with
  | String q s' =>
      match unsnoc s' with
      | Some (middle, q') =>
          if ReferenceFilter.isQuote q && ReferenceFilter.isQuote q'
             && truthy_string middle
             && forallb (fun c => negb (isLineTerminator c))
                        (list_ascii_of_string middle)
          then Some middle else None
      | None => None
      end
  | EmptyString => None
  end.

(** [s.split(/\s+/)]; [inRun] says that the character before was white
    space. *)
Fixpoint splitWhiteSpace (inRun : bool) (s : string) : list string :=
  match s with
  | EmptyString => [EmptyString]
  | String c s' =>
      if isWhiteSpace c then
        if inRun then splitWhiteSpace true s'
        else EmptyString :: splitWhiteSpace true s'
      else
        match splitWhiteSpace false s' with
        | piece :: pieces => String c piece :: pieces
        | [] => [String c EmptyString]
        end
  end.

(** [const words] of [searchInDataCard]. *)
Definition queryWords (trimmedQuery : string) : list string :=
  List.filter (fun w => (0 <? String.length w)%nat)
    (splitWhiteSpace false (toLowerCase trimmedQuery)).

(** The texts that the search collects from a data card. *)
Definition searchableTexts (dataCard : RESTDataCard)
    (searchFields : list string) : list string :=
  (match data dataCard with
   | Some d =>
       flat_map
         (fun field =>
            match d !! field with
            | Some fieldData =>
                let textValue := extractTextValue fieldData in
                if truthy_string textValue then [toLowerCase textValue]
                else []
            | None => []
            end)
         searchFields
   | None => []
   end)
  ++ (if truthy_opt_string (cardName dataCard)
      then [toLowerCase (default EmptyString (cardName dataCard))] else [])
  ++ (if truthy_opt_string (dataCardId dataCard)
      then [toLowerCase (default EmptyString (dataCardId dataCard))]
      else []).

(** [searchInDataCard(dataCard, query, searchFields)] *)
Definition searchInDataCard (dataCard : RESTDataCard) (query : string)
    (searchFields : list string) : bool :=
  if negb (truthy_string query) || (String.length (trim query) =? 0)%nat
  then true   (* Empty query matches all *)
  else
    let trimmedQuery := trim query in
    let '(searchTerms, isExactPhrase) :=
      match quotedMatch trimmedQuery with
      | Some phrase => ([toLowerCase phrase], true)
      | None =>
          let words := queryWords trimmedQuery in
          if (length words =? 1)%nat then (words, true) else (words, false)
      end in
    let combinedText := String.concat " " (searchableTexts dataCard searchFields) in
    if isExactPhrase : bool then
      includes combinedText (List.nth 0 searchTerms EmptyString)
    else
      forallb (fun term => includes combinedText term) searchTerms.

(** [filterDataCardsByText(dataCards, query, searchFields)] *)
Definition filterDataCardsByText {M : Type}
    (dataCards : RESTPaginatedDataCardsInfo M) (query : string)
    (searchFields : list string) : RESTPaginatedDataCardsInfo M :=
  if negb (truthy_string query) || (String.length (trim query) =? 0)%nat
  then dataCards   (* Empty query returns all *)
  else
    let filtered :=
      List.filter (fun dataCard => searchInDataCard dataCard query searchFields)
        (cards dataCards) in
    {| count := length filtered; rest := rest dataCards; cards := filtered |}.

End Search.

(** ** [http-proxy.js]: the bridge from standard input to HTTP *)

Module HttpProxy.
Import JsText.

(** The line feed, and the string that holds it. *)
Definition newline : ascii := ascii_of_nat 10.

(** The state of the module: [sessionId], [sessionLastActivity] and
    [buffer]. *)
Record State : Type := mkState {
  sessionId : option string;
  sessionLastActivity : Z;
  buffer : string
}.

(** [forwardToHttp(message)]: the header [Mcp-Session-Id] of the request
    that it posts. *)
Definition requestSessionHeader (st : State) : option string :=
  if truthy_opt_string (sessionId st) then sessionId st else None.

(** [forwardToHttp(message)], from the point where the response has
    arrived: [responseSessionId] is what the response carries in its
    header, [now1] and [now2] are the two readings of [Date.now()]. *)
Definition forwardToHttp_resume (responseSessionId : option string)
    (now1 now2 : Z) (st : State) : State :=
  let st :=
    if truthy_opt_string responseSessionId
       && negb (truthy_opt_string (sessionId st))
    then {| sessionId := responseSessionId; sessionLastActivity := now1;
            buffer := buffer st |}
    else st in
  (* Update last activity *)
  if truthy_opt_string (sessionId st)
  then {| sessionId := sessionId st; sessionLastActivity := now2;
          buffer := buffer st |}
  else st.

(** [checkSessionTimeout()]; [SESSION_TIMEOUT] is the result of
    [parseInt], [None] for [NaN], with which every comparison is false. *)
Definition checkSessionTimeout (SESSION_TIMEOUT : option Z) (now : Z)
    (st : State) : State :=
  if truthy_opt_string (sessionId st)
     && match SESSION_TIMEOUT with
        | Some timeout => now - sessionLastActivity st >? timeout
        | None => false
        end
  then {| sessionId := None;
          sessionLastActivity := sessionLastActivity st;
          buffer := buffer st |}
  else st.

(** [const SESSION_TIMEOUT], from the variable [MCP_SESSION_TIMEOUT] of
    the environment. *)
Definition SESSION_TIMEOUT (env : option string) : option Z :=
  parseInt (if truthy_opt_string env then default EmptyString env
            else "1800000").

Section WithParser.
(** A message, and [JSON.parse], which throws ([None]) on a text that
    is not JSON. *)
Context {Message : Type}.
Variable parse : string -> option Message.

(** The body of the loop of [processInput] for one line: the messages
    handed to [handleMessage] so far, and the buffer. *)
Definition processLine (acc : list Message * string) (line : string)
  : list Message * string :=
  let '(handled, buffer) := acc in
  let trimmed := trim line in
  if negb (truthy_string trimmed) then (handled, buffer)
  else
    match parse trimmed with
    | Some message => (handled ++ [message], buffer)
    | None =>
        (* Not valid JSON, might be partial message - put back in buffer *)
        (handled, trimmed +:+ String newline buffer)
    end.

(** [processInput(data)]: the messages that it hands to [handleMessage],
    in their order, and the buffer that it leaves. *)
Definition processInput (data : string) (buffer : string)
  : list Message * string :=
  let buffer := buffer +:+ data in
  let lines := split newline buffer in
  (* Keep incomplete line in buffer *)
  let buffer := List.last lines EmptyString in
  let lines := List.removelast lines in
  foldl processLine ([], buffer) lines.

(** The chunks of the input arrive one after the other. *)
Definition processInputs (chunks : list string) (buffer : string)
  : list Message * string :=
  foldl (fun '(handled, buffer) data =>
           let '(more, buffer) := processInput data buffer in
           (handled ++ more, buffer))
        ([], buffer) chunks.

(** The messages on the complete lines of a text. *)
Definition messagesOn (lines : list string) : list Message :=
  flat_map (fun line =>
              if truthy_string (trim line)
              then match parse (trim line) with
                   | Some message => [message]
                   | None => []
                   end
              else [])
           lines.

End WithParser.
End HttpProxy.

(** ** [src/utils/cache.ts]: the registry of caches and the scheduled
       clean-up *)

Module CacheCleanup.
Section WithValue.
Context {T : Type}.

(** The state of the module and the part of the run-time that it uses:
    the [Cache] objects that exist, by their identity, each with its
    private map; the registry (a [Set] iterates in the order of insertion);
    the handle of the interval; and the intervals that are active in the
    run-time, with their periods. *)
Record State : Type := mkState {
  caches : gmap nat (Cache.t T);
  cacheRegistry : list nat;          (* const cacheRegistry: Set<Cache<any>> *)
  cleanupInterval : option nat;      (* let cleanupInterval *)
  timers : gmap nat Z;
  nextId : nat
}.

Definition init : State :=
  {| caches := ∅; cacheRegistry := []; cleanupInterval := None;
     timers := ∅; nextId := 0 |}.

(** [new Cache(name)]: the new object and the state. *)
Definition newCache (st : State) : nat * State :=
  let this := nextId st in
  (this,
   {| caches := <[this := Cache.empty]> (caches st);
      cacheRegistry :=
        if bool_decide (this ∈ cacheRegistry st) then cacheRegistry st
        else cacheRegistry st ++ [this];        (* cacheRegistry.add(this) *)
      cleanupInterval := cleanupInterval st;
      timers := timers st;
      nextId := S this |}).

(** [destroy()] of the cache [this]. *)
Definition destroy (this : nat) (st : State) : State :=
  {| caches := alter Cache.clear this (caches st);
     cacheRegistry :=
       List.filter (fun cache => negb (cache =? this)%nat) (cacheRegistry st);
     cleanupInterval := cleanupInterval st;
     timers := timers st;
     nextId := nextId st |}.

(** [startCacheCleanup(intervalMs)] *)
Definition startCacheCleanup (intervalMs : Z) (st : State) : State :=
  match cleanupInterval st with
  | Some _ => st                      (* Cache cleanup already started *)
  | None =>
      let handle := nextId st in      (* setInterval(..., intervalMs) *)
      {| caches := caches st; cacheRegistry := cacheRegistry st;
         cleanupInterval := Some handle;
         timers := <[handle := intervalMs]> (timers st);
         nextId := S handle |}
  end.

(** [stopCacheCleanup()] *)
Definition stopCacheCleanup (st : State) : State :=
  match cleanupInterval st with
  | Some handle =>
      {| caches := caches st; cacheRegistry := cacheRegistry st;
         cleanupInterval := None;
         timers := delete handle (timers st);   (* clearInterval *)
         nextId := nextId st |}
  | None => st
  end.

(** The loop of the callback of the interval over the registry; the
    [i]-th call of [cleanExpired()] reads [Date.now()] as [clock i]. *)
Fixpoint sweep (clock : nat -> Z) (i : nat) (registry : list nat)
    (totalCleaned : Z) (caches : gmap nat (Cache.t T))
  : Z * gmap nat (Cache.t T) :=
  match registry with
  | [] => (totalCleaned, caches)
  | cache :: registry =>
      match caches !! cache with
      | Some c =>
          let beforeSize := Cache.size c in
          let c := Cache.cleanExpired (clock i) c in
          let afterSize := Cache.size c in
          sweep clock (S i) registry
            (totalCleaned + (Z.of_nat beforeSize - Z.of_nat afterSize))
            (<[cache := c]> caches)
      | None => sweep clock i registry totalCleaned caches
      end
  end.

(** The callback of the interval: [totalCleaned] and the state. *)
Definition cleanupTick (clock : nat -> Z) (st : State) : Z * State :=
  let '(totalCleaned, caches) :=
    sweep clock 0 (cacheRegistry st) 0 (caches st) in
  (totalCleaned,
   {| caches := caches; cacheRegistry := cacheRegistry st;
      cleanupInterval := cleanupInterval st; timers := timers st;
      nextId := nextId st |}).

(** What can happen to the module. *)
Inductive Event : Type :=
| NewCache
| Destroy (this : nat)
| Update (this : nat) (c : Cache.t T)     (* a method of a cache ran *)
| StartCacheCleanup (intervalMs : Z)
| StopCacheCleanup
| Tick (clock : nat -> Z).

Definition step (st : State) (ev : Event) : State :=
  match ev with
  | NewCache => snd (newCache st)
  | Destroy this => destroy this st
  | Update this c =>
      {| caches := alter (fun _ => c) this (caches st);
         cacheRegistry := cacheRegistry st;
         cleanupInterval := cleanupInterval st; timers := timers st;
         nextId := nextId st |}
  | StartCacheCleanup intervalMs => startCacheCleanup intervalMs st
  | StopCacheCleanup => stopCacheCleanup st
  | Tick clock => snd (cleanupTick clock st)
  end.

(** The number of entries of a cache that have expired at [now]. *)
Definition expiredIn (now : Z) (c : Cache.t T) : nat :=
  Cache.size c - Cache.size (Cache.cleanExpired now c).

(** What holds of the state of the module at all times: the interval
    of the clean-up is the only one, the registry holds no cache twice, and
    the registered caches exist. *)
Definition scheduler_invariant (st : State) : Prop :=
  match cleanupInterval st with
  | Some handle => exists period, timers st = {[handle := period]}
  | None => timers st = ∅
  end /\
  NoDup (cacheRegistry st) /\
  (forall cache, cache ∈ cacheRegistry st ->
     (cache < nextId st)%nat /\ is_Some (caches st !! cache)).

End WithValue.
Arguments State : clear implicits.
Arguments Event : clear implicits.
End CacheCleanup.

(** ** [src/server-http.ts]: the check of the origin *)

Module OriginValidation.

(** What the code reads of a [URL] object. *)
Record URL : Type := mkURL { origin : string; hostname : string }.

(** What the middleware does with a request: it calls [next()], or it
    answers 403 with a message. *)
Inductive Verdict : Type :=
| Next
| Forbidden (message : string).

Section WithURL.
(** [new URL(s)], and [None] when it throws. *)
Variable parseURL : string -> option URL.

(** The callback of [allowedOrigins.some]. *)
Definition isAllowed (originUrl : URL) (allowed : string) : bool :=
  match parseURL allowed with
  | Some allowedUrl => String.eqb (origin originUrl) (origin allowedUrl)
  | None =>
      (* If allowed origin is not a full URL, check if it matches the
         hostname *)
      String.eqb (hostname originUrl) allowed
      || String.eqb (origin originUrl) allowed
  end.

(** The origin validation middleware, for the headers [Origin] and
    [Referer] of the request. *)
Definition validateOrigin (allowedOrigins : option (list string))
    (headerOrigin headerReferer : option string) : Verdict :=
  let origin :=
    if truthy_opt_string headerOrigin then headerOrigin else headerReferer in
  match allowedOrigins with
  | Some allowedOrigins =>
      if (0 <? length allowedOrigins)%nat && truthy_opt_string origin then
        match parseURL (default EmptyString origin) with
        | Some originUrl =>
            if existsb (isAllowed originUrl) allowedOrigins then Next
            else Forbidden "Origin not allowed"
        | None => Forbidden "Invalid origin format"
        end
      else Next
  | None => Next
  end.

End WithURL.
End OriginValidation.

(* ===================================================================== *)
(** * Part II: properties                                                 *)
(* ===================================================================== *)

(** ** The TTL cache *)

Section CacheFacts.
Context {T : Type}.
Implicit Types (c : Cache.t T) (k : string) (v : T) (now ttl : Z).

Lemma get_after_set_hit c k v ttl t0 now :
  now <= t0 + ttl ->
  Cache.get now k (Cache.set t0 k v ttl c) = (Some v, Cache.set t0 k v ttl c).
Proof.
  intros Hle. unfold Cache.get, Cache.set.
  rewrite lookup_insert_eq. simpl.
  destruct (Z.gtb_spec now (t0 + ttl)); [lia | reflexivity].
Qed.

Lemma get_after_set_miss c k v ttl t0 now :
  t0 + ttl < now ->
  Cache.get now k (Cache.set t0 k v ttl c) = (None, base.delete k c).
Proof.
  intros Hlt. unfold Cache.get, Cache.set.
  rewrite lookup_insert_eq. simpl.
  destruct (Z.gtb_spec now (t0 + ttl)); [| lia].
  by rewrite delete_insert_eq.
Qed.

(** A read that misses leaves no entry under the key; a read that hits
    leaves the cache as it was. *)
Lemma get_miss_absent c k now :
  fst (Cache.get now k c) = None -> snd (Cache.get now k c) !! k = None.
Proof.
  unfold Cache.get. destruct (c !! k) as [e|] eqn:E; simpl.
  - destruct (now >? Cache.expiresAt e); simpl; [| discriminate].
    intros _. apply lookup_delete_eq.
  - done.
Qed.

Lemma get_hit_inv c k now v :
  fst (Cache.get now k c) = Some v ->
  exists e, c !! k = Some e /\ Cache.value e = v /\ now <= Cache.expiresAt e
            /\ snd (Cache.get now k c) = c.
Proof.
  unfold Cache.get. destruct (c !! k) as [e|] eqn:E; simpl; [| discriminate].
  destruct (Z.gtb_spec now (Cache.expiresAt e)); simpl; [discriminate |].
  intros [= <-]. exists e. split; [done |]. split; [done |]. split; [lia | done].
Qed.

Lemma get_snd_cases c k now :
  snd (Cache.get now k c) = c \/
  (snd (Cache.get now k c) = base.delete k c /\ fst (Cache.get now k c) = None).
Proof.
  unfold Cache.get. destruct (c !! k) as [e|]; [| by left].
  destruct (now >? Cache.expiresAt e); [by right | by left].
Qed.

Lemma get_absent c k now : c !! k = None -> Cache.get now k c = (None, c).
Proof. unfold Cache.get. by intros ->. Qed.

(** [cleanExpired] keeps exactly the entries with [now <= expiresAt]. *)
Lemma sweep_fold_other now k (l : list (string * Cache.CacheEntry T))
    (acc : gmap string (Cache.CacheEntry T)) :
  k ∉ l.*1 ->
  foldr (fun '(key, entry) acc =>
           if now >? Cache.expiresAt entry then base.delete key acc else acc)
        acc l !! k = acc !! k.
Proof.
  induction l as [| [k' e'] l IH]; simpl; [done |].
  intros Hnin. apply not_elem_of_cons in Hnin as [Hne Hnin].
  destruct (now >? Cache.expiresAt e'); [rewrite lookup_delete_ne by done |];
    by apply IH.
Qed.

Lemma sweep_fold_member now k e (l : list (string * Cache.CacheEntry T))
    (acc : gmap string (Cache.CacheEntry T)) :
  NoDup l.*1 -> (k, e) ∈ l ->
  foldr (fun '(key, entry) acc =>
           if now >? Cache.expiresAt entry then base.delete key acc else acc)
        acc l !! k
  = if now >? Cache.expiresAt e then None else acc !! k.
Proof.
  induction l as [| [k' e'] l IH]; simpl; intros Hnd Hin.
  - by apply elem_of_nil in Hin.
  - apply NoDup_cons in Hnd as [Hfresh Hnd].
    apply elem_of_cons in Hin as [[= <- <-] | Hin].
    + destruct (now >? Cache.expiresAt e); [apply lookup_delete_eq |].
      by apply sweep_fold_other.
    + assert (k' <> k).
      { intros ->. apply Hfresh. apply list_elem_of_fmap. by exists (k, e). }
      destruct (now >? Cache.expiresAt e');
        [rewrite lookup_delete_ne by done |]; by apply IH.
Qed.

Lemma cleanExpired_lookup c now k :
  Cache.cleanExpired now c !! k =
    match c !! k with
    | Some e => if now >? Cache.expiresAt e then None else Some e
    | None => None
    end.
Proof.
  unfold Cache.cleanExpired. destruct (c !! k) as [e|] eqn:E.
  - rewrite (sweep_fold_member now k e).
    + by rewrite E.
    + apply NoDup_fst_map_to_list.
    + by apply elem_of_map_to_list.
  - rewrite sweep_fold_other; [done |].
    intros Hin. apply list_elem_of_fmap in Hin as [[k' e] [Hk Hin]].
    apply elem_of_map_to_list in Hin. simpl in Hk. subst k'. congruence.
Qed.

(** C1 (as amended).  After [set(k, v, ttl)] at time [t0], which stores
    [expiresAt = t0 + ttl], a [get(k)] at any time [now <= expiresAt]
    returns [v], and a [get(k)] at any time [now > expiresAt] returns a miss
    and removes the entry; no [delete] is involved. *)
Theorem cache_get_after_set c k v ttl t0 now :
  let c1 := Cache.set t0 k v ttl c in
  (forall e, c1 !! k = Some e -> Cache.expiresAt e = t0 + ttl) /\
  (now <= t0 + ttl -> fst (Cache.get now k c1) = Some v) /\
  (now > t0 + ttl ->
     fst (Cache.get now k c1) = None /\ snd (Cache.get now k c1) !! k = None).
Proof.
  intros c1. subst c1. split; [| split].
  - intros e. unfold Cache.set. rewrite lookup_insert_eq. by intros [= <-].
  - intros H. by rewrite get_after_set_hit.
  - intros H. rewrite get_after_set_miss by lia. simpl.
    split; [done | apply lookup_delete_eq].
Qed.

(** C10.  An entry under [k] whose [expiresAt] has passed and that is still
    in the map: [delete(k)] returns [true], [size()] counts it, and
    [get(k)] at that instant misses. *)
Theorem cache_expired_entry_still_counted c k e now :
  c !! k = Some e ->
  now > Cache.expiresAt e ->
  fst (Cache.delete k c) = true /\
  Cache.size c = S (Cache.size (snd (Cache.delete k c))) /\
  fst (Cache.get now k c) = None.
Proof.
  intros Hk Hexp. split; [| split].
  - unfold Cache.delete. simpl. apply bool_decide_eq_true_2. by exists e.
  - unfold Cache.delete, Cache.size. simpl.
    rewrite <- (insert_delete_id c k e) at 1 by done.
    rewrite map_size_insert_None; [done | apply lookup_delete_eq].
  - unfold Cache.get. rewrite Hk.
    destruct (Z.gtb_spec now (Cache.expiresAt e)); [done | lia].
Qed.
End CacheFacts.

(** C1 as stated fails at the boundary: at [now = expiresAt] the read still
    returns the value. *)
Lemma cache_get_at_expiry_returns_value :
  let c1 := Cache.set 0 "k" "v" 10 (Cache.empty (T := string)) in
  10 >= 0 + 10 /\ fst (Cache.get 10 "k" c1) = Some "v"
  /\ fst (Cache.get 10 "k" c1) <> None.
Proof. vm_compute. repeat split; congruence. Qed.

Lemma cache_get_after_set_witness :
  fst (Cache.get 10 "k" (Cache.set 0 "k" "v" 10 (Cache.empty (T := string))))
    = Some "v"
  /\ fst (Cache.get 11 "k" (Cache.set 0 "k" "v" 10 (Cache.empty (T := string))))
    = None.
Proof.
  pose proof (cache_get_after_set (Cache.empty (T := string)) "k" "v" 10 0 10)
    as (_ & Hhit & _).
  pose proof (cache_get_after_set (Cache.empty (T := string)) "k" "v" 10 0 11)
    as (_ & _ & Hmiss).
  split; [apply Hhit; lia | apply Hmiss; lia].
Defined.

Lemma cache_expired_entry_still_counted_witness :
  let c := Cache.set 0 "k" "v" 10 (Cache.empty (T := string)) in
  fst (Cache.delete "k" c) = true /\
  Cache.size c = S (Cache.size (snd (Cache.delete "k" c))) /\
  fst (Cache.get 11 "k" c) = None.
Proof.
  apply (cache_expired_entry_still_counted
           (Cache.set 0 "k" "v" 10 (Cache.empty (T := string)))
           "k" (Cache.mkEntry "v" 10) 11).
  - reflexivity.
  - simpl. lia.
Defined.

(** ** The credential manager *)

Section AuthFacts.
Import AuthManager.
Variable efecteConfig : Config.EfecteConfig.

Local Abbreviation getToken := (AuthManager.getToken efecteConfig).
Local Abbreviation settle := (AuthManager.settle efecteConfig).
Local Abbreviation fresh_enough := (AuthManager.fresh_enough efecteConfig).
Local Abbreviation authenticate_resume :=
  (AuthManager.authenticate_resume efecteConfig).

Lemma bearer_prefix tk : String.prefix "Bearer " (bearer tk) = true.
Proof.
  unfold bearer. destruct (String.prefix "Bearer " tk) eqn:E; [done |].
  change ("Bearer " +:+ tk) with
    (String "B" (String "e" (String "a" (String "r" (String "e"
      (String "r" (String " " tk))))))).
  simpl. repeat (destruct (ascii_dec _ _); [| congruence]).
  by destruct tk.
Qed.

Lemma bearer_truthy tk : truthy_string (bearer tk) = true.
Proof.
  pose proof (bearer_prefix tk) as H.
  destruct (bearer tk); [discriminate | done].
Qed.

(** *** The two paths of [getToken()] *)

Lemma getToken_fast tget now s tok :
  cachedToken tget s = Some tok ->
  fresh_enough (Some tok) now s = true ->
  getToken tget now s
  = (Resolved tok,
     set_tokenCache (snd (Cache.get tget "token" (tokenCache (this s)))) s).
Proof.
  unfold cachedToken, AuthManager.getToken. intros Hc Hf.
  destruct (Cache.get tget "token" (tokenCache (this s))) as [o c].
  simpl in *. subst o.
  unfold AuthManager.fresh_enough in *. simpl in *. by rewrite Hf.
Qed.

Lemma getToken_slow tget now s :
  fresh_enough (cachedToken tget s) now s = false ->
  getToken tget now s
  = let s1 :=
      set_tokenCache (snd (Cache.get tget "token" (tokenCache (this s)))) s in
    match authPromise (this s) with
    | Some p => (Awaits p, s1)
    | None =>
        (Awaits (loginRequests s),
         set_authPromise (Some (loginRequests s))
           (snd (authenticate_start true s1)))
    end.
Proof.
  unfold cachedToken, AuthManager.getToken. intros Hf.
  destruct (Cache.get tget "token" (tokenCache (this s))) as [o c].
  simpl in *.
  unfold AuthManager.fresh_enough in *. simpl in *. rewrite Hf.
  by destruct (authPromise (this s)).
Qed.

Lemma fresh_enough_spec o now s :
  fresh_enough o now s = true <->
  exists tok, o = Some tok /\ truthy_string tok = true /\
    tokenExpiresAt (this s)
    > now + Config.tokenRefreshThreshold efecteConfig * 1000.
Proof.
  unfold AuthManager.fresh_enough. rewrite andb_true_iff, Z.gtb_gt.
  split.
  - intros [Ht Hgt]. destruct o as [tok|]; [| discriminate].
    exists tok. by repeat split.
  - intros (tok & -> & Ht & Hgt). by split.
Qed.

(** A caller that finds no fresh token leaves the others without one too:
    the only change that the read makes is to drop an expired entry. *)
Lemma stale_stays_stale tget tget' now' s :
  fresh_enough (cachedToken tget' s) now' s = false ->
  fresh_enough
    (cachedToken tget'
       (set_tokenCache (snd (Cache.get tget "token" (tokenCache (this s)))) s))
    now'
    (set_tokenCache (snd (Cache.get tget "token" (tokenCache (this s)))) s)
  = false.
Proof.
  unfold cachedToken, AuthManager.fresh_enough. simpl.
  destruct (get_snd_cases (tokenCache (this s)) "token" tget)
    as [-> | [-> _]]; [done |].
  intros _. by rewrite get_absent by apply lookup_delete_eq.
Qed.

(** *** What the continuation of [authenticate()] does *)

Lemma authenticate_resume_ok r tk tset trec s :
  carried_token r = Some tk ->
  authenticate_resume r tset trec s
  = (Ok (bearer tk),
     set_tokenExpiresAt (trec + Config.authTokenTTL efecteConfig)
       (set_tokenCache
          (Cache.set tset "token" (bearer tk)
             (Config.authTokenTTL efecteConfig) (tokenCache (this s))) s)).
Proof.
  unfold carried_token, AuthManager.authenticate_resume.
  destruct r as [d h | e]; [| discriminate]. simpl. by intros ->.
Qed.

Lemma authenticate_resume_throw r tset trec s :
  carried_token r = None ->
  authenticate_resume r tset trec s
  = (Throw (authenticate_catch
       match r with
       | Responded _ _ =>
           newError "No token received from authentication endpoint"
       | Rejected error => error
       end), s).
Proof.
  unfold carried_token, AuthManager.authenticate_resume.
  destruct r as [d h | e]; [| done]. simpl. by intros ->.
Qed.

Lemma authenticate_resume_runtime r tset trec s :
  let s1 := snd (authenticate_resume r tset trec s) in
  loginRequests s1 = loginRequests s /\ inflight s1 = inflight s /\
  settled s1 = settled s /\ authPromise (this s1) = authPromise (this s).
Proof.
  destruct (carried_token r) as [tk|] eqn:E.
  - by rewrite (authenticate_resume_ok _ _ _ _ _ E).
  - by rewrite (authenticate_resume_throw _ _ _ _ E).
Qed.

(** *** Single flight *)

(** Once the marker is set, callers without a fresh token wait for the
    exchange it names, and nothing else changes. *)
Lemma getToken_all_joined (callers : list (Z * Z)) s p :
  authPromise (this s) = Some p ->
  Forall (fun '(tget, now) => fresh_enough (cachedToken tget s) now s = false)
         callers ->
  let '(outs, s1) := getToken_all efecteConfig callers s in
  Forall (fun o => o = Awaits p) outs /\
  length outs = length callers /\
  authPromise (this s1) = Some p /\
  loginRequests s1 = loginRequests s /\
  inflight s1 = inflight s /\
  settled s1 = settled s.
Proof.
  revert s. induction callers as [| [tget now] rest IH]; intros s Hp Hall.
  - simpl. by repeat split.
  - simpl. apply Forall_cons in Hall as [Hhd Hrest].
    rewrite (getToken_slow _ _ _ Hhd). rewrite Hp. simpl.
    set (s1 := set_tokenCache _ s).
    assert (Hrest' : Forall (fun '(tget, now) =>
              fresh_enough (cachedToken tget s1) now s1 = false) rest).
    { eapply Forall_impl; [exact Hrest |]. intros [tg nw] H.
      by apply stale_stays_stale. }
    specialize (IH s1 Hp Hrest').
    destruct (getToken_all efecteConfig rest s1) as [os s2].
    destruct IH as (Ho & Hlen & Hp2 & Hn & Hi & Hs).
    repeat split; try done.
    + by constructor.
    + simpl. by rewrite Hlen.
Qed.

Lemma settle_delivers p r tset trec s via :
  inflight s !! p = Some via ->
  settled (settle p r tset trec s) !! p
  = Some (fst (authenticate_resume r tset trec s)).
Proof.
  intros Hin. unfold AuthManager.settle. rewrite Hin.
  destruct (authenticate_resume r tset trec s) as [res s1]. simpl.
  apply lookup_insert_eq.
Qed.

Lemma settle_clears_marker p r tset trec s :
  inflight s !! p = Some true ->
  authPromise (this (settle p r tset trec s)) = None.
Proof.
  intros Hin. unfold AuthManager.settle. rewrite Hin.
  by destruct (authenticate_resume r tset trec s) as [res s1].
Qed.

(** C2.  Callers of [getToken()] that all call before any exchange
    settles, in a state with no acquisition in flight and in which none of
    them finds a fresh cached token: exactly one login request is issued,
    they all wait for the promise of that one exchange, and when it
    settles they all receive its result, the token or the error. *)
Theorem getToken_single_flight (callers : list (Z * Z)) s :
  callers <> [] ->
  authPromise (this s) = None ->
  Forall (fun '(tget, now) => fresh_enough (cachedToken tget s) now s = false)
         callers ->
  let '(outs, s1) := getToken_all efecteConfig callers s in
  loginRequests s1 = S (loginRequests s) /\
  length outs = length callers /\
  exists p,
    Forall (fun o => o = Awaits p) outs /\
    inflight s1 !! p = Some true /\
    forall r tset trec,
      let s2 := settle p r tset trec s1 in
      let res := fst (authenticate_resume r tset trec s1) in
      Forall (fun o => received o s2 = Some res) outs /\
      loginRequests s2 = S (loginRequests s).
Proof.
  intros Hne Hnone Hall.
  destruct callers as [| [tget now] rest]; [done |]. clear Hne.
  apply Forall_cons in Hall as [Hhd Hrest].
  simpl. rewrite (getToken_slow _ _ _ Hhd). rewrite Hnone. simpl.
  set (p := loginRequests s).
  set (s1 := set_authPromise _ _).
  assert (Hp1 : authPromise (this s1) = Some p) by done.
  assert (Hrest' : Forall (fun '(tget, now) =>
            fresh_enough (cachedToken tget s1) now s1 = false) rest).
  { eapply Forall_impl; [exact Hrest |]. intros [tg nw] H.
    apply (stale_stays_stale tget) in H. exact H. }
  pose proof (getToken_all_joined rest s1 p Hp1 Hrest') as IH.
  destruct (getToken_all efecteConfig rest s1) as [os s2].
  destruct IH as (Ho & Hlen & Hp2 & Hn & Hi & Hs).
  assert (Hin : inflight s2 !! p = Some true).
  { rewrite Hi. subst s1. simpl. apply lookup_insert_eq. }
  split; [by rewrite Hn |]. split; [simpl; by rewrite Hlen |].
  exists p. split; [by constructor |]. split; [done |].
  intros r tset trec. simpl. split.
  - assert (Hd := settle_delivers p r tset trec s2 true Hin).
    constructor; [exact Hd |].
    eapply Forall_impl; [exact Ho |]. intros o ->. exact Hd.
  - unfold AuthManager.settle. rewrite Hin.
    pose proof (authenticate_resume_runtime r tset trec s2) as (Hl & _).
    destruct (authenticate_resume r tset trec s2) as [res s3].
    simpl in *. by rewrite Hl, Hn.
Qed.


(** *** The invariant *)

Lemma invariant_init : invariant init.
Proof.
  repeat split; simpl; intros ?; rewrite ?lookup_empty;
    try discriminate; by intros [? ?].
Qed.

Lemma invariant_read tget s :
  invariant s ->
  invariant
    (set_tokenCache (snd (Cache.get tget "token" (tokenCache (this s)))) s).
Proof.
  intros (Hb & Hm & Hi & Hs). repeat split; simpl; try done.
  intros e.
  destruct (get_snd_cases (tokenCache (this s)) "token" tget)
    as [-> | [-> _]]; [apply Hb |].
  by rewrite lookup_delete_eq.
Qed.

Lemma invariant_start via s :
  invariant s ->
  let s1 := snd (authenticate_start via s) in
  (forall e, tokenCache (this s1) !! "token" = Some e ->
             String.prefix "Bearer " (Cache.value e) = true) /\
  (forall p, is_Some (inflight s1 !! p) -> (p < loginRequests s1)%nat) /\
  (forall p, is_Some (settled s1 !! p) -> (p < loginRequests s1)%nat) /\
  (forall p, authPromise (this s) = Some p -> inflight s1 !! p = Some true).
Proof.
  intros (Hb & Hm & Hi & Hs). simpl. repeat split; try done.
  - intros p. destruct (decide (loginRequests s = p)) as [<- | Hne].
    + lia.
    + rewrite lookup_insert_ne by done. intros H%Hi. lia.
  - intros p H%Hs. lia.
  - intros p Hp. specialize (Hm p Hp).
    rewrite lookup_insert_ne; [done |].
    intros <-. assert (loginRequests s < loginRequests s)%nat; [| lia].
    apply Hi. by rewrite Hm.
Qed.

Lemma invariant_getToken tget now s :
  invariant s -> invariant (snd (getToken tget now s)).
Proof.
  intros Hinv. apply (invariant_read tget) in Hinv.
  unfold AuthManager.getToken.
  destruct (Cache.get tget "token" (tokenCache (this s))) as [o c].
  simpl in Hinv.
  destruct (if fresh_enough o now (set_tokenCache c s) then o else None);
    [done |].
  destruct (authPromise (this (set_tokenCache c s))) eqn:Ep; [done |].
  pose proof (invariant_start true _ Hinv)
    as (Hb & Hi & Hs & _).
  simpl in *. repeat split; simpl; try done.
  intros p [= <-]. apply lookup_insert_eq.
Qed.

Lemma invariant_settle p r tset trec s :
  invariant s -> invariant (settle p r tset trec s).
Proof.
  intros Hinv. unfold AuthManager.settle.
  destruct (inflight s !! p) as [via|] eqn:Ein; [| done].
  destruct Hinv as (Hb & Hm & Hi & Hs).
  assert (Hp : (p < loginRequests s)%nat) by (apply Hi; by rewrite Ein).
  destruct (carried_token r) as [tk|] eqn:E.
  - rewrite (authenticate_resume_ok _ _ _ _ _ E).
    destruct via; repeat split; simpl; try done.
    + intros e. unfold Cache.set. rewrite lookup_insert_eq.
      intros [= <-]. apply bearer_prefix.
    + intros q Hq. apply Hi.
      destruct (decide (p = q)) as [-> | Hne];
        [by rewrite lookup_delete_eq in Hq; destruct Hq |].
      by rewrite lookup_delete_ne in Hq.
    + intros q. destruct (decide (p = q)) as [<- | Hne]; [done |].
      rewrite lookup_insert_ne by done. apply Hs.
    + intros e. unfold Cache.set. rewrite lookup_insert_eq.
      intros [= <-]. apply bearer_prefix.
    + intros q Hq. specialize (Hm q Hq).
      rewrite lookup_delete_ne; [done |]. intros <-. congruence.
    + intros q Hq. apply Hi.
      destruct (decide (p = q)) as [-> | Hne];
        [by rewrite lookup_delete_eq in Hq; destruct Hq |].
      by rewrite lookup_delete_ne in Hq.
    + intros q. destruct (decide (p = q)) as [<- | Hne]; [done |].
      rewrite lookup_insert_ne by done. apply Hs.
  - rewrite (authenticate_resume_throw _ _ _ _ E).
    destruct via; repeat split; simpl; try done.
    + intros q Hq. apply Hi.
      destruct (decide (p = q)) as [-> | Hne];
        [by rewrite lookup_delete_eq in Hq; destruct Hq |].
      by rewrite lookup_delete_ne in Hq.
    + intros q. destruct (decide (p = q)) as [<- | Hne]; [done |].
      rewrite lookup_insert_ne by done. apply Hs.
    + intros q Hq. specialize (Hm q Hq).
      rewrite lookup_delete_ne; [done |]. intros <-. congruence.
    + intros q Hq. apply Hi.
      destruct (decide (p = q)) as [-> | Hne];
        [by rewrite lookup_delete_eq in Hq; destruct Hq |].
      by rewrite lookup_delete_ne in Hq.
    + intros q. destruct (decide (p = q)) as [<- | Hne]; [done |].
      rewrite lookup_insert_ne by done. apply Hs.
Qed.

Lemma invariant_step ev s : invariant s -> invariant (step efecteConfig ev s).
Proof.
  intros Hinv. destruct ev as [tget now | | p r tset trec | | tget now]; simpl.
  - by apply invariant_getToken.
  - pose proof (invariant_start false _ Hinv)
      as (Hb & Hi & Hs & Hm).
    repeat split; try done.
  - by apply invariant_settle.
  - destruct Hinv as (Hb & Hm & Hi & Hs).
    repeat split; simpl; try done.
    intros e. by rewrite lookup_delete_eq.
  - unfold AuthManager.isAuthenticated.
    pose proof (invariant_read tget s Hinv) as H.
    by destruct (Cache.get tget "token" (tokenCache (this s))).
Qed.

Lemma reachable_invariant s : reachable efecteConfig s -> invariant s.
Proof.
  induction 1; [apply invariant_init | by apply invariant_step].
Qed.

Lemma cachedToken_truthy tget s tok :
  invariant s -> cachedToken tget s = Some tok -> truthy_string tok = true.
Proof.
  intros (Hb & _) Hc. apply get_hit_inv in Hc as (e & He & <- & _).
  specialize (Hb e He). by destruct (Cache.value e).
Qed.

(** *** The claims about [getToken()], [clearToken()] and failures *)

(** C5.  In every state that a run can be in, [getToken()] returns a token
    at once, with no login request, exactly when the cache holds a token and
    the tracked expiry exceeds now plus the refresh threshold, and the
    token is the cached one.  Otherwise, with no acquisition in flight, it
    issues one login request; when that exchange settles with a response
    that carries a token, the caller receives the token with the
    ["Bearer "] prefix, the cache holds it under ["token"] with the
    configured TTL, and the tracked expiry is the time of recording plus
    that TTL. *)
Theorem getToken_cached_or_acquired s tget now :
  reachable efecteConfig s ->
  let threshold := Config.tokenRefreshThreshold efecteConfig * 1000 in
  let ttl := Config.authTokenTTL efecteConfig in
  let out := fst (getToken tget now s) in
  let s1 := snd (getToken tget now s) in
  (forall tok,
      out = Resolved tok <->
      cachedToken tget s = Some tok /\
      tokenExpiresAt (this s) > now + threshold) /\
  (forall tok, out = Resolved tok -> loginRequests s1 = loginRequests s) /\
  ((forall tok, out <> Resolved tok) ->
   authPromise (this s) = None ->
   exists p,
     out = Awaits p /\
     inflight s !! p = None /\ inflight s1 !! p = Some true /\
     loginRequests s1 = S (loginRequests s) /\
     forall r tk tset trec s2,
       carried_token r = Some tk ->
       inflight s2 !! p = Some true ->
       let s3 := settle p r tset trec s2 in
       received (Awaits p) s3 = Some (Ok (bearer tk)) /\
       String.prefix "Bearer " (bearer tk) = true /\
       (bearer tk = tk \/ bearer tk = "Bearer " +:+ tk) /\
       tokenCache (this s3) !! "token"
       = Some (Cache.mkEntry (bearer tk) (tset + ttl)) /\
       tokenExpiresAt (this s3) = trec + ttl).
Proof.
  intros Hreach threshold ttl out s1.
  pose proof (reachable_invariant s Hreach) as Hinv.
  destruct (fresh_enough (cachedToken tget s) now s) eqn:Hf.
  - (* the cached token is returned *)
    pose proof Hf as Hf'.
    apply fresh_enough_spec in Hf' as (tok0 & Hc & Ht & Hgt).
    rewrite Hc in Hf.
    pose proof (getToken_fast tget now s tok0 Hc Hf) as Hg.
    subst out s1. rewrite Hg. simpl. split; [| split].
    + intros tok. split.
      * intros [= <-]. by split.
      * intros [Hc' _]. congruence.
    + done.
    + intros Hno. by destruct (Hno tok0).
  - (* an exchange is awaited *)
    pose proof (getToken_slow tget now s Hf) as Hg. simpl in Hg.
    split; [| split].
    + intros tok. split.
      * subst out. rewrite Hg. by destruct (authPromise (this s)).
      * intros [Hc Hgt]. exfalso.
        assert (fresh_enough (cachedToken tget s) now s = true);
          [| congruence].
        apply fresh_enough_spec. exists tok. split; [done |].
        split; [by eapply cachedToken_truthy | done].
    + intros tok. subst out. rewrite Hg. by destruct (authPromise (this s)).
    + intros _ Hnone. subst out s1. rewrite Hg, Hnone. simpl.
      exists (loginRequests s). split; [done |].
      destruct Hinv as (_ & _ & Hi & _).
      split.
      { destruct (inflight s !! loginRequests s) eqn:E; [| done].
        assert (loginRequests s < loginRequests s)%nat; [| lia].
        apply Hi. by rewrite E. }
      split; [apply lookup_insert_eq |]. split; [done |].
      intros r tk tset trec s2 Hr Hin. simpl.
      rewrite (settle_delivers _ _ _ _ _ _ Hin).
      unfold AuthManager.settle. rewrite Hin.
      rewrite (authenticate_resume_ok _ _ _ _ _ Hr). simpl.
      split; [done |]. split; [apply bearer_prefix |].
      split.
      { unfold bearer. destruct (String.prefix "Bearer " tk); auto. }
      split; [| done].
      unfold Cache.set. apply lookup_insert_eq.
Qed.

(** [clearToken()] drops the marker of an outstanding exchange, not the
    exchange: the exchange runs to its end, and if it brings a token, that
    token is cached and is served while it is fresh. *)
Lemma outstanding_exchange_outlives_clearToken p via r tk tset trec s :
  inflight s !! p = Some via ->
  carried_token r = Some tk ->
  let ttl := Config.authTokenTTL efecteConfig in
  let s1 := settle p r tset trec (clearToken s) in
  tokenCache (this s1) !! "token" = Some (Cache.mkEntry (bearer tk) (tset + ttl))
  /\ tokenExpiresAt (this s1) = trec + ttl
  /\ forall tget now,
       tget <= tset + ttl ->
       trec + ttl > now + Config.tokenRefreshThreshold efecteConfig * 1000 ->
       fst (getToken tget now s1) = Resolved (bearer tk).
Proof.
  intros Hin Hr ttl s1.
  assert (Hs1 : tokenCache (this s1) !! "token"
                = Some (Cache.mkEntry (bearer tk) (tset + ttl))
                /\ tokenExpiresAt (this s1) = trec + ttl).
  { subst s1. unfold AuthManager.settle. simpl. rewrite Hin.
    rewrite (authenticate_resume_ok _ _ _ _ _ Hr).
    destruct via; simpl; (split; [| done]);
      unfold Cache.set; apply lookup_insert_eq. }
  destruct Hs1 as [Hc He]. split; [done |]. split; [done |].
  intros tget now Hget Hnow.
  assert (Hcached : cachedToken tget s1 = Some (bearer tk)).
  { unfold cachedToken, Cache.get. rewrite Hc. simpl.
    destruct (Z.gtb_spec tget (tset + ttl)); [lia | done]. }
  rewrite (getToken_fast tget now s1 (bearer tk)); [done | done |].
  apply fresh_enough_spec. exists (bearer tk).
  split; [done |]. split; [apply bearer_truthy |]. rewrite He. exact Hnow.
Qed.

(** The events between [clearToken()] and the call of [getToken()] that
    comes next: no other call of [getToken()], and no exchange that settles
    with a token.  They leave the cache without a token and the object
    without a marker. *)
Lemma no_token_step ev s :
  match ev with
  | CallGetToken _ _ => False
  | Settles _ r _ _ => carried_token r = None
  | _ => True
  end ->
  tokenCache (this s) !! "token" = None ->
  authPromise (this s) = None ->
  tokenCache (this (step efecteConfig ev s)) !! "token" = None /\
  authPromise (this (step efecteConfig ev s)) = None.
Proof.
  intros Hev Hc Hp.
  destruct ev as [tg nw | | p r tset trec | | tg nw]; simpl.
  - done.
  - done.
  - unfold AuthManager.settle.
    destruct (inflight s !! p) as [via |]; [| done].
    rewrite (authenticate_resume_throw _ _ _ _ Hev).
    by destruct via.
  - split; [apply lookup_delete_eq | done].
  - unfold isAuthenticated. by rewrite get_absent.
Qed.

Lemma no_token_run (evs : list Event) s :
  Forall (fun ev => match ev with
                    | CallGetToken _ _ => False
                    | Settles _ r _ _ => carried_token r = None
                    | _ => True
                    end) evs ->
  tokenCache (this s) !! "token" = None ->
  authPromise (this s) = None ->
  let s' := foldl (fun s ev => step efecteConfig ev s) s evs in
  tokenCache (this s') !! "token" = None /\ authPromise (this s') = None.
Proof.
  revert s. induction evs as [| ev evs IH]; intros s Hall Hc Hp; [done |].
  apply Forall_cons in Hall as [Hev Hall]. cbn [foldl].
  destruct (no_token_step ev s Hev Hc Hp) as [Hc' Hp'].
  by apply IH.
Qed.


(** C7 (as amended).  When the exchange that [getToken()] started fails,
    the promise is rejected with: [Invalid credentials] for an HTTP-client
    error that carries a 401 response; [Authentication failed: <message>]
    for any other HTTP-client error; and the thrown value itself for any
    other failure, which for a response without a token is the error
    [No token received from authentication endpoint].  In every case the
    object is otherwise unchanged, the in-flight marker is cleared, and a
    following [getToken()] that finds no fresh cached token starts a new
    exchange. *)
Theorem authenticate_failure_surfaced p r tset trec s :
  inflight s !! p = Some true ->
  carried_token r = None ->
  let s1 := settle p r tset trec s in
  let thrown :=
    match r with
    | Responded _ _ =>
        newError "No token received from authentication endpoint"
    | Rejected error => error
    end in
  let surfaced :=
    if isAxiosError thrown then
      if bool_decide (responseStatus thrown = Some 401)
      then newError "Invalid credentials"
      else newError ("Authentication failed: " +:+ message thrown)
    else thrown in
  received (Awaits p) s1 = Some (Throw surfaced) /\
  authPromise (this s1) = None /\
  tokenCache (this s1) = tokenCache (this s) /\
  tokenExpiresAt (this s1) = tokenExpiresAt (this s) /\
  forall tget now,
    fresh_enough (cachedToken tget s1) now s1 = false ->
    fst (getToken tget now s1) = Awaits (loginRequests s1) /\
    loginRequests (snd (getToken tget now s1)) = S (loginRequests s1).
Proof.
  intros Hin Hr s1 thrown surfaced.
  assert (Hm : authPromise (this s1) = None)
    by (by apply settle_clears_marker).
  split; [| split; [done |]].
  - simpl. subst s1. rewrite (settle_delivers _ _ _ _ _ _ Hin).
    by rewrite (authenticate_resume_throw _ _ _ _ Hr).
  - subst s1. unfold AuthManager.settle. rewrite Hin.
    rewrite (authenticate_resume_throw _ _ _ _ Hr). simpl.
    do 2 (split; [done |]).
    intros tget now Hf. simpl in Hf.
    match goal with
    | |- context [getToken tget now ?st] =>
        pose proof (getToken_slow tget now st Hf) as Hg
    end.
    simpl in Hg. by rewrite Hg.
Qed.

End AuthFacts.

(** Two callers on a new [AuthManager]: one login request. *)
Lemma getToken_single_flight_witness :
  AuthManager.loginRequests
    (snd (AuthManager.getToken_all Config.defaults [(0, 0); (1, 1)]
            AuthManager.init)) = 1%nat.
Proof.
  pose proof (getToken_single_flight Config.defaults [(0, 0); (1, 1)]
                AuthManager.init) as H.
  destruct (AuthManager.getToken_all Config.defaults [(0, 0); (1, 1)]
              AuthManager.init) as [outs s1].
  apply H.
  - discriminate.
  - reflexivity.
  - repeat constructor.
Defined.

(** An [AuthManager] whose first exchange brought the token [t] at time
    [1]: at time [5] the cached token is returned. *)
Lemma getToken_cached_or_acquired_witness :
  let s :=
    AuthManager.step Config.defaults
      (AuthManager.Settles 0 (AuthManager.Responded (Some "t") None) 1 1)
      (AuthManager.step Config.defaults (AuthManager.CallGetToken 0 0)
         AuthManager.init) in
  fst (AuthManager.getToken Config.defaults 5 5 s)
  = AuthManager.Resolved "Bearer t".
Proof.
  intros s.
  destruct (getToken_cached_or_acquired Config.defaults s 5 5) as [H _].
  - apply AuthManager.reachable_step, AuthManager.reachable_step,
      AuthManager.reachable_init.
  - apply H. split; [reflexivity | vm_compute; reflexivity].
Defined.



(** A login response without a token is a failed acquisition that is not a
    401 and whose error is not the generic one. *)
Lemma authenticate_no_token_error_is_specific :
  let s := snd (AuthManager.getToken Config.defaults 0 0 AuthManager.init) in
  let r := AuthManager.Responded None None in
  exists e,
    AuthManager.received (AuthManager.Awaits 0)
      (AuthManager.settle Config.defaults 0 r 1 1 s) = Some (Throw e) /\
    message e = "No token received from authentication endpoint" /\
    message e <> "Invalid credentials" /\
    String.prefix "Authentication failed" (message e) = false.
Proof.
  eexists. vm_compute. repeat split. discriminate.
Qed.

Lemma authenticate_failure_surfaced_witness :
  let s := snd (AuthManager.getToken Config.defaults 0 0 AuthManager.init) in
  let e401 :=
    {| isAxiosError := true; code := Some "ERR_BAD_REQUEST";
       message := "Request failed with status code 401"; config := None;
       responseStatus := Some 401; isTimeout := false;
       isNetworkError := false |} in
  AuthManager.received (AuthManager.Awaits 0)
    (AuthManager.settle Config.defaults 0 (AuthManager.Rejected e401) 1 1 s)
  = Some (Throw (newError "Invalid credentials")).
Proof.
  intros s e401.
  apply (authenticate_failure_surfaced Config.defaults 0%nat
           (AuthManager.Rejected e401) 1 1 s); reflexivity.
Defined.

(** ** The session registry *)

Section SessionFacts.
Import EfecteHttpServer.
Variable efecteConfig : Config.EfecteConfig.

Local Abbreviation sessionTimeout :=
  (EfecteHttpServer.sessionTimeout efecteConfig).
Local Abbreviation idleSessions :=
  (EfecteHttpServer.idleSessions efecteConfig).
Local Abbreviation cleanupIdleSessions :=
  (EfecteHttpServer.cleanupIdleSessions efecteConfig).
Local Abbreviation step := (EfecteHttpServer.step efecteConfig).
Local Abbreviation run := (EfecteHttpServer.run efecteConfig).

(** Without a configured value the timeout is thirty minutes. *)
Lemma sessionTimeout_default :
  Config.sessionTimeout efecteConfig = None ->
  sessionTimeout = 30 * 60 * 1000.
Proof. unfold EfecteHttpServer.sessionTimeout. by intros ->. Qed.

(** A configured value other than [0] is the timeout. *)
Lemma sessionTimeout_configured n :
  Config.sessionTimeout efecteConfig = Some n -> n <> 0 ->
  sessionTimeout = n.
Proof.
  unfold EfecteHttpServer.sessionTimeout. intros -> Hn.
  by destruct (Z.eqb_spec n 0).
Qed.

(** The value [0] is falsy, and the timeout is thirty minutes then. *)
Lemma sessionTimeout_zero :
  Config.sessionTimeout efecteConfig = Some 0 ->
  sessionTimeout = 30 * 60 * 1000.
Proof. unfold EfecteHttpServer.sessionTimeout. by intros ->. Qed.

(** *** The first loop: which identifiers are collected *)

Lemma idle_fold_spec now (l : list (string * TransportInfo)) acc :
  foldl (fun sessionsToClose '(sessionId, transportInfo) =>
           if now - lastActivity transportInfo >? sessionTimeout
           then sessionsToClose ++ [sessionId] else sessionsToClose) acc l
  = acc ++ (filter (fun x => now - lastActivity x.2 > sessionTimeout) l).*1.
Proof.
  revert acc. induction l as [| [k i] l IH]; intros acc; simpl.
  - by rewrite app_nil_r.
  - rewrite IH. rewrite filter_cons. simpl.
    destruct (now - lastActivity i >? sessionTimeout) eqn:E.
    + apply Z.gtb_gt in E. rewrite decide_True by done. simpl.
      by rewrite <- app_assoc.
    + rewrite decide_False; [done |]. intros H%Z.gtb_gt. congruence.
Qed.

Lemma idleSessions_spec now st :
  idleSessions now st
  = (filter (fun x => now - lastActivity x.2 > sessionTimeout)
       (map_to_list (transports st))).*1.
Proof. unfold EfecteHttpServer.idleSessions. by rewrite idle_fold_spec. Qed.

Lemma elem_of_idleSessions now st sid :
  sid ∈ idleSessions now st <->
  exists info, transports st !! sid = Some info /\
               now - lastActivity info > sessionTimeout.
Proof.
  rewrite idleSessions_spec, list_elem_of_fmap. split.
  - intros [[k i] [-> Hin]]. apply list_elem_of_filter in Hin as [Hidle Hin].
    apply elem_of_map_to_list in Hin. by exists i.
  - intros [info [Hl Hidle]]. exists (sid, info). split; [done |].
    apply list_elem_of_filter. split; [done |]. by apply elem_of_map_to_list.
Qed.

Lemma NoDup_idleSessions now st : NoDup (idleSessions now st).
Proof.
  rewrite idleSessions_spec.
  eapply NoDup_fmap_fst.
  - intros k i1 i2 H1 H2.
    apply list_elem_of_filter in H1 as [_ H1].
    apply list_elem_of_filter in H2 as [_ H2].
    apply elem_of_map_to_list in H1, H2. congruence.
  - apply NoDup_filter, NoDup_map_to_list.
Qed.

(** *** The second loop *)

Lemma closeIdleSession_other st k sid :
  k <> sid ->
  transports (closeIdleSession st k) !! sid = transports st !! sid.
Proof.
  intros Hne. unfold closeIdleSession.
  destruct (transports st !! k); [| done]. simpl.
  by rewrite lookup_delete_ne.
Qed.

Lemma closeIdleSession_log st k :
  exists l, log (closeIdleSession st k) = log st ++ l.
Proof.
  unfold closeIdleSession. destruct (transports st !! k) as [i|]; simpl.
  - exists [RegistryDelete k; ServerClose (server i)].
    by rewrite <- app_assoc.
  - exists []. by rewrite app_nil_r.
Qed.

Lemma close_loop_log (l : list string) st :
  exists l', log (foldl closeIdleSession st l) = log st ++ l'.
Proof.
  revert st. induction l as [| k l IH]; intros st; simpl.
  - exists []. by rewrite app_nil_r.
  - destruct (IH (closeIdleSession st k)) as [l2 ->].
    destruct (closeIdleSession_log st k) as [l1 ->].
    exists (l1 ++ l2). by rewrite app_assoc.
Qed.

Lemma close_loop_other (l : list string) st sid :
  sid ∉ l ->
  transports (foldl closeIdleSession st l) !! sid = transports st !! sid.
Proof.
  revert st. induction l as [| k l IH]; intros st Hnin; simpl; [done |].
  apply not_elem_of_cons in Hnin as [Hne Hnin].
  rewrite IH by done. by apply closeIdleSession_other.
Qed.

Lemma close_loop_member (l : list string) st sid info :
  NoDup l -> sid ∈ l ->
  transports st !! sid = Some info ->
  transports (foldl closeIdleSession st l) !! sid = None /\
  exists l1 l2,
    log (foldl closeIdleSession st l)
    = log st ++ l1 ++ [RegistryDelete sid; ServerClose (server info)] ++ l2.
Proof.
  revert st. induction l as [| k l IH]; intros st Hnd Hin Hl; simpl.
  - by apply elem_of_nil in Hin.
  - apply NoDup_cons in Hnd as [Hfresh Hnd].
    destruct (decide (k = sid)) as [-> | Hne].
    + split.
      * rewrite close_loop_other by done.
        unfold closeIdleSession. rewrite Hl. simpl. apply lookup_delete_eq.
      * destruct (close_loop_log l (closeIdleSession st sid)) as [l2 ->].
        unfold closeIdleSession. rewrite Hl. simpl.
        exists [], l2. simpl. by rewrite <- !app_assoc.
    + apply elem_of_cons in Hin as [-> | Hin]; [done |].
      destruct (IH (closeIdleSession st k) Hnd Hin) as (Hgone & l1 & l2 & Hlog).
      { by rewrite closeIdleSession_other. }
      split; [done |].
      destruct (closeIdleSession_log st k) as [l0 Hl0].
      exists (l0 ++ l1), l2. rewrite Hlog, Hl0. by rewrite <- !app_assoc.
Qed.

(** *** What happens to a session in a sweep *)

Lemma cleanup_removes now st sid info :
  transports st !! sid = Some info ->
  now - lastActivity info > sessionTimeout ->
  transports (cleanupIdleSessions now st) !! sid = None /\
  exists l1 l2,
    log (cleanupIdleSessions now st)
    = log st ++ l1 ++ [RegistryDelete sid; ServerClose (server info)] ++ l2.
Proof.
  intros Hl Hidle. unfold EfecteHttpServer.cleanupIdleSessions.
  apply close_loop_member; [apply NoDup_idleSessions | | done].
  apply elem_of_idleSessions. by exists info.
Qed.

Lemma cleanup_keeps now st sid info :
  transports st !! sid = Some info ->
  now - lastActivity info <= sessionTimeout ->
  transports (cleanupIdleSessions now st) !! sid = Some info.
Proof.
  intros Hl Hidle. unfold EfecteHttpServer.cleanupIdleSessions.
  rewrite close_loop_other; [done |].
  intros (i & Hi & Hgt)%elem_of_idleSessions.
  assert (i = info) by congruence. subst. lia.
Qed.

Lemma cleanup_absent now st sid :
  transports st !! sid = None ->
  transports (cleanupIdleSessions now st) !! sid = None.
Proof.
  intros Hl. unfold EfecteHttpServer.cleanupIdleSessions.
  rewrite close_loop_other; [done |].
  intros (i & Hi & _)%elem_of_idleSessions. congruence.
Qed.

(** *** Only the initialization of a session registers it *)

Lemma step_absent st ev sid :
  ~ initializes sid ev ->
  transports st !! sid = None ->
  transports (step st ev) !! sid = None.
Proof.
  intros Hni Hl.
  destruct ev as [h isInit n1 n2 | h n | h | k closed | k tr srv n | k | n];
    simpl.
  - unfold post_mcp_begin.
    destruct h as [k|]; simpl.
    + destruct (truthy_string k && has k st); simpl.
      * destruct (transports st !! k) eqn:Ek; simpl; [| done].
        rewrite !lookup_alter.
        repeat case_decide; subst; try done; by rewrite Hl.
      * by destruct (negb (truthy_string k) && isInit).
    + by destruct isInit.
  - unfold get_mcp_begin. destruct h as [k|]; [| done].
    destruct (negb (truthy_string k) || negb (has k st)); [done |].
    destruct (transports st !! k) eqn:Ek; simpl; [| done].
    rewrite lookup_alter. case_decide; subst; [by rewrite Hl | done].
  - unfold delete_mcp_begin. destruct h as [k|]; [| done].
    destruct (negb (truthy_string k)); [done |].
    by destruct (transports st !! k).
  - destruct (decide (k = sid)) as [-> | Hne];
      [apply lookup_delete_eq | by rewrite lookup_delete_ne].
  - simpl in Hni. by rewrite lookup_insert_ne.
  - unfold onclose. destruct k as [k|]; [| done].
    destruct (truthy_string k && has k st); [| done]. simpl.
    destruct (decide (k = sid)) as [-> | Hne];
      [apply lookup_delete_eq | by rewrite lookup_delete_ne].
  - by apply cleanup_absent.
Qed.

Lemma run_absent st (evs : list Event) sid :
  Forall (fun ev => ~ initializes sid ev) evs ->
  transports st !! sid = None ->
  transports (run st evs) !! sid = None.
Proof.
  revert st. induction evs as [| ev evs IH]; intros st Hall Hl; [done |].
  apply Forall_cons in Hall as [Hev Hall]. simpl.
  apply IH; [done |]. by apply step_absent.
Qed.


(** C9.  [DELETE /mcp]: without the session header the answer is 400;
    with the identifier of no registered session it is 404; with the
    identifier of a registered session the close of its protocol engine is
    called and, once that has settled either way, the session is deleted
    from the registry, so that a lookup of the identifier fails, and the
    answer is 204.  (An identifier is a non-empty header value.) *)
Theorem delete_mcp_answers st :
  (delete_mcp_begin None st
   = (DeleteDone, emit (Respond 400 (JsonError "Missing session ID")) st)) /\
  (forall sid,
      truthy_string sid = true ->
      transports st !! sid = None ->
      delete_mcp_begin (Some sid) st
      = (DeleteDone, emit (Respond 404 (JsonError "Session not found")) st)) /\
  (forall sid info,
      truthy_string sid = true ->
      transports st !! sid = Some info ->
      delete_mcp_begin (Some sid) st
      = (DeleteAwaitsClose sid, emit (ServerClose (server info)) st) /\
      forall (closed : Result unit) (st1 : State),
        let st2 := delete_mcp_resume sid closed st1 in
        transports st2 !! sid = None /\
        has sid st2 = false /\
        log st2 = log st1 ++ [RegistryDelete sid; Respond 204 NoBody]).
Proof.
  split; [done |]. split.
  - intros sid Ht Hl. unfold delete_mcp_begin. by rewrite Ht, Hl.
  - intros sid info Ht Hl. split.
    + unfold delete_mcp_begin. by rewrite Ht, Hl.
    + intros closed st1. simpl. split; [apply lookup_delete_eq |].
      split.
      * unfold has. apply bool_decide_eq_false_2. simpl.
        rewrite lookup_delete_eq. by intros [? ?].
      * by rewrite <- app_assoc.
Qed.

End SessionFacts.

(** ** The closest-match suggestion *)

Section LevenshteinFacts.
Import ReferenceAttributes.
Local Open Scope nat_scope.

(** *** The matrix tabulates the recurrence *)

Lemma recurrence_nil_r x : recurrence x [] = length x.
Proof. by destruct x. Qed.

Lemma recurrence_cons a b x y :
  recurrence (a :: x) (b :: y)
  = if Ascii.eqb a b then recurrence x y
    else min3 (recurrence x y + 1) (recurrence (a :: x) y + 1)
              (recurrence x (b :: y) + 1).
Proof. reflexivity. Qed.

Section Tabulation.
Variables s1 s2 : list ascii.

Local Abbreviation ideal := (ReferenceAttributes.ideal s1 s2).
Local Abbreviation doneRows := (ReferenceAttributes.doneRows s1 s2).
Local Abbreviation innerBody := (ReferenceAttributes.innerBody s1 s2).
Local Abbreviation outerBody := (ReferenceAttributes.outerBody s1 s2).

Lemma ideal_0_r i : i <= length s2 -> ideal i 0 = i.
Proof.
  intros Hi. unfold ReferenceAttributes.ideal. simpl. rewrite recurrence_nil_r.
  rewrite length_rev, length_take. lia.
Qed.

Lemma ideal_0_l j : j <= length s1 -> ideal 0 j = j.
Proof.
  intros Hj. unfold ReferenceAttributes.ideal. simpl. rewrite length_rev, length_take. lia.
Qed.

Lemma ideal_S_S i j a b :
  s2 !! i = Some a -> s1 !! j = Some b ->
  ideal (S i) (S j)
  = if Ascii.eqb a b then ideal i j
    else min3 (ideal i j + 1) (ideal (S i) j + 1) (ideal i (S j) + 1).
Proof.
  intros Ha Hb. unfold ReferenceAttributes.ideal.
  rewrite (take_S_r _ _ _ Ha), (take_S_r _ _ _ Hb), !rev_unit.
  apply recurrence_cons.
Qed.


Lemma length_doneRows i : length (doneRows i) = i.
Proof. unfold ReferenceAttributes.doneRows. by rewrite length_fmap, length_seq. Qed.

Lemma doneRows_S i :
  doneRows (S i) = doneRows i ++ [ideal i <$> seq 0 (S (length s1))].
Proof. unfold ReferenceAttributes.doneRows. by rewrite (seq_S i 0), fmap_app. Qed.

Lemma cell_done i (rest : list (list nat)) k j :
  k < i -> j <= length s1 -> cell (doneRows i ++ rest) k j = ideal k j.
Proof.
  intros Hk Hj. unfold cell.
  rewrite lookup_app_l by (by rewrite length_doneRows).
  unfold ReferenceAttributes.doneRows.
  rewrite list_lookup_fmap, lookup_seq_lt by done. cbn - [seq ideal].
  rewrite list_lookup_fmap, lookup_seq_lt by lia. done.
Qed.

Lemma cell_current i (row : list nat) (rest : list (list nat)) j :
  cell (doneRows i ++ [row] ++ rest) i j = default 0 (row !! j).
Proof.
  unfold cell. rewrite lookup_app_r by (by rewrite length_doneRows).
  rewrite length_doneRows, Nat.sub_diag. done.
Qed.

Lemma assign_current i (row : list nat) (rest : list (list nat)) j v :
  length row = j ->
  assign (doneRows i ++ [row] ++ rest) i j v
  = doneRows i ++ [row ++ [v]] ++ rest.
Proof.
  intros <-.
  unfold assign. rewrite alter_app_r_alt by (by rewrite length_doneRows).
  rewrite length_doneRows, Nat.sub_diag. simpl.
  by rewrite Nat.ltb_irrefl.
Qed.

Lemma first_loop (n a : nat) : forall acc : list (list nat),
  foldl (fun matrix i => matrix ++ [[i]]) acc (seq a n) = acc ++ todoRows a n.
Proof.
  revert a. induction n as [| n IH]; intros a acc; simpl.
  - by rewrite app_nil_r.
  - rewrite IH. unfold todoRows. rewrite <- app_assoc. done.
Qed.

Lemma second_loop (k : nat) : forall j0 (rest : list (list nat)),
  foldl (fun matrix j => assign matrix 0 j j) (seq 0 j0 :: rest) (seq j0 k)
  = seq 0 (j0 + k) :: rest.
Proof.
  induction k as [| k IH]; intros j0 rest; simpl.
  - by rewrite Nat.add_0_r.
  - rewrite length_seq, Nat.ltb_irrefl.
    change (seq 0 j0 ++ [j0]) with (seq 0 j0 ++ [0 + j0]).
    rewrite <- seq_S. rewrite IH. f_equal. f_equal. lia.
Qed.

Lemma row_0 : ideal 0 <$> seq 0 (S (length s1)) = seq 0 (S (length s1)).
Proof.
  apply list_eq. intros j. rewrite list_lookup_fmap.
  destruct (seq 0 (S (length s1)) !! j) as [x|] eqn:E; [| done]. simpl.
  apply lookup_seq in E as [-> Hj]. f_equal. apply ideal_0_l. lia.
Qed.

Lemma inner_loop i a (rest : list (list nat)) :
  s2 !! i = Some a ->
  forall k j,
    j + k <= length s1 ->
    foldl (innerBody (S i))
      (doneRows (S i) ++ [ideal (S i) <$> seq 0 (S j)] ++ rest)
      (seq (S j) k)
    = doneRows (S i) ++ [ideal (S i) <$> seq 0 (S (j + k))] ++ rest.
Proof.
  intros Ha. induction k as [| k IH]; intros j Hjk.
  - by rewrite Nat.add_0_r.
  - change (seq (S j) (S k)) with (S j :: seq (S (S j)) k). cbn [foldl].
    assert (Hb : is_Some (s1 !! j)) by (apply lookup_lt_is_Some; lia).
    destruct Hb as [b Hb].
    set (row := ideal (S i) <$> seq 0 (S j)).
    assert (Hlen : length row = S j)
      by (subst row; by rewrite length_fmap, length_seq).
    assert (Hstep : innerBody (S i) (doneRows (S i) ++ [row] ++ rest) (S j)
                    = doneRows (S i)
                        ++ [ideal (S i) <$> seq 0 (S (S j))] ++ rest).
    { unfold ReferenceAttributes.innerBody. cbn [Nat.sub]. rewrite !Nat.sub_0_r.
      rewrite (cell_done (S i) _ i j) by lia.
      rewrite (cell_done (S i) _ i (S j)) by lia.
      rewrite cell_current.
      assert (Hleft : default 0 (row !! j) = ideal (S i) j).
      { subst row. rewrite list_lookup_fmap, lookup_seq_lt by lia. done. }
      rewrite Hleft, Ha, Hb.
      rewrite !(assign_current _ _ _ _ _ Hlen).
      assert (Hrow : forall v, v = ideal (S i) (S j) ->
                 row ++ [v] = ideal (S i) <$> seq 0 (S (S j))).
      { intros v ->. subst row. by rewrite (seq_S (S j) 0), fmap_app. }
      rewrite (ideal_S_S i j a b Ha Hb) in Hrow.
      destruct (Ascii.eqb_spec a b) as [-> | Hne].
      - rewrite bool_decide_eq_true_2 by done. by rewrite (Hrow _ eq_refl).
      - rewrite bool_decide_eq_false_2 by congruence.
        by rewrite (Hrow _ eq_refl). }
    rewrite Hstep. rewrite IH by lia.
    by replace (S j + k) with (j + S k) by lia.
Qed.

Lemma outer_loop : forall k i,
  i + k = length s2 ->
  foldl outerBody (doneRows (S i) ++ todoRows (S i) k) (seq (S i) k)
  = doneRows (S (length s2)).
Proof.
  induction k as [| k IH]; intros i Hik.
  - simpl. rewrite app_nil_r. by replace (length s2) with i by lia.
  - unfold todoRows.
    change (seq (S i) (S k)) with (S i :: seq (S (S i)) k). cbn [foldl].
    rewrite fmap_cons. fold (todoRows (S (S i)) k).
    assert (Ha : is_Some (s2 !! i)) by (apply lookup_lt_is_Some; lia).
    destruct Ha as [a Ha].
    assert (Hrow : [S i] = ideal (S i) <$> seq 0 1).
    { change (seq 0 1) with [0]. rewrite fmap_cons. f_equal. symmetry.
      apply ideal_0_r. lia. }
    unfold ReferenceAttributes.outerBody at 2.
    change (doneRows (S i) ++ [S i] :: todoRows (S (S i)) k)
      with (doneRows (S i) ++ [[S i]] ++ todoRows (S (S i)) k).
    rewrite Hrow.
    rewrite (inner_loop i a _ Ha (length s1) 0) by lia.
    rewrite Nat.add_0_l, app_assoc, <- doneRows_S.
    apply IH. lia.
Qed.

Lemma tabulated :
  cell (foldl outerBody
          (foldl (fun matrix j => assign matrix 0 j j)
             (foldl (fun matrix i => matrix ++ [[i]]) []
                (seq 0 (S (length s2))))
             (seq 0 (S (length s1))))
          (seq 1 (length s2)))
       (length s2) (length s1)
  = recurrence (rev s2) (rev s1).
Proof.
  rewrite first_loop. unfold todoRows at 1.
  change (seq 0 (S (length s2))) with (0 :: seq 1 (length s2)).
  change (seq 0 (S (length s1))) with (0 :: seq 1 (length s1)).
  rewrite fmap_cons. fold (todoRows 1 (length s2)). cbn [app foldl].
  unfold assign at 2. cbn [alter list_alter length Nat.ltb Nat.leb].
  change (<[0:=0]> [0]) with (seq 0 1).
  rewrite (second_loop (length s1) 1). cbn [Nat.add].
  rewrite <- row_0.
  change ((ideal 0 <$> seq 0 (S (length s1))) :: todoRows 1 (length s2))
    with (doneRows 1 ++ todoRows 1 (length s2)).
  rewrite (outer_loop (length s2) 0) by lia.
  rewrite <- (app_nil_r (doneRows _)).
  rewrite cell_done by lia.
  unfold ReferenceAttributes.ideal. by rewrite !firstn_all.
Qed.

End Tabulation.

Lemma levenshteinDistance_recurrence str1 str2 :
  levenshteinDistance str1 str2
  = recurrence (rev (list_ascii_of_string str2))
               (rev (list_ascii_of_string str1)).
Proof. unfold levenshteinDistance. apply tabulated. Qed.

(** *** The recurrence is the least number of edits *)

Lemma edits_recurrence x : forall y, edits x y (recurrence x y).
Proof.
  induction x as [| a x IHx].
  - induction y as [| b y IHy]; [constructor |].
    apply (edits_insert b [] y (length y)), IHy.
  - induction y as [| b y IHy].
    + rewrite recurrence_nil_r. cbn [length]. apply edits_delete.
      rewrite <- (recurrence_nil_r x). apply IHx.
    + rewrite recurrence_cons.
      destruct (Ascii.eqb_spec a b) as [-> | Hne].
      * apply edits_keep, IHx.
      * unfold min3.
        destruct (Nat.min_spec (recurrence x y + 1) (recurrence (a :: x) y + 1))
          as [[_ ->] | [_ ->]];
        match goal with
        | |- edits _ _ (Nat.min ?u ?v) =>
            destruct (Nat.min_spec u v) as [[_ ->] | [_ ->]]
        end;
        rewrite Nat.add_1_r;
        first [ apply edits_substitute, IHx
              | apply edits_insert, IHy
              | apply edits_delete, IHx ].
Qed.

Lemma recurrence_neighbours n : forall x y,
  length x + length y <= n ->
  (forall a, recurrence (a :: x) y <= S (recurrence x y)) /\
  (forall b, recurrence x y <= S (recurrence x (b :: y))) /\
  (forall b, recurrence x (b :: y) <= S (recurrence x y)) /\
  (forall a, recurrence x y <= S (recurrence (a :: x) y)).
Proof.
  induction n as [| n IH]; intros x y Hlen.
  - destruct x, y; simpl in Hlen; try lia.
    repeat split; intros; simpl; lia.
  - split; [| split; [| split]].
    + (* one more character in front of [x] *)
      intros a. destruct y as [| b y].
      * rewrite !recurrence_nil_r. simpl. lia.
      * rewrite recurrence_cons. simpl in Hlen.
        destruct (Ascii.eqb a b).
        -- destruct (IH x y ltac:(lia)) as (_ & H & _). apply H.
        -- unfold min3. lia.
    + intros b. destruct x as [| a x].
      * simpl. lia.
      * rewrite recurrence_cons. simpl in Hlen.
        destruct (IH x y ltac:(lia)) as (H1 & H4 & _).
        specialize (H1 a). specialize (H4 b).
        destruct (Ascii.eqb a b); [done |]. unfold min3. lia.
    + intros b. destruct x as [| a x].
      * simpl. lia.
      * rewrite recurrence_cons. simpl in Hlen.
        destruct (Ascii.eqb a b).
        -- destruct (IH x y ltac:(lia)) as (_ & _ & _ & H). apply H.
        -- unfold min3. lia.
    + intros a. destruct y as [| b y].
      * rewrite !recurrence_nil_r. simpl. lia.
      * rewrite recurrence_cons. simpl in Hlen.
        destruct (IH x y ltac:(lia)) as (_ & _ & H2 & H3).
        specialize (H2 b). specialize (H3 a).
        destruct (Ascii.eqb a b); [done |]. unfold min3. lia.
Qed.

Lemma recurrence_least x y n : edits x y n -> recurrence x y <= n.
Proof.
  induction 1 as [| a s t n _ IH | a b s t n _ IH | a s t n _ IH
                  | b s t n _ IH].
  - done.
  - rewrite recurrence_cons. by rewrite Ascii.eqb_refl.
  - rewrite recurrence_cons. destruct (Ascii.eqb a b); [lia |].
    unfold min3. lia.
  - destruct (recurrence_neighbours _ s t (le_n _)) as (H & _).
    specialize (H a). lia.
  - destruct (recurrence_neighbours _ s t (le_n _)) as (_ & _ & H & _).
    specialize (H b). lia.
Qed.

(** *** Edits read backwards, and in the other direction *)

Lemma edits_snoc s t n :
  edits s t n ->
  (forall a, edits (s ++ [a]) (t ++ [a]) n) /\
  (forall a b, edits (s ++ [a]) (t ++ [b]) (S n)) /\
  (forall a, edits (s ++ [a]) t (S n)) /\
  (forall b, edits s (t ++ [b]) (S n)).
Proof.
  induction 1 as [| a' s t n _ (I1 & I2 & I3 & I4)
                  | a' b' s t n _ (I1 & I2 & I3 & I4)
                  | a' s t n _ (I1 & I2 & I3 & I4)
                  | b' s t n _ (I1 & I2 & I3 & I4)].
  - repeat split; intros; simpl; repeat constructor.
  - repeat split; intros; simpl; by apply edits_keep.
  - repeat split; intros; simpl; by apply edits_substitute.
  - repeat split; intros; simpl; by apply edits_delete.
  - repeat split; intros; simpl; by apply edits_insert.
Qed.

Lemma edits_rev s t n : edits s t n -> edits (rev s) (rev t) n.
Proof.
  induction 1 as [| a s t n _ IH | a b s t n _ IH | a s t n _ IH
                  | b s t n _ IH]; simpl;
    [constructor | destruct (edits_snoc _ _ _ IH) as (H1 & H2 & H3 & H4) ..].
  - apply H1.
  - apply H2.
  - apply H3.
  - apply H4.
Qed.

Lemma edits_sym s t n : edits s t n -> edits t s n.
Proof. induction 1; by constructor. Qed.

(** [levenshteinDistance(str1, str2)] is the edit distance of the two
    strings: that many edits transform [str1] into [str2], and no fewer
    do. *)
Lemma levenshteinDistance_is_edit_distance str1 str2 :
  let s1 := list_ascii_of_string str1 in
  let s2 := list_ascii_of_string str2 in
  edits s1 s2 (levenshteinDistance str1 str2) /\
  forall n, edits s1 s2 n -> levenshteinDistance str1 str2 <= n.
Proof.
  intros s1 s2. rewrite levenshteinDistance_recurrence. fold s1 s2. split.
  - apply edits_sym.
    pose proof (edits_rev _ _ _ (edits_recurrence (rev s2) (rev s1))) as H.
    by rewrite !rev_involutive in H.
  - intros n Hn. apply recurrence_least, edits_rev, edits_sym, Hn.
Qed.

End LevenshteinFacts.

Section SuggestionFacts.
Import JsString ReferenceAttributes.

(** *** The sort puts a highest score first *)

Lemma elem_of_insertSorted a (l : list (string * Q)) x :
  x ∈ insertSorted a l <-> x = a \/ x ∈ l.
Proof.
  induction l as [| b l IH]; simpl.
  - rewrite list_elem_of_singleton. split; [by left | intros [|H]; [done |]].
    by apply elem_of_nil in H.
  - destruct (Qle_bool (comparator a b) 0).
    + by rewrite elem_of_cons.
    + rewrite !elem_of_cons, IH. tauto.
Qed.

Lemma elem_of_sort (l : list (string * Q)) x : x ∈ sort l <-> x ∈ l.
Proof.
  induction l as [| a l IH]; simpl; [done |].
  rewrite elem_of_insertSorted, elem_of_cons, IH. tauto.
Qed.

Lemma insertSorted_head a (l : list (string * Q)) :
  head_is_highest l -> head_is_highest (insertSorted a l).
Proof.
  destruct l as [| b l]; simpl.
  - intros _ x Hx. apply list_elem_of_singleton in Hx as ->. lra.
  - intros Hb. destruct (Qle_bool (comparator a b) 0) eqn:E.
    + apply Qle_bool_iff in E. unfold comparator in E.
      intros x Hx. apply elem_of_cons in Hx as [-> | Hx]; [lra |].
      specialize (Hb x Hx). lra.
    + assert (Hlt : ~ (comparator a b <= 0)%Q).
      { intros H. apply Qle_bool_iff in H. congruence. }
      unfold comparator in Hlt.
      intros x Hx. apply elem_of_cons in Hx as [-> | Hx]; [lra |].
      apply elem_of_insertSorted in Hx as [-> | Hx]; [lra |].
      apply Hb. by right.
Qed.

Lemma sort_head (l : list (string * Q)) : head_is_highest (sort l).
Proof.
  induction l as [| a l IH]; simpl; [done |]. by apply insertSorted_head.
Qed.

Lemma sort_first (l : list (string * Q)) :
  l <> [] ->
  exists best rest,
    sort l = best :: rest /\ best ∈ l /\
    forall x, x ∈ l -> (snd x <= snd best)%Q.
Proof.
  intros Hne. pose proof (sort_head l) as Hh.
  destruct (sort l) as [| best rest] eqn:E.
  - destruct l as [| a l]; [done |].
    assert (a ∈ sort (a :: l)) by (apply elem_of_sort; left).
    rewrite E in *. by apply elem_of_nil in H.
  - exists best, rest. split; [done |]. split.
    + apply elem_of_sort. rewrite E. left.
    + intros x Hx. apply Hh. rewrite <- E. by apply elem_of_sort.
Qed.

(** *** [includes] is the substring test *)

Lemma prefix_app (p s : string) :
  String.prefix p s = true <-> exists post, s = p +:+ post.
Proof.
  revert s. induction p as [| c p IH]; intros s.
  - split; [intros _; by exists s | intros _; by destruct s].
  - destruct s as [| d s]; simpl; [split; [done | intros [? [=]]] |].
    destruct (ascii_dec c d) as [-> | Hne].
    + rewrite IH. split; intros [post H]; exists post.
      * by rewrite H.
      * simpl in H. by injection H.
    + split; [done | intros [? [=]]; congruence].
Qed.

Lemma includes_spec (s search : string) :
  includes s search = true <->
  exists pre post, s = pre +:+ search +:+ post.
Proof.
  induction s as [| c s IH].
  - change (includes "" search) with (String.prefix search "" || false).
    rewrite orb_false_r. rewrite prefix_app. split.
    + intros [post ->]. by exists "", post.
    + intros (pre & post & H). destruct pre; simpl in H; [| done].
      by exists post.
  - change (includes (String c s) search)
      with (String.prefix search (String c s) || includes s search).
    rewrite orb_true_iff, prefix_app, IH. split.
    + intros [[post ->] | (pre & post & ->)].
      * by exists "", post.
      * by exists (String c pre), post.
    + intros (pre & post & H). destruct pre as [| d pre]; simpl in H.
      * left. by exists post.
      * right. injection H as -> ->. by exists pre, post.
Qed.

(** *** The score *)

Lemma calculateSimilarity_formula (a b : string) :
  let m := Nat.max (String.length a) (String.length b) in
  (m <> 0)%nat ->
  (calculateSimilarity a b ==
   1 - inject_Z (Z.of_nat (levenshteinDistance a b)) / inject_Z (Z.of_nat m))%Q.
Proof.
  intros m Hm. unfold calculateSimilarity. fold m.
  destruct (Nat.eqb_spec m 0); [done | reflexivity].
Qed.

(** *** The three stages of [findSimilarMatch] *)

Lemma truthy_nonempty (o : string) : o <> "" -> truthy_string o = true.
Proof. by destruct o. Qed.

Lemma find_truthy (f : string -> bool) (options : list string) o :
  Forall (fun o => o <> "") options ->
  List.find f options = Some o ->
  truthy_opt_string (Some o) = true.
Proof.
  intros Hall Hf. apply find_some in Hf as [Hin _].
  apply truthy_nonempty. rewrite Forall_forall in Hall.
  by apply Hall, list_elem_of_In.
Qed.

Lemma find_exists (f : string -> bool) (options : list string) :
  Exists (fun o => f o = true) options ->
  exists o, List.find f options = Some o /\ o ∈ options /\ f o = true.
Proof.
  intros Hex. destruct (List.find f options) as [o|] eqn:E.
  - exists o. split; [done |]. apply find_some in E as [Hin Hf].
    split; [by apply list_elem_of_In | done].
  - apply Exists_exists in Hex as (o & Hin & Hf).
    apply list_elem_of_In in Hin.
    pose proof (find_none _ _ E o Hin). congruence.
Qed.

Lemma find_not_exists (f : string -> bool) (options : list string) :
  ~ Exists (fun o => f o = true) options -> List.find f options = None.
Proof.
  intros Hno. destruct (List.find f options) as [o|] eqn:E; [| done].
  apply find_some in E as [Hin Hf]. destruct Hno.
  apply Exists_exists. exists o. split; [by apply list_elem_of_In | done].
Qed.

(** C3 (as amended).  For every target and every non-empty list of
    non-empty candidates, [findSimilarMatch] with the threshold [0.6]
    returns: a candidate equal to the target up to case if there is one;
    otherwise a candidate that contains the target or is contained in it,
    up to case, if there is one; otherwise a candidate of highest score if
    that score is at least [0.6], and no suggestion if it is not.  The
    score of a candidate is [1 - distance / max length] for the lowercased
    strings, where [distance], the result of [levenshteinDistance], is the
    least number of single-character edits that transform one into the
    other.  The three examples evaluate as stated. *)
Theorem findSimilarMatch_stages :
  (forall (target : string) (options : list string),
      options <> [] ->
      Forall (fun o => o <> "") options ->
      let result := findSimilarMatch target options defaultThreshold in
      let exact o := toLowerCase o = toLowerCase target in
      let contains o :=
        includes (toLowerCase o) (toLowerCase target)
        || includes (toLowerCase target) (toLowerCase o) = true in
      let score o :=
        calculateSimilarity (toLowerCase target) (toLowerCase o) in
      (forall o, o ∈ options ->
         let a := toLowerCase target in
         let b := toLowerCase o in
         let distance := levenshteinDistance a b in
         edits (list_ascii_of_string a) (list_ascii_of_string b) distance /\
         (forall n, edits (list_ascii_of_string a) (list_ascii_of_string b) n ->
                    (distance <= n)%nat) /\
         (score o ==
          1 - inject_Z (Z.of_nat distance)
              / inject_Z (Z.of_nat (Nat.max (String.length a)
                                            (String.length b))))%Q) /\
      (Exists exact options ->
       exists o, result = Some o /\ o ∈ options /\ exact o) /\
      (~ Exists exact options -> Exists contains options ->
       exists o, result = Some o /\ o ∈ options /\ contains o) /\
      (~ Exists exact options -> ~ Exists contains options ->
       exists best,
         best ∈ options /\
         (forall o, o ∈ options -> (score o <= score best)%Q) /\
         ((6 # 10 <= score best)%Q -> result = Some best) /\
         (~ (6 # 10 <= score best)%Q -> result = None))) /\
  findSimilarMatch "IT support group"
    ["IT"; "Customer Support"; "Cloud Operations"] defaultThreshold
  = Some "IT" /\
  findSimilarMatch "Servis Requst" ["Service Request"; "Incident"]
    defaultThreshold
  = Some "Service Request" /\
  findSimilarMatch "Zzzzz" ["IT"; "HR"] defaultThreshold = None.
Proof.
  split; [| by vm_compute].
  intros target options Hne Hall result exact contains score.
  assert (Hlen : (length options =? 0)%nat = false)
    by (destruct options; [done | reflexivity]).
  assert (Hexact : forall o,
             String.eqb (toLowerCase o) (toLowerCase target) = true
             <-> exact o) by (intros o; apply String.eqb_eq).
  split; [| split; [| split]].
  - (* the score is built on the edit distance *)
    intros o Ho a b distance.
    destruct (levenshteinDistance_is_edit_distance a b) as [Hd Hmin].
    split; [exact Hd |]. split; [exact Hmin |].
    apply calculateSimilarity_formula.
    assert (o <> "") by (rewrite Forall_forall in Hall; by apply Hall).
    subst b. destruct o; [done |]. simpl. lia.
  - (* an exact match exists *)
    intros Hex.
    destruct (find_exists
                (fun opt => String.eqb (toLowerCase opt) (toLowerCase target))
                options) as (o & Hfind & Hin & Ho).
    { eapply Exists_impl; [exact Hex |]. intros o. apply Hexact. }
    exists o. split; [| split; [done | by apply Hexact]].
    subst result. unfold findSimilarMatch. rewrite Hlen. simpl.
    rewrite Hfind. by rewrite (find_truthy _ _ _ Hall Hfind).
  - (* no exact match, a containment *)
    intros Hnex Hex.
    assert (Hf1 : List.find
               (fun opt => String.eqb (toLowerCase opt) (toLowerCase target))
               options = None).
    { apply find_not_exists. intros H. apply Hnex.
      eapply Exists_impl; [exact H |]. intros o. apply Hexact. }
    destruct (find_exists
                (fun opt => includes (toLowerCase opt) (toLowerCase target)
                            || includes (toLowerCase target) (toLowerCase opt))
                options Hex) as (o & Hfind & Hin & Ho).
    exists o. split; [| by split].
    subst result. unfold findSimilarMatch. rewrite Hlen. simpl.
    rewrite Hf1. simpl. rewrite Hfind.
    by rewrite (find_truthy _ _ _ Hall Hfind).
  - (* neither: the scores decide *)
    intros Hnex Hncont.
    assert (Hf1 : List.find
               (fun opt => String.eqb (toLowerCase opt) (toLowerCase target))
               options = None).
    { apply find_not_exists. intros H. apply Hnex.
      eapply Exists_impl; [exact H |]. intros o. apply Hexact. }
    assert (Hf2 : List.find
               (fun opt => includes (toLowerCase opt) (toLowerCase target)
                           || includes (toLowerCase target) (toLowerCase opt))
               options = None) by (by apply find_not_exists).
    set (sims := map (fun option => (option, score option)) options).
    destruct (sort_first sims) as (best & rest & Hsort & Hbest & Hmax).
    { subst sims. by destruct options. }
    apply list_elem_of_fmap in Hbest as (b & -> & Hb).
    exists b. split; [done |]. split.
    { intros o Ho. apply (Hmax (o, score o)).
      apply list_elem_of_fmap. by exists o. }
    assert (Hres : result
                   = if Qle_bool defaultThreshold (score b)
                     then Some b else None).
    { subst result. unfold findSimilarMatch. rewrite Hlen. simpl.
      rewrite Hf1. simpl. rewrite Hf2. simpl.
      change (map _ options) with sims. by rewrite Hsort. }
    rewrite Hres. split.
    + intros Hge. apply Qle_bool_iff in Hge.
      unfold defaultThreshold. by rewrite Hge.
    + intros Hlt. destruct (Qle_bool defaultThreshold (score b)) eqn:E;
        [| done].
      apply Qle_bool_iff in E. by destruct Hlt.
Qed.

End SuggestionFacts.

(** C3 as stated fails for a candidate that is the empty string: it is
    contained in every target, it is passed over, and the result is
    decided by the scores. *)
Lemma findSimilarMatch_empty_candidate :
  let target := "abc" in
  let options := [""; "abd"] in
  let contains o :=
    JsString.includes (JsString.toLowerCase o)
                             (JsString.toLowerCase target)
    || JsString.includes (JsString.toLowerCase target)
                                (JsString.toLowerCase o) in
  Forall (fun o => JsString.toLowerCase o
                   <> JsString.toLowerCase target) options /\
  contains "" = true /\
  contains "abd" = false /\
  ReferenceAttributes.findSimilarMatch target options
    ReferenceAttributes.defaultThreshold = Some "abd".
Proof.
  vm_compute. split; [| by repeat split].
  repeat constructor; discriminate.
Qed.

Lemma findSimilarMatch_stages_witness :
  ReferenceAttributes.findSimilarMatch "Priority" ["Low"; "priority"; "High"]
    ReferenceAttributes.defaultThreshold = Some "priority".
Proof.
  destruct findSimilarMatch_stages as [H _].
  destruct (H "Priority" ["Low"; "priority"; "High"]) as (_ & Hexact & _).
  - discriminate.
  - repeat constructor; discriminate.
  - destruct Hexact as (o & -> & Hin & Ho).
    + apply Exists_cons_tl, Exists_cons_hd. reflexivity.
    + f_equal.
      repeat (apply elem_of_cons in Hin as [-> | Hin]; [try discriminate |]);
        [reflexivity | by apply elem_of_nil in Hin].
Defined.

(** ** The retry on an authorization failure *)

Section ClientFacts.
Import AuthManager EfecteApiClient.
Variable efecteConfig : Config.EfecteConfig.

Local Abbreviation getToken := (EfecteApiClient.getToken efecteConfig).
Local Abbreviation requestInterceptor :=
  (EfecteApiClient.requestInterceptor efecteConfig).
Local Abbreviation responseRejected :=
  (EfecteApiClient.responseRejected efecteConfig).
Local Abbreviation request := (EfecteApiClient.request efecteConfig).

Lemma quiet_refl w : quiet w w.
Proof. repeat split. exists []. by rewrite app_nil_r. Qed.

Lemma dispatches_app tr1 tr2 :
  dispatches (tr1 ++ tr2) = dispatches tr1 ++ dispatches tr2.
Proof.
  induction tr1 as [| e tr1 IH]; simpl; [done |].
  destruct e; simpl; by rewrite IH.
Qed.

Lemma quiet_trans w1 w2 w3 : quiet w1 w2 -> quiet w2 w3 -> quiet w1 w3.
Proof.
  intros (Hl1 & Ha1 & tr1 & Ht1 & Hd1) (Hl2 & Ha2 & tr2 & Ht2 & Hd2).
  split; [congruence |]. split; [congruence |].
  exists (tr1 ++ tr2). split.
  - rewrite Ht2, Ht1. by rewrite app_assoc.
  - rewrite dispatches_app, Hd1, Hd2. done.
Qed.

Lemma ltb_succ (n : nat) : (n <? S n)%nat = true.
Proof. apply Nat.ltb_lt. lia. Qed.

Lemma bind_ok {A B} (m : M A) (k : A -> M B) w a w' :
  m w = Some (Ok a, w') -> bind m k w = k a w'.
Proof. unfold bind. by intros ->. Qed.

Lemma bind_throw {A B} (m : M A) (k : A -> M B) w e w' :
  m w = Some (Throw e, w') -> bind m k w = Some (Throw e, w').
Proof. unfold bind. by intros ->. Qed.

(** *** [getToken()] as the client awaits it *)

(** With no marker set and no token in the cache, a login exchange is
    issued and its token is what the caller gets. *)
Lemma getToken_after_clear w tk :
  let s := authManager w in
  authPromise (this s) = None ->
  tokenCache (this s) !! "token" = None ->
  carried_token (loginNet w (loginRequests s)) = Some tk ->
  exists w',
    getToken w = Some (Ok (bearer tk), w') /\
    trace w' = trace w ++ [LoginIssued (loginRequests s)] /\
    loginNet w' = loginNet w /\ apiNet w' = apiNet w /\
    authPromise (this (authManager w')) = None /\
    loginRequests (authManager w') = S (loginRequests s) /\
    (forall e, tokenCache (this (authManager w')) !! "token" = Some e ->
               Cache.value e = bearer tk).
Proof.
  intros s Hnone Hcache Hr.
  assert (Hf : AuthManager.fresh_enough efecteConfig
                 (cachedToken (clock w (ticks w)) s)
                 (clock w (S (ticks w))) s = false).
  { unfold cachedToken. by rewrite get_absent. }
  pose proof (getToken_slow efecteConfig _ _ _ Hf) as Hg.
  fold s in Hg. rewrite Hnone in Hg. simpl in Hg.
  unfold EfecteApiClient.getToken. fold s. rewrite Hg. simpl.
  rewrite ltb_succ. simpl.
  unfold await. simpl. rewrite lookup_insert_eq.
  unfold AuthManager.settle. simpl. rewrite lookup_insert_eq.
  rewrite (authenticate_resume_ok efecteConfig _ _ _ _ _ Hr). simpl.
  rewrite lookup_insert_eq.
  eexists. split; [reflexivity |]. simpl.
  repeat split; try done.
  intros e. unfold Cache.set. rewrite lookup_insert_eq. by intros [= <-].
Qed.

(** With no marker set, and a cached token (if any) that exchange [p] or
    a later one brought, the caller gets such a token. *)
Lemma getToken_obtained w p :
  let s := authManager w in
  authPromise (this s) = None ->
  (forall e, tokenCache (this s) !! "token" = Some e ->
             obtained_from w p (Cache.value e)) ->
  (p <= loginRequests s)%nat ->
  (forall q, carried_token (loginNet w q) <> None) ->
  exists token w',
    getToken w = Some (Ok token, w') /\
    obtained_from w p token /\ quiet w w'.
Proof.
  intros s Hnone Hcache Hp Hlogin.
  destruct (AuthManager.fresh_enough efecteConfig
              (cachedToken (clock w (ticks w)) s)
              (clock w (S (ticks w))) s) eqn:Hf.
  - pose proof Hf as Hf'.
    apply fresh_enough_spec in Hf' as (tok & Hc & _ & _).
    rewrite Hc in Hf.
    pose proof (getToken_fast efecteConfig _ _ _ _ Hc Hf) as Hg.
    unfold EfecteApiClient.getToken. fold s. rewrite Hg. simpl.
    rewrite Nat.ltb_irrefl.
    eexists _, _. split; [reflexivity |]. split.
    + apply get_hit_inv in Hc as (e & He & <- & _). by apply Hcache.
    + repeat split. by exists [].
  - pose proof (getToken_slow efecteConfig _ _ _ Hf) as Hg.
    fold s in Hg. rewrite Hnone in Hg. simpl in Hg.
    destruct (carried_token (loginNet w (loginRequests s))) as [tk|] eqn:Hr;
      [| by destruct (Hlogin (loginRequests s))].
    unfold EfecteApiClient.getToken. fold s. rewrite Hg. simpl.
    rewrite ltb_succ. simpl.
    unfold await. simpl. rewrite lookup_insert_eq.
    unfold AuthManager.settle. simpl. rewrite lookup_insert_eq.
    rewrite (authenticate_resume_ok efecteConfig _ _ _ _ _ Hr). simpl.
    rewrite lookup_insert_eq.
    eexists _, _. split; [reflexivity |]. split.
    + by exists (loginRequests s), tk.
    + repeat split. by exists [LoginIssued (loginRequests s)].
Qed.

(** In every state that satisfies the invariant, and when every login
    exchange brings a token, the caller gets a token. *)
Lemma getToken_total w :
  AuthManager.invariant (authManager w) ->
  (forall q, carried_token (loginNet w q) <> None) ->
  exists token w', getToken w = Some (Ok token, w') /\ quiet w w'.
Proof.
  intros Hinv Hlogin. set (s := authManager w).
  destruct (AuthManager.fresh_enough efecteConfig
              (cachedToken (clock w (ticks w)) s)
              (clock w (S (ticks w))) s) eqn:Hf.
  - pose proof Hf as Hf'.
    apply fresh_enough_spec in Hf' as (tok & Hc & _ & _).
    rewrite Hc in Hf.
    pose proof (getToken_fast efecteConfig _ _ _ _ Hc Hf) as Hg.
    unfold EfecteApiClient.getToken. fold s. rewrite Hg. simpl.
    rewrite Nat.ltb_irrefl.
    eexists _, _. split; [reflexivity |].
    repeat split. by exists [].
  - pose proof (getToken_slow efecteConfig _ _ _ Hf) as Hg.
    fold s in Hg. simpl in Hg.
    destruct (authPromise (this s)) as [p|] eqn:Hp.
    + (* an exchange is in flight: it settles *)
      destruct Hinv as (_ & Hm & _ & _). specialize (Hm p Hp).
      fold s in Hm.
      destruct (carried_token (loginNet w p)) as [tk|] eqn:Hr;
        [| by destruct (Hlogin p)].
      unfold EfecteApiClient.getToken. fold s. rewrite Hg. simpl.
      rewrite Nat.ltb_irrefl. simpl.
      unfold await. simpl. rewrite Hm.
      unfold AuthManager.settle. simpl. rewrite Hm.
      rewrite (authenticate_resume_ok efecteConfig _ _ _ _ _ Hr). simpl.
      rewrite lookup_insert_eq.
      eexists _, _. split; [reflexivity |].
      repeat split. by exists [].
    + destruct (carried_token (loginNet w (loginRequests s))) as [tk|] eqn:Hr;
        [| by destruct (Hlogin (loginRequests s))].
      unfold EfecteApiClient.getToken. fold s. rewrite Hg. simpl.
      rewrite ltb_succ. simpl.
      unfold await. simpl. rewrite lookup_insert_eq.
      unfold AuthManager.settle. simpl. rewrite lookup_insert_eq.
      rewrite (authenticate_resume_ok efecteConfig _ _ _ _ _ Hr). simpl.
      rewrite lookup_insert_eq.
      eexists _, _. split; [reflexivity |].
      repeat split. by exists [LoginIssued (loginRequests s)].
Qed.

(** *** The interceptors *)

Lemma requestInterceptor_total c w :
  AuthManager.invariant (authManager w) ->
  (forall q, carried_token (loginNet w q) <> None) ->
  exists c1 w',
    requestInterceptor c w = Some (Ok c1, w') /\
    url c1 = url c /\ method c1 = method c /\ hdrXRetry c1 = hdrXRetry c /\
    quiet w w'.
Proof.
  intros Hinv Hlogin. unfold EfecteApiClient.requestInterceptor.
  destruct (truthy_opt_string (url c)
            && negb (url_includes "/users/login" (url c))
            && negb (url_includes "/echo" (url c))).
  - destruct (getToken_total w Hinv Hlogin) as (token & w' & Hg & Hq).
    rewrite (bind_ok _ _ _ _ _ (bind_ok _ _ _ _ _ Hg)).
    unfold ret at 1. cbv beta.
    eexists _, _. split; [reflexivity |].
    by destruct (negb (truthy_opt_number (reqTimeout _))).
  - unfold bind, ret. eexists _, _. split; [reflexivity |].
    destruct (negb (truthy_opt_number (reqTimeout c))); simpl;
      repeat split; apply quiet_refl.
Qed.

Lemma requestInterceptor_retry c w p token0 :
  let s := authManager w in
  authPromise (this s) = None ->
  (forall e, tokenCache (this s) !! "token" = Some e ->
             obtained_from w p (Cache.value e)) ->
  (p <= loginRequests s)%nat ->
  (forall q, carried_token (loginNet w q) <> None) ->
  hdrAuthorization c = Some token0 ->
  obtained_from w p token0 ->
  exists c2 w' token,
    requestInterceptor c w = Some (Ok c2, w') /\
    url c2 = url c /\ method c2 = method c /\ hdrXRetry c2 = hdrXRetry c /\
    hdrAuthorization c2 = Some token /\ obtained_from w p token /\
    quiet w w'.
Proof.
  intros s Hnone Hcache Hp Hlogin Hauth Hfrom.
  unfold EfecteApiClient.requestInterceptor.
  destruct (truthy_opt_string (url c)
            && negb (url_includes "/users/login" (url c))
            && negb (url_includes "/echo" (url c))).
  - destruct (getToken_obtained w p Hnone Hcache Hp Hlogin)
      as (token & w' & Hg & Hfrom' & Hq).
    rewrite (bind_ok _ _ _ _ _ (bind_ok _ _ _ _ _ Hg)).
    unfold ret at 1. cbv beta.
    eexists _, _, token. split; [reflexivity |].
    by destruct (negb (truthy_opt_number (reqTimeout _))).
  - unfold bind, ret. eexists _, _, token0. split; [reflexivity |].
    destruct (negb (truthy_opt_number (reqTimeout c))); simpl;
      repeat split; try done; apply quiet_refl.
Qed.

Lemma dispatchRequest_run c w :
  dispatchRequest c w
  = Some (match apiNet w (length (dispatches (trace w))) c with
          | Answered response => Ok response
          | Failed code message status =>
              Throw (axiosError c code message status)
          end,
          emit [Dispatched c] w).
Proof.
  unfold EfecteApiClient.dispatchRequest.
  by destruct (apiNet w (length (dispatches (trace w))) c).
Qed.

(** For a request that carries the retry mark, the error handler ends
    by throwing, whatever the error; an error that is neither a timeout
    nor a network error is thrown as it is. *)
Lemma responseRejected_marked rq error c w :
  config error = Some c ->
  truthy_opt_string (hdrXRetry c) = true ->
  exists e w',
    responseRejected rq error w = Some (Throw e, w') /\ quiet w w' /\
    (plain (code error) (message error) -> e = error).
Proof.
  intros Hc Hx. unfold EfecteApiClient.responseRejected.
  destruct (bool_decide (code error = Some "ECONNABORTED")
            || JsString.includes (message error) "timeout") eqn:E1.
  { eexists _, _. split; [reflexivity |]. split; [apply quiet_refl |].
    intros (H1 & H2 & _). apply orb_true_iff in E1 as [E1 | E1].
    - by apply bool_decide_eq_true_1 in E1.
    - congruence. }
  destruct (bool_decide (code error = Some "ENOTFOUND")
            || bool_decide (code error = Some "ECONNREFUSED")
            || bool_decide (code error = Some "ECONNRESET")) eqn:E2.
  { eexists _, _. split; [reflexivity |]. split; [apply quiet_refl |].
    intros (_ & _ & H3 & H4 & H5).
    apply orb_true_iff in E2 as [E2 | E2];
      [apply orb_true_iff in E2 as [E2 | E2] |];
      by apply bool_decide_eq_true_1 in E2. }
  destruct (responseStatus error) as [status|];
    [| eexists _, _; split; [reflexivity |]; split; [apply quiet_refl | done]].
  destruct ((status =? 401)
            && negb (url_includes "/users/login" (error_url error)));
    [| eexists _, _; split; [reflexivity |]; split; [apply quiet_refl | done]].
  rewrite Hc, Hx. simpl.
  eexists _, _. split; [reflexivity |]. split; [| done].
  repeat split. by exists [ClearedToken].
Qed.

(** *** No request is dispatched more than twice *)

Lemma authenticate_catch_no_response error :
  isAxiosError error = true \/ responseStatus error = None ->
  responseStatus (authenticate_catch error) = None.
Proof.
  unfold authenticate_catch. intros [H | H].
  - rewrite H. by destruct (bool_decide (responseStatus error = Some 401)).
  - destruct (isAxiosError error); [| done].
    by destruct (bool_decide (responseStatus error = Some 401)).
Qed.

Lemma settle_result_no_response w p e tset trec s :
  login_errors_plain w ->
  fst (AuthManager.authenticate_resume efecteConfig (loginNet w p) tset trec s)
  = Throw e ->
  responseStatus e = None.
Proof.
  intros Hplain.
  destruct (carried_token (loginNet w p)) as [tk|] eqn:Hr.
  - by rewrite (authenticate_resume_ok efecteConfig _ _ _ _ _ Hr).
  - rewrite (authenticate_resume_throw efecteConfig _ _ _ _ Hr). simpl.
    intros [= <-]. destruct (loginNet w p) as [d h | err] eqn:Hn; [done |].
    apply authenticate_catch_no_response. by apply (Hplain p).
Qed.

(** Whatever the login endpoint does, the awaited [getToken()] ends. *)
Lemma getToken_settles w :
  AuthManager.invariant (authManager w) ->
  login_errors_plain w ->
  exists r w',
    getToken w = Some (r, w') /\
    AuthManager.invariant (authManager w') /\ quiet w w' /\
    (forall e, r = Throw e -> responseStatus e = None).
Proof.
  intros Hinv Hplain. set (s := authManager w).
  pose proof (invariant_getToken efecteConfig (clock w (ticks w))
                (clock w (S (ticks w))) s Hinv) as Hinv1.
  unfold EfecteApiClient.getToken. fold s.
  destruct (AuthManager.getToken efecteConfig (clock w (ticks w))
              (clock w (S (ticks w))) s) as [o s1] eqn:Hg.
  simpl in Hinv1.
  set (issued := if (loginRequests s <? loginRequests s1)%nat
                 then [LoginIssued (loginRequests s)] else []).
  assert (Hquiet0 : quiet w (emit issued (advance 2 (set_authManager s1 w)))).
  { repeat split. exists issued. split; [done |].
    subst issued. by destruct (loginRequests s <? loginRequests s1)%nat. }
  destruct o as [token | p].
  - eexists _, _. split; [reflexivity |]. split; [exact Hinv1 |].
    split; [exact Hquiet0 |]. intros e [=].
  - assert (Hin : exists via, inflight s1 !! p = Some via).
    { pose proof (getToken_slow efecteConfig (clock w (ticks w))
                    (clock w (S (ticks w))) s) as Hslow.
      destruct (AuthManager.fresh_enough efecteConfig
                  (cachedToken (clock w (ticks w)) s)
                  (clock w (S (ticks w))) s) eqn:Hf.
      - apply fresh_enough_spec in Hf as (tok & Hc & Ht & Hgt).
        assert (Hf : AuthManager.fresh_enough efecteConfig (Some tok)
                       (clock w (S (ticks w))) s = true)
          by (apply fresh_enough_spec; by exists tok).
        rewrite (getToken_fast efecteConfig _ _ _ _ Hc Hf) in Hg.
        discriminate.
      - rewrite (Hslow eq_refl) in Hg. simpl in Hg.
        destruct (authPromise (this s)) as [p0|] eqn:Hp.
        + injection Hg as <- <-. exists true.
          destruct Hinv as (_ & Hm & _). by apply Hm.
        + injection Hg as <- <-. exists true. simpl. apply lookup_insert_eq. }
    destruct Hin as [via Hin].
    unfold await. simpl. rewrite Hin.
    rewrite (settle_delivers efecteConfig _ _ _ _ _ _ Hin).
    eexists _, _. split; [reflexivity |]. split; [| split].
    + simpl. by apply invariant_settle.
    + destruct Hquiet0 as (H1 & H2 & H3). by repeat split.
    + intros e He. eapply settle_result_no_response; [exact Hplain |].
      exact He.
Qed.

Lemma requestInterceptor_settles c w :
  AuthManager.invariant (authManager w) ->
  login_errors_plain w ->
  exists r w',
    requestInterceptor c w = Some (r, w') /\
    AuthManager.invariant (authManager w') /\ quiet w w' /\
    (forall c1, r = Ok c1 -> hdrXRetry c1 = hdrXRetry c /\ url c1 = url c) /\
    (forall e, r = Throw e -> responseStatus e = None).
Proof.
  intros Hinv Hplain. unfold EfecteApiClient.requestInterceptor.
  destruct (truthy_opt_string (url c)
            && negb (url_includes "/users/login" (url c))
            && negb (url_includes "/echo" (url c))).
  - destruct (getToken_settles w Hinv Hplain)
      as ([token | e] & w' & Hg & Hinv' & Hq & He).
    + rewrite (bind_ok _ _ _ _ _ (bind_ok _ _ _ _ _ Hg)).
      unfold ret at 1. cbv beta.
      eexists _, _. split; [reflexivity |].
      split; [exact Hinv' |]. split; [exact Hq |]. split; [| intros ? [=]].
      intros c1 [= <-].
      by destruct (negb (truthy_opt_number (reqTimeout _))).
    + rewrite (bind_throw _ _ _ _ _ (bind_throw _ _ _ _ _ Hg)).
      eexists _, _. split; [reflexivity |].
      split; [exact Hinv' |]. split; [exact Hq |]. split; [intros ? [=] |].
      intros e' [= <-]. by apply He.
  - unfold bind, ret. eexists _, _. split; [reflexivity |].
    split; [exact Hinv |]. split; [apply quiet_refl |].
    split; [| intros ? [=]].
    intros c1 [= <-].
    by destruct (negb (truthy_opt_number (reqTimeout c))).
Qed.

(** An error without a response is thrown, as it is or as a timeout or
    network error. *)
Lemma responseRejected_no_response rq error w :
  responseStatus error = None ->
  exists e, responseRejected rq error w = Some (Throw e, w).
Proof.
  intros Hr. unfold EfecteApiClient.responseRejected. rewrite Hr.
  destruct (bool_decide (code error = Some "ECONNABORTED")
            || JsString.includes (message error) "timeout");
    [by eexists |].
  destruct (bool_decide (code error = Some "ENOTFOUND")
            || bool_decide (code error = Some "ECONNREFUSED")
            || bool_decide (code error = Some "ECONNRESET")); by eexists.
Qed.

(** A request that carries the retry mark is dispatched at most once. *)
Lemma request_marked_once fuel c w :
  truthy_opt_string (hdrXRetry c) = true ->
  AuthManager.invariant (authManager w) ->
  login_errors_plain w ->
  exists r w' tr,
    request (S fuel) c w = Some (r, w') /\
    trace w' = trace w ++ tr /\ (length (dispatches tr) <= 1)%nat.
Proof.
  intros Hx Hinv Hplain. cbn [EfecteApiClient.request]. unfold catch.
  destruct (requestInterceptor_settles c w Hinv Hplain)
    as ([c1 | e] & w1 & Hri & _ & (_ & _ & tr1 & Ht1 & Hd1) & Hc1 & He).
  - rewrite (bind_ok _ _ _ _ _ Hri), dispatchRequest_run.
    destruct (Hc1 c1 eq_refl) as [Hx1 _].
    destruct (apiNet w1 (length (dispatches (trace w1))) c1)
      as [response | code1 msg1 st1].
    + eexists _, _, (tr1 ++ [Dispatched c1]). split; [reflexivity |]. split.
      * simpl. by rewrite Ht1, app_assoc.
      * rewrite dispatches_app, Hd1. simpl. lia.
    + destruct (responseRejected_marked (request fuel)
                  (axiosError c1 code1 msg1 st1) c1
                  (emit [Dispatched c1] w1))
        as (e & w2 & Hrej & (_ & _ & tr2 & Ht2 & Hd2) & _);
        [done | by rewrite Hx1 |].
      rewrite Hrej. eexists _, _, (tr1 ++ [Dispatched c1] ++ tr2).
      split; [reflexivity |]. split.
      * rewrite Ht2. simpl. rewrite Ht1. by rewrite <- !app_assoc.
      * rewrite !dispatches_app, Hd1, Hd2. simpl. lia.
  - rewrite (bind_throw _ _ _ _ _ Hri).
    destruct (responseRejected_no_response (request fuel) e w1
                (He e eq_refl)) as [e' ->].
    eexists _, _, tr1. split; [reflexivity |]. split; [done |].
    rewrite Hd1. simpl. lia.
Qed.

(** With enough fuel for one retry, every request ends, whatever the
    network does, and it is dispatched at most twice. *)
Lemma request_dispatches_at_most_twice fuel c w :
  AuthManager.invariant (authManager w) ->
  login_errors_plain w ->
  exists r w' tr,
    request (S (S fuel)) c w = Some (r, w') /\
    trace w' = trace w ++ tr /\ (length (dispatches tr) <= 2)%nat.
Proof.
  intros Hinv Hplain.
  change (request (S (S fuel)) c w)
    with (catch (bind (requestInterceptor c) dispatchRequest)
            (responseRejected (request (S fuel))) w).
  unfold catch.
  destruct (requestInterceptor_settles c w Hinv Hplain)
    as ([c1 | e] & w1 & Hri & Hinv1 & (Hl1 & Ha1 & tr1 & Ht1 & Hd1) & _ & He).
  - rewrite (bind_ok _ _ _ _ _ Hri), dispatchRequest_run.
    destruct (apiNet w1 (length (dispatches (trace w1))) c1)
      as [response | code1 msg1 st1].
    { eexists _, _, (tr1 ++ [Dispatched c1]). split; [reflexivity |]. split.
      - simpl. by rewrite Ht1, app_assoc.
      - rewrite dispatches_app, Hd1. simpl. lia. }
    set (w2 := emit [Dispatched c1] w1).
    assert (Ht2 : trace w2 = trace w ++ tr1 ++ [Dispatched c1])
      by (simpl; by rewrite Ht1, app_assoc).
    assert (Hd2 : length (dispatches (tr1 ++ [Dispatched c1])) = 1%nat)
      by (by rewrite dispatches_app, Hd1).
    assert (Hthrow : forall e',
               exists r w' tr,
                 @throw Response e' w2 = Some (r, w') /\
                 trace w' = trace w ++ tr /\
                 (length (dispatches tr) <= 2)%nat).
    { intros e'. eexists _, _, _. split; [reflexivity |].
      split; [exact Ht2 |]. lia. }
    unfold EfecteApiClient.responseRejected.
    destruct (bool_decide (code (axiosError c1 code1 msg1 st1)
                           = Some "ECONNABORTED")
              || JsString.includes (message (axiosError c1 code1 msg1 st1))
                   "timeout"); [apply Hthrow |].
    destruct (bool_decide (code (axiosError c1 code1 msg1 st1)
                           = Some "ENOTFOUND")
              || bool_decide (code (axiosError c1 code1 msg1 st1)
                              = Some "ECONNREFUSED")
              || bool_decide (code (axiosError c1 code1 msg1 st1)
                              = Some "ECONNRESET")); [apply Hthrow |].
    cbn [responseStatus axiosError].
    destruct st1 as [status|]; [| apply Hthrow].
    destruct ((status =? 401)
              && negb (url_includes "/users/login"
                         (error_url (axiosError c1 code1 msg1 (Some status)))));
      [| apply Hthrow].
    cbn [config axiosError].
    set (w3 := emit [ClearedToken]
                 (set_authManager (AuthManager.clearToken (authManager w2)) w2)).
    assert (Hinv3 : AuthManager.invariant (authManager w3))
      by apply (invariant_step efecteConfig CallClearToken _ Hinv1).
    assert (Ht3 : trace w3 = trace w ++ tr1 ++ [Dispatched c1; ClearedToken]).
    { simpl. rewrite Ht1. by rewrite <- !app_assoc. }
    unfold bind at 1. unfold clearToken. fold w3.
    destruct (truthy_opt_string (hdrXRetry c1)) eqn:Hx1; simpl.
    { eexists _, _, _. split; [reflexivity |]. split; [exact Ht3 |].
      rewrite dispatches_app, Hd1. simpl. lia. }
    assert (Hplain3 : login_errors_plain w3)
      by (intros q e' Hq; apply (Hplain q); by rewrite <- Hl1).
    destruct (getToken_settles w3 Hinv3 Hplain3)
      as ([token | e] & w4 & Hg & Hinv4 & (Hl4 & Ha4 & tr4 & Ht4 & Hd4) & _).
    + rewrite (bind_ok _ _ _ _ _ Hg).
      destruct (request_marked_once fuel
                  (set_Authorization token (set_XRetry c1)) w4)
        as (r & w5 & tr5 & Hrun & Ht5 & Hd5); [done | done | |].
      { intros q e' Hq. apply (Hplain3 q). by rewrite <- Hl4. }
      cbn [EfecteApiClient.request] in Hrun. rewrite Hrun. eexists _, _, _. split; [reflexivity |]. split.
      * rewrite Ht5, Ht4, Ht3. by rewrite <- !app_assoc.
      * rewrite !dispatches_app, Hd1, Hd4. simpl. lia.
    + rewrite (bind_throw _ _ _ _ _ Hg).
      eexists _, _, _. split; [reflexivity |]. split.
      * rewrite Ht4, Ht3. by rewrite <- !app_assoc.
      * rewrite !dispatches_app, Hd1, Hd4. simpl. lia.
  - rewrite (bind_throw _ _ _ _ _ Hri).
    destruct (responseRejected_no_response (request (S fuel)) e w1
                (He e eq_refl)) as [e' ->].
    eexists _, _, tr1. split; [reflexivity |]. split; [done |].
    rewrite Hd1. simpl. lia.
Qed.

(** The answer 401 to the first dispatch of a request: the token is
    cleared, a login request is issued, and the request is dispatched once
    more with the retry mark and the new token. *)
Lemma request_unauthorized_retry fuel c w :
  AuthManager.invariant (authManager w) ->
  url_includes "/users/login" (url c) = false ->
  truthy_opt_string (hdrXRetry c) = false ->
  (forall q, carried_token (loginNet w q) <> None) ->
  (forall c1, unauthorized (apiNet w (length (dispatches (trace w))) c1)) ->
  exists r w' c1 c2 p token pre mid post,
    request (S (S fuel)) c w = Some (r, w') /\
    trace w'
    = trace w ++ pre ++ [Dispatched c1; ClearedToken; LoginIssued p]
        ++ mid ++ [Dispatched c2] ++ post /\
    dispatches pre = [] /\ dispatches mid = [] /\ dispatches post = [] /\
    url c1 = url c /\ method c1 = method c /\
    url c2 = url c /\ method c2 = method c /\
    hdrXRetry c2 = Some "true" /\
    hdrAuthorization c2 = Some token /\ obtained_from w p token /\
    match apiNet w (S (length (dispatches (trace w)))) c2 with
    | Answered response => r = Ok response
    | Failed code message status =>
        (exists e, r = Throw e) /\
        (plain code message ->
         r = Throw (axiosError c2 code message status))
    end.
Proof.
  intros Hinv Hurl Hx Hlogin H401.
  set (n0 := length (dispatches (trace w))) in *.
  (* the request interceptor and the first dispatch *)
  destruct (requestInterceptor_total c w Hinv Hlogin)
    as (c1 & w1 & Hri & Hu1 & Hm1 & Hx1 & Hq1).
  destruct Hq1 as (Hl1 & Ha1 & pre & Ht1 & Hd1).
  assert (Hn1 : length (dispatches (trace w1)) = n0).
  { rewrite Ht1, dispatches_app, Hd1. by rewrite app_nil_r. }
  destruct (H401 c1) as (code1 & msg1 & Hout1 & Hplain1).
  set (e1 := axiosError c1 code1 msg1 (Some 401)).
  set (w2 := emit [Dispatched c1] w1).
  assert (Hfirst : bind (requestInterceptor c) dispatchRequest w
                   = Some (Throw e1, w2)).
  { rewrite (bind_ok _ _ _ _ _ Hri), dispatchRequest_run.
    by rewrite Hn1, Ha1, Hout1. }
  (* the error handler: clear, then a new token *)
  set (w3 := emit [ClearedToken]
               (set_authManager (AuthManager.clearToken (authManager w2)) w2)).
  set (p := loginRequests (authManager w1)).
  destruct (carried_token (loginNet w p)) as [tk|] eqn:Hr;
    [| by destruct (Hlogin p)].
  destruct (getToken_after_clear w3 tk) as
    (w4 & Hg4 & Ht4 & Hl4 & Ha4 & Hnone4 & Hn4 & Hc4).
  { done. }
  { simpl. apply lookup_delete_eq. }
  { simpl. by rewrite Hl1. }
  set (c' := set_Authorization (bearer tk) (set_XRetry c1)).
  (* the request interceptor of the retry *)
  assert (Hfrom : obtained_from w4 p (bearer tk)).
  { exists p, tk. split; [done |]. split; [| done].
    by rewrite Hl4; simpl; rewrite Hl1. }
  destruct (requestInterceptor_retry c' w4 p (bearer tk))
    as (c2 & w5 & token & Hri5 & Hu2 & Hm2 & Hx2 & Hauth2 & Hfrom2 & Hq5);
    try done.
  { intros e He. rewrite (Hc4 e He). exact Hfrom. }
  { rewrite Hn4. simpl. lia. }
  { intros q. rewrite Hl4. simpl. rewrite Hl1. apply Hlogin. }
  destruct Hq5 as (Hl5 & Ha5 & mid & Ht5 & Hd5).
  assert (Htrace5 : trace w5
            = trace w ++ pre ++ [Dispatched c1; ClearedToken; LoginIssued p]
                ++ mid).
  { rewrite Ht5, Ht4. simpl. rewrite Ht1.
    by repeat (rewrite <- app_assoc; simpl). }
  assert (Hn5 : length (dispatches (trace w5)) = S n0).
  { rewrite Htrace5, !dispatches_app, Hd1. simpl.
    rewrite Hd5. rewrite length_app. simpl. subst n0. lia. }
  assert (Ha50 : apiNet w5 = apiNet w).
  { rewrite Ha5, Ha4. simpl. exact Ha1. }
  assert (Hfrom2' : obtained_from w p token).
  { destruct Hfrom2 as (q & tk' & Hq & Hcar & ->).
    exists q, tk'. split; [done |]. split; [| done].
    rewrite Hl4 in Hcar. simpl in Hcar. by rewrite Hl1 in Hcar. }
  set (w6 := emit [Dispatched c2] w5).
  assert (Hsecond : bind (requestInterceptor c') dispatchRequest w4
            = Some (match apiNet w (S n0) c2 with
                    | Answered response => Ok response
                    | Failed code message status =>
                        Throw (axiosError c2 code message status)
                    end, w6)).
  { rewrite (bind_ok _ _ _ _ _ Hri5), dispatchRequest_run.
    by rewrite Hn5, Ha50. }
  (* the run up to the answer to the second dispatch *)
  assert (Hrun : request (S (S fuel)) c w
            = catch (bind (requestInterceptor c') dispatchRequest)
                    (responseRejected (request fuel)) w4).
  { change (request (S (S fuel)) c w)
      with (catch (bind (requestInterceptor c) dispatchRequest)
              (responseRejected (request (S fuel))) w).
    unfold catch at 1. rewrite Hfirst.
    unfold EfecteApiClient.responseRejected.
    destruct Hplain1 as (Hp1 & Hp2 & Hp3 & Hp4 & Hp5).
    subst e1. simpl.
    rewrite !bool_decide_eq_false_2 by done. rewrite Hp2. simpl.
    unfold error_url. simpl. rewrite Hu1, Hurl. simpl.
    rewrite Hx1, Hx. simpl.
    unfold bind at 1. unfold clearToken. fold w3.
    rewrite (bind_ok _ _ _ _ _ Hg4). reflexivity. }
  assert (Hshape : forall post,
             trace w5 ++ [Dispatched c2] ++ post
             = trace w ++ pre ++ [Dispatched c1; ClearedToken; LoginIssued p]
                 ++ mid ++ [Dispatched c2] ++ post).
  { intros post. rewrite Htrace5. by rewrite <- !app_assoc. }
  assert (Hx2' : hdrXRetry c2 = Some "true") by (by rewrite Hx2).
  assert (Hu2' : url c2 = url c) by (by rewrite Hu2; simpl).
  assert (Hm2' : method c2 = method c) by (by rewrite Hm2; simpl).
  destruct (apiNet w (S n0) c2) as [response | code2 msg2 st2] eqn:Hout2.
  - (* the retry is answered *)
    exists (Ok response), w6, c1, c2, p, token, pre, mid, [].
    split; [by rewrite Hrun; unfold catch; rewrite Hsecond |].
    split; [apply (Hshape []) |].
    rewrite Hout2. by repeat (split; [done |]).
  - (* the retry fails: the error is thrown *)
    destruct (responseRejected_marked (request fuel)
                (axiosError c2 code2 msg2 st2) c2 w6)
      as (e & w7 & Hrej & (Hl7 & Ha7 & post & Ht7 & Hd7) & Hsame);
      [done | by rewrite Hx2' |].
    exists (Throw e), w7, c1, c2, p, token, pre, mid, post.
    split; [by rewrite Hrun; unfold catch; rewrite Hsecond |].
    split.
    { rewrite Ht7. simpl. rewrite <- app_assoc. apply Hshape. }
    rewrite Hout2. repeat (split; [done |]).
    split; [by exists e |].
    intros Hplain. f_equal. by apply Hsame.
Qed.

(** C8.  In a state of the credential manager that satisfies its invariant:
    (1) whatever the login endpoint and the server answer, a request ends
    and is dispatched at most twice; (2) for a request that is not a login
    request and does not carry the retry mark, with a login endpoint that
    hands out tokens: when the server answers its dispatch with 401, the
    client clears the token, issues a login request, and dispatches the
    request exactly once more, marked as a retry and with a token that a
    login exchange issued after the clearing brought.  The answer to that
    second dispatch is the result: the response, or else an error, which is
    thrown to the caller without another dispatch; an error that the
    interceptor does not take for a timeout or a network error, such as a
    second 401, is thrown as it is. *)
Theorem request_unauthorized_retried_once fuel c w :
  AuthManager.invariant (authManager w) ->
  (login_errors_plain w ->
   exists r w' tr,
     request (S (S fuel)) c w = Some (r, w') /\
     trace w' = trace w ++ tr /\ (length (dispatches tr) <= 2)%nat) /\
  (url_includes "/users/login" (url c) = false ->
   truthy_opt_string (hdrXRetry c) = false ->
   (forall q, carried_token (loginNet w q) <> None) ->
   (forall c1, unauthorized (apiNet w (length (dispatches (trace w))) c1)) ->
   exists r w' c1 c2 p token pre mid post,
     request (S (S fuel)) c w = Some (r, w') /\
     trace w'
     = trace w ++ pre ++ [Dispatched c1; ClearedToken; LoginIssued p]
         ++ mid ++ [Dispatched c2] ++ post /\
     dispatches pre = [] /\ dispatches mid = [] /\ dispatches post = [] /\
     url c1 = url c /\ method c1 = method c /\
     url c2 = url c /\ method c2 = method c /\
     hdrXRetry c2 = Some "true" /\
     hdrAuthorization c2 = Some token /\ obtained_from w p token /\
     match apiNet w (S (length (dispatches (trace w)))) c2 with
     | Answered response => r = Ok response
     | Failed code message status =>
         (exists e, r = Throw e) /\
         (plain code message ->
          r = Throw (axiosError c2 code message status))
     end).
Proof.
  intros Hinv. split.
  - intros Hplain. by apply request_dispatches_at_most_twice.
  - intros Hurl Hx Hlogin H401. by apply request_unauthorized_retry.
Qed.

End ClientFacts.

(** A request to a protected path on a new client; the server answers the
    first dispatch with 401 and the second with 200. *)
Lemma request_unauthorized_retried_once_witness :
  let c :=
    {| url := Some "https://efecte.example/rest-api/itsm/v1/dc";
       method := Some "get"; hdrAuthorization := None; hdrXRetry := None;
       reqTimeout := None |} in
  let w :=
    {| EfecteApiClient.authManager := AuthManager.init;
       EfecteApiClient.clock := fun n => Z.of_nat n;
       EfecteApiClient.ticks := 0;
       EfecteApiClient.loginNet :=
         fun p => AuthManager.Responded (Some "token") None;
       EfecteApiClient.apiNet :=
         fun n _ =>
           match n with
           | O => EfecteApiClient.Failed (Some "ERR_BAD_REQUEST")
                    "Request failed with status code 401" (Some 401)
           | _ => EfecteApiClient.Answered
                    (EfecteApiClient.mkResponse 200 "[]")
           end;
       EfecteApiClient.trace := [] |} in
  exists w',
    EfecteApiClient.request Config.defaults 2 c w
    = Some (Ok (EfecteApiClient.mkResponse 200 "[]"), w') /\
    length (EfecteApiClient.dispatches (EfecteApiClient.trace w')) = 2%nat.
Proof.
  intros c w.
  destruct (request_unauthorized_retried_once Config.defaults 0 c w)
    as [_ H].
  { apply invariant_init. }
  destruct H
    as (r & w' & c1 & c2 & p & token & pre & mid & post & Hrun & Htrace
        & Hpre & Hmid & Hpost & _ & _ & _ & _ & _ & _ & _ & Hr).
  - reflexivity.
  - reflexivity.
  - intros q. discriminate.
  - intros c1. exists (Some "ERR_BAD_REQUEST"),
      "Request failed with status code 401".
    split; [reflexivity |]. repeat split; discriminate.
  - simpl in Hr. subst r. exists w'. split; [exact Hrun |].
    rewrite Htrace. simpl. rewrite !dispatches_app. simpl.
    rewrite dispatches_app. simpl. rewrite Hpre, Hmid, Hpost. reflexivity.
Defined.


Lemma delete_mcp_answers_witness :
  let st :=
    EfecteHttpServer.onsessioninitialized "5f0c" 1 1 0 EfecteHttpServer.init in
  EfecteHttpServer.delete_mcp_begin (Some "5f0c") st
  = (EfecteHttpServer.DeleteAwaitsClose "5f0c",
     EfecteHttpServer.emit (EfecteHttpServer.ServerClose 1) st) /\
  EfecteHttpServer.delete_mcp_begin (Some "0000") st
  = (EfecteHttpServer.DeleteDone,
     EfecteHttpServer.emit
       (EfecteHttpServer.Respond 404
          (EfecteHttpServer.JsonError "Session not found")) st).
Proof.
  intros st.
  destruct (delete_mcp_answers st) as (_ & H404 & H204). split.
  - apply (H204 "5f0c" (EfecteHttpServer.mkInfo 1 1 0)); reflexivity.
  - apply H404; reflexivity.
Defined.

(* ===================================================================== *)
(** * Part III: further properties of the embedded code                   *)
(* ===================================================================== *)

(** ** The TTL cache: sweeping, eviction and overwriting *)

Section CacheMoreFacts.
Context {T : Type}.
Implicit Types (c : Cache.t T) (k : string) (v : T) (now ttl : Z).

Lemma cleanExpired_subseteq c now : Cache.cleanExpired now c ⊆ c.
Proof.
  apply map_subseteq_spec. intros k e. rewrite cleanExpired_lookup.
  destruct (c !! k) as [e'|]; [| done].
  by destruct (now >? Cache.expiresAt e').
Qed.

(** X1.  [cleanExpired()] at time [now] removes exactly the entries with
    [now > expiresAt]: what it leaves are the entries of the cache with [now
    <= expiresAt], unchanged (an entry that expires at [now] itself stays),
    so the cache does not grow. The sweep is not observable through [get]: a
    read at the time of the sweep or later returns the same with and without
    it. *)
Theorem cleanExpired_removes_exactly_expired c now :
  (forall k e,
      Cache.cleanExpired now c !! k = Some e <->
      c !! k = Some e /\ now <= Cache.expiresAt e) /\
  (Cache.size (Cache.cleanExpired now c) <= Cache.size c)%nat /\
  (forall now' k,
      now <= now' ->
      fst (Cache.get now' k (Cache.cleanExpired now c))
      = fst (Cache.get now' k c)).
Proof.
  split; [| split].
  - intros k e. rewrite cleanExpired_lookup.
    destruct (c !! k) as [e'|]; [| by split; [| intros []]].
    destruct (Z.gtb_spec now (Cache.expiresAt e')).
    + split; [done |]. intros [[= ->] H']. lia.
    + split; [intros [= ->]; split; [done | lia] | by intros []].
  - unfold Cache.size. apply map_subseteq_size, cleanExpired_subseteq.
  - intros now' k Hle. unfold Cache.get. rewrite cleanExpired_lookup.
    destruct (c !! k) as [e|]; [| done].
    destruct (Z.gtb_spec now (Cache.expiresAt e)) as [H1 | H1];
      destruct (Z.gtb_spec now' (Cache.expiresAt e)) as [H2 | H2];
      try done; lia.
Qed.

(** X2.  [get(key)] changes the cache in one way only: it removes the entry
    under [key] when that entry has expired, and the cache is one entry
    smaller then. Entries under other keys are never touched, and a read
    that hits changes nothing. *)
Theorem get_only_evicts_expired c k now :
  let c' := snd (Cache.get now k c) in
  (forall k', k' <> k -> c' !! k' = c !! k') /\
  (forall v, fst (Cache.get now k c) = Some v -> c' = c) /\
  (forall e, c !! k = Some e -> now > Cache.expiresAt e ->
     fst (Cache.get now k c) = None /\ c' !! k = None /\
     Cache.size c = S (Cache.size c') /\
     fst (Cache.delete k c') = false).
Proof.
  intros c'. subst c'. split; [| split].
  - intros k' Hne. destruct (get_snd_cases c k now) as [-> | [-> _]];
      [done | by apply lookup_delete_ne].
  - intros v Hv. by apply get_hit_inv in Hv as (_ & _ & _ & _ & ->).
  - intros e Hk Hexp. unfold Cache.get. rewrite Hk.
    destruct (Z.gtb_spec now (Cache.expiresAt e)); [| lia]. simpl.
    split; [done |]. split; [apply lookup_delete_eq |]. split.
    + unfold Cache.size.
      rewrite <- (insert_delete_id c k e) at 1 by done.
      rewrite map_size_insert_None; [done | apply lookup_delete_eq].
    + apply bool_decide_eq_false_2. rewrite lookup_delete_eq. by intros [? ?].
Qed.

(** X3.  [set] and [delete] act on their key only. [set(key, ...)] does not
    change what [get] returns for another key; a second [set] on the same
    key replaces the value and the expiry of the first; and the cache grows
    by one entry exactly when the key is new. [delete(key)] returns whether
    there was an entry, expired or not; afterwards every read of the key
    misses, a second [delete] returns [false], and the entries under other
    keys are as before. *)
Theorem set_and_delete_touch_only_their_key c k v1 v2 ttl1 ttl2 t1 t2 :
  let c' := snd (Cache.delete k c) in
  ((forall k' now, k' <> k ->
      fst (Cache.get now k' (Cache.set t1 k v1 ttl1 c))
      = fst (Cache.get now k' c)) /\
   Cache.set t2 k v2 ttl2 (Cache.set t1 k v1 ttl1 c)
   = Cache.set t2 k v2 ttl2 c /\
   Cache.size (Cache.set t1 k v1 ttl1 c)
   = (if bool_decide (is_Some (c !! k)) then Cache.size c
      else S (Cache.size c))) /\
  ((fst (Cache.delete k c) = true <-> is_Some (c !! k)) /\
   (forall now, fst (Cache.get now k c') = None) /\
   fst (Cache.delete k c') = false /\
   (forall k', k' <> k -> c' !! k' = c !! k')).
Proof.
  intros c'. subst c'. split; [split; [| split] | ].
  - intros k' now Hne. unfold Cache.get, Cache.set.
    rewrite lookup_insert_ne by done. destruct (c !! k') as [e|]; [| done].
    by destruct (now >? Cache.expiresAt e).
  - unfold Cache.set. apply insert_insert_eq.
  - unfold Cache.size, Cache.set. case_bool_decide as Hk.
    + by apply map_size_insert_Some.
    + apply map_size_insert_None. by apply eq_None_not_Some.
  - unfold Cache.delete. simpl. split; [| split; [| split]].
    + apply bool_decide_eq_true.
    + intros now. by rewrite get_absent by apply lookup_delete_eq.
    + apply bool_decide_eq_false_2. rewrite lookup_delete_eq.
      by intros [? ?].
    + intros k' Hne. by apply lookup_delete_ne.
Qed.

End CacheMoreFacts.

(** ** The credential manager: reuse window, status check and the tools *)

Section AuthMoreFacts.
Import AuthManager.
Variable efecteConfig : Config.EfecteConfig.

Local Abbreviation getToken := (AuthManager.getToken efecteConfig).
Local Abbreviation settle := (AuthManager.settle efecteConfig).
Local Abbreviation fresh_enough := (AuthManager.fresh_enough efecteConfig).

Lemma settle_ok_fields p r tk tset trec s via :
  inflight s !! p = Some via ->
  carried_token r = Some tk ->
  let ttl := Config.authTokenTTL efecteConfig in
  let s1 := settle p r tset trec s in
  tokenCache (this s1) !! "token" = Some (Cache.mkEntry (bearer tk) (tset + ttl))
  /\ tokenExpiresAt (this s1) = trec + ttl
  /\ settled s1 !! p = Some (Ok (bearer tk))
  /\ loginRequests s1 = loginRequests s
  /\ authPromise (this s1)
     = (if via : bool then None else authPromise (this s)).
Proof.
  intros Hin Hr ttl s1. subst s1 ttl. unfold AuthManager.settle.
  rewrite Hin, (authenticate_resume_ok efecteConfig _ _ _ _ _ Hr).
  destruct via; simpl; rewrite !lookup_insert_eq; repeat split;
    unfold Cache.set; apply lookup_insert_eq.
Qed.

(** X4.  After a login exchange brought a token ([tset] is the time at which
    the cache entry was written, [trec] the time at which [tokenExpiresAt]
    was set), [getToken()] hands out that token without a new login request
    exactly as long as the cache entry has not expired ([tget <= tset +
    authTokenTTL], for the reading [tget] of the clock in the cache) and
    [now + tokenRefreshThreshold * 1000 < trec + authTokenTTL]. At every
    other time the call waits for a login exchange; in the second case it
    does so although the cache still holds the token, and always, when
    [authTokenTTL] does not exceed the threshold. *)
Theorem token_reused_until_refresh_threshold p r tk tset trec s via :
  inflight s !! p = Some via ->
  carried_token r = Some tk ->
  let ttl := Config.authTokenTTL efecteConfig in
  let threshold := Config.tokenRefreshThreshold efecteConfig * 1000 in
  let s1 := settle p r tset trec s in
  forall tget now,
    (tget <= tset + ttl /\ now + threshold < trec + ttl ->
       fst (getToken tget now s1) = Resolved (bearer tk) /\
       loginRequests (snd (getToken tget now s1)) = loginRequests s) /\
    (tset + ttl < tget \/ trec + ttl <= now + threshold ->
       exists q, fst (getToken tget now s1) = Awaits q) /\
    (tget <= tset + ttl ->
       cachedToken tget s1 = Some (bearer tk)) /\
    (tset + ttl < tget -> cachedToken tget s1 = None).
Proof.
  intros Hin Hr ttl threshold s1 tget now.
  destruct (settle_ok_fields p r tk tset trec s via Hin Hr)
    as (Hc & He & _ & Hn & _).
  fold s1 ttl in Hc, He, Hn.
  assert (Hcached : tget <= tset + ttl ->
                    cachedToken tget s1 = Some (bearer tk)).
  { intros Htget. unfold cachedToken, Cache.get. rewrite Hc. simpl.
    by destruct (Z.gtb_spec tget (tset + ttl)); [lia |]. }
  assert (Hexpired : tset + ttl < tget -> cachedToken tget s1 = None).
  { intros Htget. unfold cachedToken, Cache.get. rewrite Hc. simpl.
    by destruct (Z.gtb_spec tget (tset + ttl)); [| lia]. }
  split; [| split; [| by split]].
  - intros [Htget Hfresh].
    assert (Hf : fresh_enough (Some (bearer tk)) now s1 = true).
    { apply fresh_enough_spec. exists (bearer tk).
      split; [done |]. split; [apply bearer_truthy |].
      rewrite He. subst threshold. lia. }
    rewrite (getToken_fast efecteConfig _ _ _ _ (Hcached Htget) Hf). simpl.
    split; [done | exact Hn].
  - intros Hstale.
    assert (Hf : fresh_enough (cachedToken tget s1) now s1 = false).
    { apply not_true_is_false. intros Hf.
      apply fresh_enough_spec in Hf as (tok & Hsome & _ & Hgt).
      rewrite He in Hgt. subst threshold.
      destruct Hstale as [Hexp | Hold]; [| lia].
      rewrite (Hexpired Hexp) in Hsome. discriminate. }
    rewrite (getToken_slow efecteConfig _ _ _ Hf).
    destruct (authPromise (this s1)); by eexists.
Qed.

(** X5.  [isAuthenticated()] against [getToken()]. With a token in the cache
    that has not expired there, [isAuthenticated()] says whether
    [tokenExpiresAt] lies ahead; so with a threshold that is not negative it
    holds whenever [getToken()] hands out the cached token, and it also
    holds in the last [tokenRefreshThreshold] seconds of the token, in which
    [getToken()] already waits for a login exchange. *)
Theorem isAuthenticated_covers_getToken s tget now tok :
  cachedToken tget s = Some tok ->
  let threshold := Config.tokenRefreshThreshold efecteConfig * 1000 in
  (fst (isAuthenticated tget now s) = true <-> tokenExpiresAt (this s) > now)
  /\ (0 <= threshold ->
      fst (getToken tget now s) = Resolved tok ->
      fst (isAuthenticated tget now s) = true)
  /\ (now < tokenExpiresAt (this s) <= now + threshold ->
      fst (isAuthenticated tget now s) = true /\
      exists q, fst (getToken tget now s) = Awaits q).
Proof.
  intros Hc threshold.
  assert (Hauth : fst (isAuthenticated tget now s) = true
                  <-> tokenExpiresAt (this s) > now).
  { unfold isAuthenticated. unfold cachedToken in Hc.
    destruct (Cache.get tget "token" (tokenCache (this s))) as [o c] eqn:Hg.
    simpl in Hc. subst o. simpl. rewrite Z.gtb_gt. lia. }
  split; [exact Hauth |]. split.
  - intros Hthr Hres. apply Hauth.
    destruct (fresh_enough (cachedToken tget s) now s) eqn:Hf.
    + apply fresh_enough_spec in Hf as (_ & _ & _ & Hgt).
      subst threshold. lia.
    + rewrite (getToken_slow efecteConfig _ _ _ Hf) in Hres.
      by destruct (authPromise (this s)).
  - intros [Hlt Hle]. split; [apply Hauth; lia |].
    assert (Hf : fresh_enough (cachedToken tget s) now s = false).
    { apply not_true_is_false. intros Hf.
      apply fresh_enough_spec in Hf as (_ & _ & _ & Hgt).
      subst threshold. lia. }
    rewrite (getToken_slow efecteConfig _ _ _ Hf).
    destruct (authPromise (this s)); by eexists.
Qed.

(** *** The tools of [src/tools/auth.ts] *)

(** X6.  [efecte_login] issues a login request of its own, also while an
    exchange of [getToken()] is in flight, and leaves the marker of that
    exchange alone. When the response carries a token the tool reports
    success with [tokenReceived: true] and the token is cached; otherwise it
    reports a failure, with the message [Authentication failed: Invalid
    credentials] for a 401 answer; it does not throw. *)
Theorem login_tool_reply s r tset trec :
  let p := fst (AuthTools.login_begin s) in
  let s1 := snd (AuthTools.login_begin s) in
  let s2 := settle p r tset trec s1 in
  p = loginRequests s /\
  loginRequests s2 = S (loginRequests s) /\
  authPromise (this s2) = authPromise (this s) /\
  exists res,
    settled s2 !! p = Some res /\
    match carried_token r with
    | Some tk =>
        AuthTools.login_resume res
        = AuthTools.mkReply (Some true) None
            "Successfully authenticated with Efecte API" (Some true) /\
        forall tget, tget <= tset + Config.authTokenTTL efecteConfig ->
                     cachedToken tget s2 = Some (bearer tk)
    | None =>
        AuthTools.success (AuthTools.login_resume res) = Some false /\
        tokenCache (this s2) = tokenCache (this s) /\
        forall e, r = Rejected e -> isAxiosError e = true ->
                  responseStatus e = Some 401 ->
                  AuthTools.message (AuthTools.login_resume res)
                  = "Authentication failed: Invalid credentials"
    end.
Proof.
  intros p s1 s2. unfold AuthTools.login_begin in p, s1.
  assert (Hp : p = loginRequests s) by done.
  assert (Hin : inflight s1 !! p = Some false)
    by (subst p s1; simpl; apply lookup_insert_eq).
  assert (Hn1 : loginRequests s1 = S (loginRequests s)) by done.
  assert (Hm1 : authPromise (this s1) = authPromise (this s)) by done.
  assert (Hc1 : tokenCache (this s1) = tokenCache (this s)) by done.
  clearbody p s1. split; [exact Hp |].
  destruct (carried_token r) as [tk|] eqn:Hr.
  - destruct (settle_ok_fields p r tk tset trec s1 false Hin Hr)
      as (Hc & _ & Hs & Hn & Hm).
    fold s2 in Hc, Hs, Hn, Hm.
    split; [by rewrite Hn |]. split; [by rewrite Hm |].
    exists (Ok (bearer tk)). split; [exact Hs |]. simpl.
    rewrite bearer_truthy. split; [done |].
    intros tget Htget. unfold cachedToken, Cache.get. rewrite Hc. simpl.
    by destruct (Z.gtb_spec tget (tset + Config.authTokenTTL efecteConfig));
      [lia |].
  - subst s2. unfold AuthManager.settle. rewrite Hin.
    rewrite (authenticate_resume_throw efecteConfig _ _ _ _ Hr). simpl.
    split; [done |]. split; [done |].
    eexists. split; [apply lookup_insert_eq |]. simpl.
    split; [done |]. split; [done |].
    intros e -> Hax H401. unfold authenticate_catch, AuthTools.errorMessage.
    rewrite Hax, H401. by rewrite bool_decide_eq_true_2.
Qed.

(** X7.  [efecte_check_auth] after [efecte_logout] reports that the client
    is not authenticated, at whatever time it is asked; after a login that
    brought a token it reports that the client is authenticated until the
    token expires. *)
Theorem checkAuth_follows_logout_and_login s tget now :
  AuthTools.authenticated
    (fst (AuthTools.checkAuth tget now
            (snd (AuthTools.logout s)))) = Some false /\
  forall p via r tk tset trec,
    inflight s !! p = Some via ->
    carried_token r = Some tk ->
    tget <= tset + Config.authTokenTTL efecteConfig ->
    now < trec + Config.authTokenTTL efecteConfig ->
    AuthTools.authenticated
      (fst (AuthTools.checkAuth tget now (settle p r tset trec s)))
    = Some true.
Proof.
  split.
  - unfold AuthTools.checkAuth, AuthTools.logout, isAuthenticated,
      clearToken, Cache.delete. simpl.
    rewrite get_absent by apply lookup_delete_eq. done.
  - intros p via r tk tset trec Hin Hr Htget Hnow.
    destruct (settle_ok_fields p r tk tset trec s via Hin Hr)
      as (Hc & He & _).
    unfold AuthTools.checkAuth, isAuthenticated, Cache.get.
    rewrite Hc. simpl.
    destruct (Z.gtb_spec tget (tset + Config.authTokenTTL efecteConfig));
      [lia |].
    simpl. rewrite He.
    by destruct (Z.gtb_spec (trec + Config.authTokenTTL efecteConfig) now);
      [| lia].
Qed.

End AuthMoreFacts.

(** ** The client: requests that are not retried *)

Section ClientMoreFacts.
Import AuthManager EfecteApiClient.
Variable efecteConfig : Config.EfecteConfig.

Local Abbreviation getToken := (EfecteApiClient.getToken efecteConfig).
Local Abbreviation requestInterceptor :=
  (EfecteApiClient.requestInterceptor efecteConfig).
Local Abbreviation responseRejected :=
  (EfecteApiClient.responseRejected efecteConfig).
Local Abbreviation request := (EfecteApiClient.request efecteConfig).

(** The awaited [getToken()] brings a token with the prefix, and at most
    issues one login request on the way. *)
Lemma getToken_bearer w :
  AuthManager.invariant (authManager w) ->
  (forall q, carried_token (loginNet w q) <> None) ->
  exists token w' issued,
    getToken w = Some (Ok token, w') /\
    String.prefix "Bearer " token = true /\
    trace w' = trace w ++ issued /\
    (issued = [] \/ exists p, issued = [LoginIssued p]) /\
    loginNet w' = loginNet w /\ apiNet w' = apiNet w.
Proof.
  intros Hinv Hlogin. set (s := authManager w).
  destruct (AuthManager.fresh_enough efecteConfig
              (cachedToken (clock w (ticks w)) s)
              (clock w (S (ticks w))) s) eqn:Hf.
  - pose proof Hf as Hf'.
    apply fresh_enough_spec in Hf' as (tok & Hc & _ & _).
    rewrite Hc in Hf.
    pose proof (getToken_fast efecteConfig _ _ _ _ Hc Hf) as Hg.
    unfold EfecteApiClient.getToken. fold s. rewrite Hg. simpl.
    rewrite Nat.ltb_irrefl.
    exists tok. eexists _, []. split; [reflexivity |]. split.
    + apply get_hit_inv in Hc as (e & He & <- & _).
      destruct Hinv as (Hpre & _). by apply Hpre.
    + simpl. rewrite app_nil_r. repeat split. by left.
  - pose proof (getToken_slow efecteConfig _ _ _ Hf) as Hg.
    fold s in Hg. simpl in Hg.
    destruct (authPromise (this s)) as [p|] eqn:Hp.
    + destruct Hinv as (_ & Hm & _ & _). specialize (Hm p Hp).
      fold s in Hm.
      destruct (carried_token (loginNet w p)) as [tk|] eqn:Hr;
        [| by destruct (Hlogin p)].
      unfold EfecteApiClient.getToken. fold s. rewrite Hg. simpl.
      rewrite Nat.ltb_irrefl. simpl.
      unfold await. simpl. rewrite Hm.
      unfold AuthManager.settle. simpl. rewrite Hm.
      rewrite (authenticate_resume_ok efecteConfig _ _ _ _ _ Hr). simpl.
      rewrite lookup_insert_eq.
      exists (bearer tk). eexists _, []. split; [reflexivity |].
      split; [apply bearer_prefix |]. simpl. rewrite app_nil_r.
      repeat split. by left.
    + destruct (carried_token (loginNet w (loginRequests s))) as [tk|] eqn:Hr;
        [| by destruct (Hlogin (loginRequests s))].
      unfold EfecteApiClient.getToken. fold s. rewrite Hg. simpl.
      rewrite ltb_succ. simpl.
      unfold await. simpl. rewrite lookup_insert_eq.
      unfold AuthManager.settle. simpl. rewrite lookup_insert_eq.
      rewrite (authenticate_resume_ok efecteConfig _ _ _ _ _ Hr). simpl.
      rewrite lookup_insert_eq.
      exists (bearer tk). eexists _, [LoginIssued (loginRequests s)].
      split; [reflexivity |]. split; [apply bearer_prefix |].
      repeat split. right. by eexists.
Qed.

(** The request interceptor, in full: a URL that contains neither
    [/users/login] nor [/echo] gets a token in [Authorization]; the other
    requests keep their headers and cause no login; a missing timeout is
    set to the configured one. *)
Lemma requestInterceptor_run c w :
  AuthManager.invariant (authManager w) ->
  (forall q, carried_token (loginNet w q) <> None) ->
  exists c1 w' issued,
    requestInterceptor c w = Some (Ok c1, w') /\
    trace w' = trace w ++ issued /\
    (issued = [] \/ exists p, issued = [LoginIssued p]) /\
    loginNet w' = loginNet w /\ apiNet w' = apiNet w /\
    url c1 = url c /\ method c1 = method c /\ hdrXRetry c1 = hdrXRetry c /\
    reqTimeout c1
    = (if truthy_opt_number (reqTimeout c) then reqTimeout c
       else Some (Config.timeout efecteConfig)) /\
    (if truthy_opt_string (url c)
        && negb (url_includes "/users/login" (url c))
        && negb (url_includes "/echo" (url c))
     then exists token,
            hdrAuthorization c1 = Some token /\
            String.prefix "Bearer " token = true
     else hdrAuthorization c1 = hdrAuthorization c /\ w' = w).
Proof.
  intros Hinv Hlogin. unfold EfecteApiClient.requestInterceptor.
  destruct (truthy_opt_string (url c)
            && negb (url_includes "/users/login" (url c))
            && negb (url_includes "/echo" (url c))).
  - destruct (getToken_bearer w Hinv Hlogin)
      as (token & w' & issued & Hg & Hpre & Ht & Hi & Hl & Ha).
    rewrite (bind_ok _ _ _ _ _ (bind_ok _ _ _ _ _ Hg)).
    unfold ret at 1. cbv beta.
    eexists _, _, issued. split; [reflexivity |].
    do 4 (split; [done |]).
    destruct (truthy_opt_number (reqTimeout c)) eqn:Hto; simpl;
      rewrite ?Hto; simpl; repeat split; by exists token.
  - unfold bind, ret. eexists _, _, []. split; [reflexivity |].
    rewrite app_nil_r. split; [done |]. split; [by left |].
    do 2 (split; [done |]).
    destruct (truthy_opt_number (reqTimeout c)) eqn:Hto; simpl;
      rewrite ?Hto; by repeat split.
Qed.

(** X8.  When the server answers the first dispatch of a request, the answer
    is the result and nothing else is sent. The request went out with its
    own URL and method and with a timeout; to a path that is neither a login
    nor an echo path it carried an [Authorization] header that begins with
    [Bearer ]. *)
Theorem request_answered_first_time fuel c w response :
  AuthManager.invariant (authManager w) ->
  (forall q, carried_token (loginNet w q) <> None) ->
  (forall c1, apiNet w (length (dispatches (trace w))) c1 = Answered response) ->
  exists w' c1 issued,
    request (S fuel) c w = Some (Ok response, w') /\
    trace w' = trace w ++ issued ++ [Dispatched c1] /\
    (issued = [] \/ exists p, issued = [LoginIssued p]) /\
    url c1 = url c /\ method c1 = method c /\
    reqTimeout c1
    = (if truthy_opt_number (reqTimeout c) then reqTimeout c
       else Some (Config.timeout efecteConfig)) /\
    (if truthy_opt_string (url c)
        && negb (url_includes "/users/login" (url c))
        && negb (url_includes "/echo" (url c))
     then exists token,
            hdrAuthorization c1 = Some token /\
            String.prefix "Bearer " token = true
     else hdrAuthorization c1 = hdrAuthorization c /\ issued = []).
Proof.
  intros Hinv Hlogin Hnet.
  destruct (requestInterceptor_run c w Hinv Hlogin)
    as (c1 & w1 & issued & Hri & Ht & Hi & Hl & Ha & Hu & Hm & _ & Hto & Hauth).
  assert (Hn : length (dispatches (trace w1)) = length (dispatches (trace w))).
  { rewrite Ht, dispatches_app.
    destruct Hi as [-> | [p ->]]; simpl; by rewrite app_nil_r. }
  exists (emit [Dispatched c1] w1), c1, issued.
  split.
  { cbn [EfecteApiClient.request]. unfold catch.
    rewrite (bind_ok _ _ _ _ _ Hri), dispatchRequest_run.
    by rewrite Hn, Ha, Hnet. }
  split; [by simpl; rewrite Ht, app_assoc |].
  do 4 (split; [done |]).
  destruct (truthy_opt_string (url c)
            && negb (url_includes "/users/login" (url c))
            && negb (url_includes "/echo" (url c))); [done |].
  destruct Hauth as [Hh ->]. split; [done |].
  by apply app_inv_head with (trace w); rewrite app_nil_r.
Qed.

(** X9.  A failed first dispatch is final, except for the answer 401 to a
    request that is not a login request. When the rejection is a timeout
    (code [ECONNABORTED], or a message that contains [timeout]), a network
    error, an answer with another status, or a 401 answer to a login URL,
    the request was dispatched once, the token was not cleared, and the
    caller gets: for a timeout, a new error with code [ETIMEDOUT] and
    [isTimeout], whose message names the URL and the timeout; for a network
    error, a new error with the same code and [isNetworkError]; otherwise
    the error of axios itself. *)
Theorem request_failure_not_retried fuel c w code msg status :
  AuthManager.invariant (authManager w) ->
  (forall q, carried_token (loginNet w q) <> None) ->
  (forall c1,
     apiNet w (length (dispatches (trace w))) c1 = Failed code msg status) ->
  let timedOut :=
    bool_decide (code = Some "ECONNABORTED") || JsString.includes msg "timeout" in
  let network :=
    bool_decide (code = Some "ENOTFOUND")
    || bool_decide (code = Some "ECONNREFUSED")
    || bool_decide (code = Some "ECONNRESET") in
  timedOut = true \/ network = true \/ status <> Some 401
  \/ url_includes "/users/login" (url c) = true ->
  exists e w' c1 issued,
    request (S fuel) c w = Some (Throw e, w') /\
    trace w' = trace w ++ issued ++ [Dispatched c1] /\
    (issued = [] \/ exists p, issued = [LoginIssued p]) /\
    url c1 = url c /\
    if timedOut then
      e = {| isAxiosError := false; code := Some "ETIMEDOUT";
             message :=
               "Request to "
               +:+ (if truthy_opt_string (url c)
                    then default "unknown" (url c) else "unknown")
               +:+ " timed out after "
               +:+ pretty (if truthy_opt_number (reqTimeout c)
                           then default 0 (reqTimeout c)
                           else Config.timeout efecteConfig)
               +:+ "ms. The server may be slow or unreachable.";
             config := None; responseStatus := None;
             isTimeout := true; isNetworkError := false |}
    else if network then
      e = {| isAxiosError := false; code := code;
             message :=
               "Network error connecting to "
               +:+ (if truthy_opt_string (url c)
                    then default "unknown" (url c) else "unknown")
               +:+ ": " +:+ msg
               +:+ ". Please check your connection and server availability.";
             config := None; responseStatus := None;
             isTimeout := false; isNetworkError := true |}
    else e = axiosError c1 code msg status.
Proof.
  intros Hinv Hlogin Hnet timedOut network Hcase.
  destruct (requestInterceptor_run c w Hinv Hlogin)
    as (c1 & w1 & issued & Hri & Ht & Hi & Hl & Ha & Hu & Hm & _ & Hto & _).
  assert (Hn : length (dispatches (trace w1)) = length (dispatches (trace w))).
  { rewrite Ht, dispatches_app.
    destruct Hi as [-> | [p ->]]; simpl; by rewrite app_nil_r. }
  set (w2 := emit [Dispatched c1] w1).
  assert (Hfirst : bind (requestInterceptor c) dispatchRequest w
                   = Some (Throw (axiosError c1 code msg status), w2)).
  { rewrite (bind_ok _ _ _ _ _ Hri), dispatchRequest_run.
    by rewrite Hn, Ha, Hnet. }
  assert (Htrace : trace w2 = trace w ++ issued ++ [Dispatched c1])
    by (by simpl; rewrite Ht, app_assoc).
  change (request (S fuel) c w)
    with (catch (bind (requestInterceptor c) dispatchRequest)
            (responseRejected (request fuel)) w).
  unfold catch. rewrite Hfirst.
  unfold EfecteApiClient.responseRejected, error_url. simpl.
  fold timedOut network. rewrite Hu.
  destruct timedOut eqn:E1.
  { eexists _, w2, c1, issued. split; [reflexivity |].
    do 3 (split; [done |]). rewrite Hto.
    destruct (truthy_opt_number (reqTimeout c)) eqn:E; [by rewrite E |].
    simpl. by destruct (negb (Config.timeout efecteConfig =? 0)). }
  destruct network eqn:E2.
  { eexists _, w2, c1, issued. split; [reflexivity |]. by repeat split. }
  destruct status as [st|];
    [| by eexists _, w2, c1, issued; split; [reflexivity |]].
  destruct ((st =? 401) && negb (url_includes "/users/login" (url c))) eqn:E3;
    [| by eexists _, w2, c1, issued; split; [reflexivity |]].
  apply andb_true_iff in E3 as [E3 E4]. apply Z.eqb_eq in E3 as ->.
  apply negb_true_iff in E4.
  destruct Hcase as [? | [? | [? | ?]]]; congruence.
Qed.

End ClientMoreFacts.

(** ** The configuration *)

Section ConfigFacts.
Import JsText Validation ConfigLoader.

Lemma append_cons (x : ascii) (a b : string) :
  String x a +:+ b = String x (a +:+ b).
Proof. reflexivity. Qed.

Lemma append_assoc (a b c : string) : (a +:+ b) +:+ c = a +:+ b +:+ c.
Proof.
  induction a as [| x a IH]; [done |]. by rewrite !append_cons, IH.
Qed.

Lemma append_nil_r (a : string) : a +:+ "" = a.
Proof. induction a as [| x a IH]; [done |]. by rewrite append_cons, IH. Qed.

Lemma stripTrailingSlash_snoc (s : string) : stripTrailingSlash (s +:+ "/") = s.
Proof.
  induction s as [| c s IH]; [done |].
  rewrite append_cons. destruct s as [| d s]; [done |].
  rewrite append_cons in *.
  change (stripTrailingSlash (String c (String d (s +:+ "/"))))
    with (String c (stripTrailingSlash (String d (s +:+ "/")))).
  by rewrite IH.
Qed.

Lemma includes_append_l (pre s search : string) :
  JsString.includes s search = true ->
  JsString.includes (pre +:+ s) search = true.
Proof.
  rewrite !includes_spec. intros (p & q & ->).
  exists (pre +:+ p), q. by rewrite append_assoc.
Qed.

Lemma slash_or_none (s : string) : s ∈ [""; "/"] -> s = "" \/ s = "/".
Proof.
  intros H. apply elem_of_cons in H as [-> | H]; [by left |].
  apply elem_of_cons in H as [-> | H]; [by right |].
  by apply elem_of_nil in H.
Qed.

Lemma no_leading_slash (x : ascii) (a : string) :
  stripLeadingSlash (String x a) = String x a -> x <> "/"%char.
Proof.
  intros H ->. simpl in H.
  apply (f_equal String.length) in H. simpl in H. lia.
Qed.

(** *** [getApiUrl] *)

(** X10.  [getApiUrl] joins the base URL, the API path and the path with one
    slash at each joint, whether or not the base URL ends with a slash, the
    API path begins or ends with one, and the path begins with one. *)
Theorem getApiUrl_joins_with_single_slashes cfg b a p s1 s2 s3 s4 :
  stripTrailingSlash b = b ->
  stripLeadingSlash a = a -> stripTrailingSlash a = a ->
  stripLeadingSlash p = p -> p <> "" ->
  s1 ∈ [""; "/"] -> s2 ∈ [""; "/"] -> s3 ∈ [""; "/"] -> s4 ∈ [""; "/"] ->
  baseUrl cfg = b +:+ s1 ->
  apiPath cfg = s2 +:+ a +:+ s3 ->
  getApiUrl cfg (s4 +:+ p) = b +:+ "/" +:+ a +:+ "/" +:+ p /\
  getApiUrl cfg "" = b +:+ "/" +:+ a /\
  getApiUrl cfg "/" = b +:+ "/" +:+ a.
Proof.
  intros Hb Ha1 Ha2 Hp Hne H1 H2 H3 H4 Hbase Hapi.
  assert (Hbase' : stripTrailingSlash (baseUrl cfg) = b).
  { rewrite Hbase. destruct (slash_or_none _ H1) as [-> | ->].
    - by rewrite append_nil_r.
    - apply stripTrailingSlash_snoc. }
  assert (Hlead : forall t, stripLeadingSlash (a +:+ t) = a +:+ t
                            \/ (a = "" /\ String.prefix "/" t = true)).
  { intros t. destruct a as [| x a']; simpl.
    - destruct t as [| y t]; [by left |].
      destruct (ascii_dec y "/") as [-> | Hy];
        [right; split; [done | apply prefix_app; by exists t] |].
      left. simpl. destruct y as [[] [] [] [] [] [] [] []]; try done.
    - left. apply no_leading_slash in Ha1.
      rewrite append_cons. simpl.
      destruct x as [[] [] [] [] [] [] [] []]; try done. }
  assert (Hapi' : stripTrailingSlash (stripLeadingSlash (apiPath cfg)) = a).
  { rewrite Hapi.
    destruct (slash_or_none _ H2) as [-> | ->];
      destruct (slash_or_none _ H3) as [-> | ->].
    - change ("" +:+ a +:+ "") with (a +:+ ""). rewrite append_nil_r.
      by rewrite Ha1.
    - change ("" +:+ a +:+ "/") with (a +:+ "/").
      destruct (Hlead "/") as [-> | [-> _]]; [| done].
      apply stripTrailingSlash_snoc.
    - change (stripLeadingSlash ("/" +:+ a +:+ "")) with (a +:+ "").
      by rewrite append_nil_r.
    - change (stripLeadingSlash ("/" +:+ a +:+ "/")) with (a +:+ "/").
      apply stripTrailingSlash_snoc. }
  assert (Hclean : stripLeadingSlash (s4 +:+ p) = p).
  { destruct (slash_or_none _ H4) as [-> | ->]; [exact Hp | done]. }
  unfold getApiUrl. rewrite Hbase', Hapi', Hclean.
  split; [by destruct p | done].
Qed.

(** *** [buildConfig] *)

Lemma getEnvVar_ok env key d v :
  getEnvVar env key d = Ok v -> v <> "".
Proof.
  unfold getEnvVar.
  destruct (truthy_opt_string (env !! key)) eqn:E1; simpl.
  - intros [= <-]. destruct (env !! key) as [[| x s]|]; done.
  - destruct (truthy_opt_string d) eqn:E2; simpl; [| done].
    intros [= <-]. destruct d as [[| x s]|]; done.
Qed.

Lemma validateNonEmpty_ok value fieldName u :
  validateNonEmpty value fieldName = Ok u ->
  value <> "" /\ trim value <> "".
Proof.
  unfold validateNonEmpty.
  destruct value as [| x s]; [done |]. simpl.
  destruct (trim (String x s)) eqn:E; [done |]. by intros _.
Qed.

(** X12.  A configuration that [buildConfig()] returns has passed all its
    checks: the base URL, the user name and the password are not empty, and
    the numbers lie in their ranges; in particular the session timeout is at
    least a minute, so the fall-back of the session clean-up to 30 minutes
    is never taken. (The two TTLs of the caches are read without a check.) *)
Theorem buildConfig_validated parsesAsURL env cfg :
  buildConfig parsesAsURL env = Ok cfg ->
  baseUrl cfg <> "" /\ parsesAsURL (baseUrl cfg) = true /\
  username cfg <> "" /\ password cfg <> "" /\
  1000 <= timeout cfg <= 300000 /\
  1 <= defaultLimit cfg <= maxLimit cfg /\ maxLimit cfg <= 200 /\
  1 <= httpPort cfg <= 65535 /\
  60000 <= sessionTimeout cfg /\
  1 <= maxRequestsPerMinute cfg <= 10000 /\
  0 <= tokenRefreshThreshold cfg <= 3600 /\
  JsString.toLowerCase (loggingLevel cfg) ∈ validLogLevels /\
  (transportDefault cfg = "stdio" \/ transportDefault cfg = "http") /\
  EfecteHttpServer.sessionTimeout (core cfg) = sessionTimeout cfg.
Proof.
  intros H. unfold buildConfig, mbind, Result_bind in H.
  bind_inv H. injection H as <-. cbn [baseUrl username password timeout
    defaultLimit maxLimit httpPort sessionTimeout maxRequestsPerMinute
    tokenRefreshThreshold loggingLevel transportDefault core].
  repeat match goal with
         | E : getEnvVar _ _ _ = Ok _ |- _ => apply getEnvVar_ok in E
         end.
  unfold validateUrl, mbind, Result_bind in *.
  repeat match goal with
         | E : (match ?r with Ok _ => _ | Throw _ => _ end) = Ok _ |- _ =>
             destruct r; [| discriminate E]
         end.
  unfold validateTimeout, validatePaginationLimit, validatePort in *.
  repeat match goal with
         | E : (if ?b then _ else _) = Ok _ |- _ =>
             let Hb := fresh "Hb" in
             destruct b eqn:Hb; [discriminate E |]; clear E
         end.
  repeat match goal with
         | E : _ || _ = false |- _ => apply orb_false_iff in E as [? ?]
         | E : _ && _ = false |- _ => apply andb_false_iff in E
         | E : negb _ = false |- _ => apply negb_false_iff in E
         | E : bool_decide _ = true |- _ => apply bool_decide_eq_true_1 in E
         end.
  unfold EfecteHttpServer.sessionTimeout. simpl.
  repeat split; try done; try lia.
  - by destruct (parsesAsURL _).
  - destruct Hb as [Hb | Hb]; apply negb_false_iff, String.eqb_eq in Hb;
      [by left | by right].
  - match goal with
    | |- (if ?n =? 0 then _ else _) = _ => destruct (Z.eqb_spec n 0); [lia | done]
    end.
Qed.

(** X13.  With nothing but the base URL, the user name and the password in
    the environment, [buildConfig()] returns the documented defaults; the
    options that the core reads are then [Config.defaults]. *)
Theorem buildConfig_defaults parsesAsURL env b u p :
  env !! "EFECTE_BASE_URL" = Some b ->
  env !! "EFECTE_USERNAME" = Some u ->
  env !! "EFECTE_PASSWORD" = Some p ->
  (forall key,
     key ∉ ["EFECTE_BASE_URL"; "EFECTE_USERNAME"; "EFECTE_PASSWORD"] ->
     env !! key = None) ->
  trim b <> "" -> parsesAsURL b = true -> u <> "" -> p <> "" ->
  exists cfg,
    buildConfig parsesAsURL env = Ok cfg /\
    cfg = mkEfecteConfig b "/rest-api/itsm/v1" u p 30000 300000 3300000
            50 200 "stdio" false 3000 "0.0.0.0" None 1800000 "info"
            false false false 60 300 /\
    core cfg = Config.defaults.
Proof.
  intros Hb Hu Hp Hnone Htrim Hurl Hune Hpne.
  assert (Hbne : b <> "") by (intros ->; by apply Htrim).
  eexists. split; [| split; [reflexivity | reflexivity]].
  unfold buildConfig, getEnvVar, getEnvNumber, getEnvBool, validateUrl,
    validateNonEmpty.
  rewrite Hb, Hu, Hp.
  repeat match goal with
         | |- context [env !! ?key] =>
             rewrite (Hnone key)
               by (intros Hin;
                   repeat (apply elem_of_cons in Hin as [Hin | Hin];
                           [discriminate Hin |]);
                   by apply elem_of_nil in Hin)
         end.
  destruct b as [| x b']; [done |].
  destruct u as [| y u']; [done |].
  destruct p as [| z p']; [done |].
  cbn [truthy_opt_string truthy_string negb andb orb default].
  destruct (trim (String x b')) eqn:E; [done |].
  unfold id. cbn [mbind Result_bind]. rewrite E, Hurl. reflexivity.
Qed.

(** X11.  A request to a path that has a segment beginning with [echo] goes
    out as it is: the request interceptor attaches no token to it and causes
    no login, because the URL that [getApiUrl] builds contains [/echo]. This
    holds for [echo], and also for [echo/jwt], the path of the tool
    [efecte_echo_auth]. *)
Theorem echo_paths_carry_no_token cfg path c w :
  url c = Some (getApiUrl cfg path) ->
  JsString.includes ("/" +:+ stripLeadingSlash path) "/echo" = true ->
  exists c1,
    EfecteApiClient.requestInterceptor (core cfg) c w = Some (Ok c1, w) /\
    hdrAuthorization c1 = hdrAuthorization c /\
    url c1 = url c.
Proof.
  intros Hurl Hecho.
  assert (Hinc : JsString.includes (getApiUrl cfg path) "/echo" = true).
  { unfold getApiUrl. destruct (stripLeadingSlash path) as [| x clean] eqn:E.
    - by vm_compute in Hecho.
    - cbn [truthy_string]. rewrite <- !append_assoc.
      rewrite append_assoc. by apply includes_append_l. }
  unfold EfecteApiClient.requestInterceptor. rewrite Hurl.
  cbn [EfecteApiClient.url_includes]. rewrite Hinc.
  rewrite andb_false_r.
  unfold EfecteApiClient.bind, EfecteApiClient.ret.
  destruct (negb (truthy_opt_number (reqTimeout c)));
    eexists; (split; [reflexivity |]); by rewrite ?Hurl.
Qed.

End ConfigFacts.

(** The tool [efecte_echo_auth] requests [echo/jwt]. *)
Lemma echo_paths_carry_no_token_witness :
  let cfg :=
    ConfigLoader.mkEfecteConfig "https://efecte.example/" "/rest-api/itsm/v1"
      "user" "secret" 30000 300000 3300000 50 200 "stdio" false 3000
      "0.0.0.0" None 1800000 "info" false false false 60 300 in
  let c :=
    {| url := Some "https://efecte.example/rest-api/itsm/v1/echo/jwt";
       method := Some "get"; hdrAuthorization := None; hdrXRetry := None;
       reqTimeout := None |} in
  let w :=
    {| EfecteApiClient.authManager := AuthManager.init;
       EfecteApiClient.clock := fun n => Z.of_nat n;
       EfecteApiClient.ticks := 0;
       EfecteApiClient.loginNet :=
         fun p => AuthManager.Responded (Some "token") None;
       EfecteApiClient.apiNet :=
         fun n _ =>
           EfecteApiClient.Answered (EfecteApiClient.mkResponse 200 "{}");
       EfecteApiClient.trace := [] |} in
  exists c1,
    EfecteApiClient.requestInterceptor (ConfigLoader.core cfg) c w
    = Some (Ok c1, w) /\
    hdrAuthorization c1 = None /\ url c1 = url c.
Proof.
  intros cfg c w.
  apply (echo_paths_carry_no_token cfg "echo/jwt" c w); reflexivity.
Defined.

Lemma buildConfig_defaults_witness :
  let env : ConfigLoader.Env :=
    <["EFECTE_BASE_URL" := "https://efecte.example"]>
      (<["EFECTE_USERNAME" := "api-user"]>
         (<["EFECTE_PASSWORD" := "secret"]> ∅)) in
  exists cfg,
    ConfigLoader.buildConfig (fun _ => true) env = Ok cfg /\
    ConfigLoader.core cfg = Config.defaults.
Proof.
  intros env.
  assert (Hnone : forall key,
             key ∉ ["EFECTE_BASE_URL"; "EFECTE_USERNAME"; "EFECTE_PASSWORD"] ->
             env !! key = None).
  { intros key Hkey. subst env.
    rewrite !lookup_insert_ne; [done | | |];
      intros <-; apply Hkey; set_solver. }
  destruct (buildConfig_defaults (fun _ => true) env
              "https://efecte.example" "api-user" "secret"
              eq_refl eq_refl eq_refl Hnone)
    as (cfg & H & _ & Hcore); [done | done | done | done |].
  by exists cfg.
Defined.

Lemma buildConfig_validated_witness :
  let env : ConfigLoader.Env :=
    <["EFECTE_BASE_URL" := "https://efecte.example"]>
      (<["EFECTE_USERNAME" := "api-user"]>
         (<["EFECTE_PASSWORD" := "secret"]>
            (<["EFECTE_TIMEOUT" := "45000ms"]> ∅))) in
  exists cfg,
    ConfigLoader.buildConfig (fun _ => true) env = Ok cfg /\
    ConfigLoader.timeout cfg = 45000 /\
    1000 <= ConfigLoader.timeout cfg <= 300000.
Proof.
  intros env. eexists. split; [vm_compute; reflexivity |].
  split; [reflexivity |].
  eapply (buildConfig_validated (fun _ => true) env).
  vm_compute. reflexivity.
Defined.

(** ** The session registry: activity and shutdown *)

Section SessionMoreFacts.
Import EfecteHttpServer EfecteHttpServerStop.
Variable efecteConfig : Config.EfecteConfig.

Local Abbreviation sessionTimeout :=
  (EfecteHttpServer.sessionTimeout efecteConfig).
Local Abbreviation cleanupIdleSessions :=
  (EfecteHttpServer.cleanupIdleSessions efecteConfig).

Lemma touch_lookup sid now st info :
  transports st !! sid = Some info ->
  transports (touch sid now st) !! sid
  = Some {| transport := transport info; server := server info;
            lastActivity := now |}.
Proof. intros H. unfold touch. simpl. by rewrite lookup_alter_eq, H. Qed.

Lemma touch_lookup_ne sid sid' now st :
  sid' <> sid ->
  transports (touch sid now st) !! sid' = transports st !! sid'.
Proof. intros H. unfold touch. simpl. by apply lookup_alter_ne. Qed.

Lemma transports_emit e st : transports (emit e st) = transports st.
Proof. reflexivity. Qed.

(** X14.  A [POST /mcp] or [GET /mcp] for a registered session is handed to
    the transport of that session and sets its [lastActivity] to the time of
    the request, leaving the other sessions alone; so a sweep that runs no
    more than the session timeout after the request keeps the session. *)
Theorem request_refreshes_session sid info isInit n1 n2 n st :
  sid <> "" ->
  transports st !! sid = Some info ->
  let refreshed t :=
    {| transport := transport info; server := server info;
       lastActivity := t |} in
  let post := post_mcp_begin (Some sid) isInit n1 n2 st in
  let get := get_mcp_begin (Some sid) n st in
  fst post = PostRouted (transport info) /\
  log (snd post) = log st ++ [HandleRequest (transport info)] /\
  transports (snd post) !! sid = Some (refreshed n2) /\
  fst get = Some (transport info) /\
  log (snd get) = log st ++ [HandleRequest (transport info)] /\
  transports (snd get) !! sid = Some (refreshed n) /\
  (forall sid', sid' <> sid ->
     transports (snd post) !! sid' = transports st !! sid' /\
     transports (snd get) !! sid' = transports st !! sid') /\
  forall now,
    (now - n2 <= sessionTimeout ->
     transports (cleanupIdleSessions now (snd post)) !! sid
     = Some (refreshed n2)) /\
    (now - n <= sessionTimeout ->
     transports (cleanupIdleSessions now (snd get)) !! sid
     = Some (refreshed n)).
Proof.
  intros Hne Hk refreshed post get.
  assert (Htruthy : truthy_string sid = true) by (by destruct sid).
  assert (Hhas : has sid st = true)
    by (apply bool_decide_eq_true_2; by exists info).
  assert (Hpost : post
            = (PostRouted (transport info),
               emit (HandleRequest (transport info))
                 (touch sid n2 (touch sid n1 st)))).
  { subst post. unfold post_mcp_begin. rewrite Htruthy, Hhas. simpl.
    by rewrite Hk. }
  assert (Hget : get
            = (Some (transport info),
               emit (HandleRequest (transport info)) (touch sid n st))).
  { subst get. unfold get_mcp_begin. rewrite Htruthy, Hhas. simpl.
    by rewrite Hk. }
  assert (Hp : transports (snd post) !! sid = Some (refreshed n2)).
  { rewrite Hpost. cbn [snd]. rewrite transports_emit.
    rewrite (touch_lookup sid n2 (touch sid n1 st) (refreshed n1));
      [done | by apply touch_lookup]. }
  assert (Hg : transports (snd get) !! sid = Some (refreshed n)).
  { rewrite Hget. cbn [snd]. rewrite transports_emit. by apply touch_lookup. }
  split; [by rewrite Hpost |]. split; [by rewrite Hpost |].
  split; [exact Hp |].
  split; [by rewrite Hget |]. split; [by rewrite Hget |].
  split; [exact Hg |]. split.
  - intros sid' Hsid'. rewrite Hpost, Hget. cbn [snd].
    rewrite !transports_emit. by rewrite !touch_lookup_ne.
  - intros now. split; intros Hidle.
    + by apply (cleanup_keeps efecteConfig now _ sid (refreshed n2)).
    + by apply (cleanup_keeps efecteConfig now _ sid (refreshed n)).
Qed.

Lemma stop_loop (l : list (string * TransportInfo)) st :
  let st1 :=
    foldl (fun st '(sessionId, transportInfo) =>
             emit (ServerClose (server transportInfo)) st) st l in
  transports st1 = transports st /\
  log st1 = log st ++ ((fun x => ServerClose (server x.2)) <$> l).
Proof.
  revert st. induction l as [| [sid info] l IH]; intros st; simpl.
  - by rewrite app_nil_r.
  - destruct (IH (emit (ServerClose (server info)) st)) as [H1 H2].
    split; [by rewrite H1 |]. rewrite H2. simpl. by rewrite <- app_assoc.
Qed.

(** X15.  [stop()] calls [server.close()] once for every registered session,
    without removing any of them first; when the closes have settled it
    empties the registry, so that afterwards no request finds a session,
    whatever happened in between. *)
Theorem stop_closes_every_session st :
  let st1 := stop_begin st in
  transports st1 = transports st /\
  log st1
  = log st ++ ((fun x => ServerClose (server x.2))
               <$> map_to_list (transports st)) /\
  (forall sid info,
     transports st !! sid = Some info -> ServerClose (server info) ∈ log st1) /\
  forall st2 sid,
    has sid (stop_resume st2) = false /\
    log (stop_resume st2) = log st2 /\
    fst (get_mcp_begin (Some sid) 0 (stop_resume st2)) = None.
Proof.
  intros st1. subst st1. unfold stop_begin.
  destruct (stop_loop (map_to_list (transports st)) st) as [H1 H2].
  split; [exact H1 |]. split; [exact H2 |]. split.
  - intros sid info Hk. rewrite H2. apply elem_of_app. right.
    apply list_elem_of_fmap. exists (sid, info). split; [done |].
    by apply elem_of_map_to_list.
  - intros st2 sid.
    assert (Hhas : has sid (stop_resume st2) = false).
    { apply bool_decide_eq_false_2. simpl. rewrite lookup_empty.
      by intros [? ?]. }
    split; [exact Hhas |]. split; [done |].
    unfold get_mcp_begin. rewrite Hhas, orb_true_r. done.
Qed.

End SessionMoreFacts.

(** A session that was last active at time [0] gets a request after 29
    minutes; the sweep at 31 minutes keeps it. *)
Lemma request_refreshes_session_witness :
  let st :=
    EfecteHttpServer.onsessioninitialized "5f0c" 1 1 0 EfecteHttpServer.init in
  let st1 :=
    snd (EfecteHttpServer.post_mcp_begin (Some "5f0c") false 1740000 1740000
           st) in
  EfecteHttpServer.has "5f0c"
    (EfecteHttpServer.cleanupIdleSessions Config.defaults 1860000 st1) = true.
Proof.
  intros st st1.
  destruct (request_refreshes_session Config.defaults "5f0c"
              (EfecteHttpServer.mkInfo 1 1 0) false 1740000 1740000 0 st)
    as (_ & _ & _ & _ & _ & _ & _ & H); [done | reflexivity |].
  destruct (H 1860000) as [Hkeep _].
  apply bool_decide_eq_true_2. fold st1 in Hkeep.
  rewrite Hkeep; [by eexists | vm_compute; congruence].
Defined.

(** ** The edit distance as a metric, and the suggestions *)

Section DistanceFacts.
Import JsString ReferenceAttributes.
Local Open Scope nat_scope.

Lemma edits_refl (s : list ascii) : edits s s 0.
Proof. induction s; by constructor. Qed.

Lemma edits_zero s t n : edits s t n -> n = 0 -> s = t.
Proof.
  induction 1; intros Hn; try discriminate; [done |].
  by rewrite IHedits.
Qed.

Lemma edits_length s t n :
  edits s t n -> length s <= length t + n /\ length t <= length s + n.
Proof. induction 1; simpl; lia. Qed.

Lemma edits_max (s : list ascii) :
  forall t, edits s t (Nat.max (length s) (length t)).
Proof.
  induction s as [| a s IH]; intros t.
  - induction t as [| b t IHt]; simpl; [constructor |].
    by apply edits_insert.
  - destruct t as [| b t]; simpl.
    + specialize (IH []). rewrite Nat.max_0_r in IH. by apply edits_delete.
    + by apply edits_substitute.
Qed.

(** Two scripts in a row make a script. *)
Lemma edits_trans s t n :
  edits s t n ->
  forall u m, edits t u m -> exists k, k <= n + m /\ edits s u k.
Proof.
  induction 1 as [| a s t n H1 IH | a b s t n H1 IH | a s t n H1 IH
                  | b s t n H1 IH]; intros u m H2.
  - exists m. split; [lia | done].
  - remember (a :: t) as t' eqn:Et.
    induction H2 as [| a' t0 u m H2 _ | a' b' t0 u m H2 _ | a' t0 u m H2 _
                     | b' t0 u m H2 IH2]; try discriminate.
    + injection Et as -> ->. destruct (IH _ _ H2) as (k & Hk & He).
      exists k. split; [lia | by constructor].
    + injection Et as -> ->. destruct (IH _ _ H2) as (k & Hk & He).
      exists (S k). split; [lia | by constructor].
    + injection Et as -> ->. destruct (IH _ _ H2) as (k & Hk & He).
      exists (S k). split; [lia | by constructor].
    + destruct (IH2 Et) as (k & Hk & He).
      exists (S k). split; [lia | by constructor].
  - remember (b :: t) as t' eqn:Et.
    induction H2 as [| a' t0 u m H2 _ | a' b' t0 u m H2 _ | a' t0 u m H2 _
                     | b' t0 u m H2 IH2]; try discriminate.
    + injection Et as -> ->. destruct (IH _ _ H2) as (k & Hk & He).
      exists (S k). split; [lia | by constructor].
    + injection Et as -> ->. destruct (IH _ _ H2) as (k & Hk & He).
      exists (S k). split; [lia | by constructor].
    + injection Et as -> ->. destruct (IH _ _ H2) as (k & Hk & He).
      exists (S k). split; [lia | by apply edits_delete].
    + destruct (IH2 Et) as (k & Hk & He).
      exists (S k). split; [lia | by constructor].
  - destruct (IH _ _ H2) as (k & Hk & He).
    exists (S k). split; [lia | by apply edits_delete].
  - remember (b :: t) as t' eqn:Et.
    induction H2 as [| a' t0 u m H2 _ | a' b' t0 u m H2 _ | a' t0 u m H2 _
                     | b' t0 u m H2 IH2]; try discriminate.
    + injection Et as -> ->. destruct (IH _ _ H2) as (k & Hk & He).
      exists (S k). split; [lia | by apply edits_insert].
    + injection Et as -> ->. destruct (IH _ _ H2) as (k & Hk & He).
      exists (S k). split; [lia | by apply edits_insert].
    + injection Et as -> ->. destruct (IH _ _ H2) as (k & Hk & He).
      exists k. split; [lia | done].
    + destruct (IH2 Et) as (k & Hk & He).
      exists (S k). split; [lia | by constructor].
Qed.

Lemma length_list_ascii_of_string (s : string) :
  length (list_ascii_of_string s) = String.length s.
Proof. induction s as [| c s IH]; simpl; [done | by rewrite IH]. Qed.

Lemma list_ascii_of_string_inj (a b : string) :
  list_ascii_of_string a = list_ascii_of_string b -> a = b.
Proof.
  intros H. rewrite <- (string_of_list_ascii_of_string a),
    <- (string_of_list_ascii_of_string b). by rewrite H.
Qed.

Lemma lev_zero_iff a b : levenshteinDistance a b = 0 <-> a = b.
Proof.
  destruct (levenshteinDistance_is_edit_distance a b) as [He Hmin].
  split.
  - intros H0. apply list_ascii_of_string_inj.
    by apply (edits_zero _ _ _ He).
  - intros ->.
    destruct (levenshteinDistance_is_edit_distance b b) as [_ Hmin'].
    specialize (Hmin' 0 (edits_refl _)). lia.
Qed.

Lemma lev_sym a b : levenshteinDistance a b = levenshteinDistance b a.
Proof.
  destruct (levenshteinDistance_is_edit_distance a b) as [He1 Hmin1].
  destruct (levenshteinDistance_is_edit_distance b a) as [He2 Hmin2].
  apply edits_sym in He1 as He1'. apply edits_sym in He2 as He2'.
  specialize (Hmin1 _ He2'). specialize (Hmin2 _ He1'). lia.
Qed.

Lemma lev_triangle a b c :
  levenshteinDistance a c
  <= levenshteinDistance a b + levenshteinDistance b c.
Proof.
  destruct (levenshteinDistance_is_edit_distance a b) as [He1 _].
  destruct (levenshteinDistance_is_edit_distance b c) as [He2 _].
  destruct (levenshteinDistance_is_edit_distance a c) as [_ Hmin].
  destruct (edits_trans _ _ _ He1 _ _ He2) as (k & Hk & He).
  specialize (Hmin k He). lia.
Qed.

Lemma lev_bounds a b :
  String.length a - String.length b <= levenshteinDistance a b /\
  String.length b - String.length a <= levenshteinDistance a b /\
  levenshteinDistance a b <= Nat.max (String.length a) (String.length b).
Proof.
  destruct (levenshteinDistance_is_edit_distance a b) as [He Hmin].
  apply edits_length in He as He'.
  rewrite !length_list_ascii_of_string in He'.
  specialize (Hmin _ (edits_max _ _)).
  rewrite !length_list_ascii_of_string in Hmin. lia.
Qed.

(** X16.  [levenshteinDistance] is a metric on strings: it is [0] exactly on
    equal strings, symmetric, and satisfies the triangle inequality; and it
    lies between the difference of the two lengths and the greater length. *)
Theorem levenshteinDistance_metric :
  (forall a b, levenshteinDistance a b = 0 <-> a = b) /\
  (forall a b, levenshteinDistance a b = levenshteinDistance b a) /\
  (forall a b c,
     levenshteinDistance a c
     <= levenshteinDistance a b + levenshteinDistance b c) /\
  (forall a b,
     String.length a - String.length b <= levenshteinDistance a b /\
     String.length b - String.length a <= levenshteinDistance a b /\
     levenshteinDistance a b <= Nat.max (String.length a) (String.length b)).
Proof.
  split; [exact lev_zero_iff |]. split; [exact lev_sym |].
  split; [exact lev_triangle | exact lev_bounds].
Qed.

(** *** The score *)

Lemma Zpos_of_nat m : m <> 0 -> Z.pos (Pos.of_nat m) = Z.of_nat m.
Proof. intros Hm. by rewrite <- positive_nat_Z, Nat2Pos.id. Qed.

Lemma calculateSimilarity_fraction a b :
  let m := Nat.max (String.length a) (String.length b) in
  m <> 0 ->
  (calculateSimilarity a b
   == 1 - (Z.of_nat (levenshteinDistance a b) # Pos.of_nat m))%Q.
Proof.
  intros m Hm. rewrite (calculateSimilarity_formula a b Hm). fold m.
  rewrite (Qmake_Qdiv (Z.of_nat (levenshteinDistance a b)) (Pos.of_nat m)).
  by rewrite Zpos_of_nat.
Qed.

(** X17.  [calculateSimilarity] returns a value between 0 and 1, where 1 is
    identical (and only identical strings score 1); it does not depend on
    the order of its arguments. *)
Theorem calculateSimilarity_range a b :
  (0 <= calculateSimilarity a b)%Q /\ (calculateSimilarity a b <= 1)%Q /\
  ((calculateSimilarity a b == 1)%Q <-> a = b) /\
  (calculateSimilarity a b == calculateSimilarity b a)%Q.
Proof.
  set (m := Nat.max (String.length a) (String.length b)).
  destruct (Nat.eq_dec m 0) as [Hm | Hm].
  - assert (a = "" /\ b = "") as [-> ->].
    { subst m. destruct a, b; simpl in Hm; try lia. done. }
    by vm_compute.
  - pose proof (calculateSimilarity_fraction a b Hm) as Hab.
    assert (Hm' : Nat.max (String.length b) (String.length a) <> 0)
      by (subst m; lia).
    pose proof (calculateSimilarity_fraction b a Hm') as Hba.
    rewrite (lev_sym b a), (Nat.max_comm (String.length b)) in Hba.
    fold m in Hab, Hba.
    destruct (lev_bounds a b) as (_ & _ & Hle). fold m in Hle.
    pose proof (lev_zero_iff a b) as Hz.
    set (d := levenshteinDistance a b) in *.
    pose proof (Zpos_of_nat m Hm) as Hp.
    rewrite Hab, Hba. split; [| split; [| split; [split |]]].
    + unfold Qle, Qminus, Qplus, Qopp. simpl. lia.
    + unfold Qle, Qminus, Qplus, Qopp. simpl. lia.
    + unfold Qeq, Qminus, Qplus, Qopp. simpl. intros H. apply Hz. lia.
    + intros H. apply Hz in H. unfold Qeq, Qminus, Qplus, Qopp. simpl. lia.
    + reflexivity.
Qed.

(** *** The suggestion is one of the candidates *)

(** X18.  Whatever the candidates and the threshold, a result of
    [findSimilarMatch] is one of the candidates, and it is justified: it
    equals the target up to case, or one of the two contains the other up to
    case, or its score reaches the threshold. With no candidate there is no
    result. *)
Theorem findSimilarMatch_returns_candidate target options threshold s :
  findSimilarMatch target options threshold = Some s ->
  options <> [] /\ s ∈ options /\
  (toLowerCase s = toLowerCase target
   \/ includes (toLowerCase s) (toLowerCase target)
      || includes (toLowerCase target) (toLowerCase s) = true
   \/ (threshold
       <= calculateSimilarity (toLowerCase target) (toLowerCase s))%Q).
Proof.
  unfold findSimilarMatch.
  destruct options as [| o options']; [done |].
  set (options := o :: options'). cbn [length Nat.eqb].
  intros H. split; [done |].
  destruct (truthy_opt_string (List.find _ options)) eqn:T1 in H.
  { apply List.find_some in H as [Hin Hx].
    split; [by apply list_elem_of_In |]. left. by apply String.eqb_eq. }
  destruct (truthy_opt_string (List.find _ options)) eqn:T2 in H.
  { apply List.find_some in H as [Hin Hx].
    split; [by apply list_elem_of_In |]. right. by left. }
  destruct (sort _) as [| best rest] eqn:Hsort in H; [done |].
  destruct (Qle_bool threshold (snd best)) eqn:Hth; [| done].
  injection H as <-.
  assert (Hbest : best ∈ sort
            (map (fun option =>
                    (option,
                     calculateSimilarity (toLowerCase target)
                       (toLowerCase option))) options))
    by (rewrite Hsort; apply elem_of_cons; by left).
  apply elem_of_sort, list_elem_of_In, in_map_iff in Hbest
    as (option & <- & Hin).
  split; [by apply list_elem_of_In |]. right. right.
  by apply Qle_bool_iff.
Qed.

End DistanceFacts.

Lemma findSimilarMatch_returns_candidate_witness :
  "Service Request" ∈ ["Service Request"; "Incident"] /\
  (6 # 10 <= ReferenceAttributes.calculateSimilarity
               (JsString.toLowerCase "Servis Requst")
               (JsString.toLowerCase "Service Request"))%Q.
Proof.
  destruct (findSimilarMatch_returns_candidate "Servis Requst"
              ["Service Request"; "Incident"]
              ReferenceAttributes.defaultThreshold "Service Request")
    as (_ & Hin & [H | [H | H]]).
  - by vm_compute.
  - by vm_compute in H.
  - by vm_compute in H.
  - split; [exact Hin | exact H].
Defined.

(** ** The attribute and the value of a filter expression *)

Section FilterFacts.
Import JsText ReferenceFilter.

Local Abbreviation chars := list_ascii_of_string.

Lemma span_append (p : ascii -> bool) (a rest : string) :
  forallb p (chars a) = true ->
  (forall c rest', rest = String c rest' -> p c = false) ->
  span p (a +:+ rest) = (a, rest).
Proof.
  intros Ha Hrest. induction a as [| x a IH].
  - destruct rest as [| c rest']; [done |]. simpl.
    by rewrite (Hrest c rest').
  - simpl in Ha. apply andb_true_iff in Ha as [Hx Ha].
    rewrite append_cons. simpl. rewrite Hx, (IH Ha). done.
Qed.

Lemma trimStart_append (ws rest : string) :
  forallb isWhiteSpace (chars ws) = true ->
  (forall c rest', rest = String c rest' -> isWhiteSpace c = false) ->
  trimStart (ws +:+ rest) = rest.
Proof.
  intros Hws Hrest. induction ws as [| x ws IH].
  - destruct rest as [| c rest']; [done |]. simpl.
    by rewrite (Hrest c rest').
  - simpl in Hws. apply andb_true_iff in Hws as [Hx Hws].
    rewrite append_cons. simpl. rewrite Hx. by apply IH.
Qed.

Lemma matchAt_no_dollar (c : ascii) (s : string) :
  isDollar c = false -> matchAt (String c s) = None.
Proof. intros H. unfold matchAt. by rewrite H. Qed.

(** X19.  A filter [$attribute$ = 'value'] gives back its attribute and its
    value: with any text without [$] before it and any text after it, any
    white space around the [=], and either quote on either side, as long as
    the attribute is not empty and has no [$], and the value is not empty
    and has no quote. *)
Theorem extractReferenceAttributeFromFilter_round_trip
    (before attribute ws1 ws2 value after : string) (q1 q2 : ascii) :
  forallb (fun c => negb (isDollar c)) (chars before) = true ->
  attribute <> "" ->
  forallb (fun c => negb (isDollar c)) (chars attribute) = true ->
  forallb isWhiteSpace (chars ws1) = true ->
  forallb isWhiteSpace (chars ws2) = true ->
  isQuote q1 = true -> isQuote q2 = true ->
  value <> "" ->
  forallb (fun c => negb (isQuote c)) (chars value) = true ->
  extractReferenceAttributeFromFilter
    (before +:+ "$" +:+ attribute +:+ "$" +:+ ws1 +:+ "=" +:+ ws2
     +:+ String q1 (value +:+ String q2 after))
  = Some (attribute, value).
Proof.
  intros Hbefore Hane Ha Hws1 Hws2 Hq1 Hq2 Hvne Hv.
  induction before as [| x before IH].
  - change ("" +:+ ?s) with s.
    assert (Hm : matchAt ("$" +:+ attribute +:+ "$" +:+ ws1 +:+ "=" +:+ ws2
                          +:+ String q1 (value +:+ String q2 after))
                 = Some (attribute, value)).
    { unfold matchAt. rewrite append_cons. cbn [isDollar Ascii.eqb].
      change ("" +:+ ?s) with s.
      rewrite (span_append _ attribute);
        [| done | intros c r [= <- _]; done].
      destruct attribute as [| a0 attribute']; [done |].
      rewrite append_cons. change ("" +:+ ?s) with s.
      rewrite (trimStart_append ws1); [| done | intros c r [= <- _]; done].
      rewrite append_cons. cbn [Ascii.eqb]. change ("" +:+ ?s) with s.
      rewrite (trimStart_append ws2);
        [| done
         | intros c r [= <- _]; unfold isQuote in Hq1;
           apply orb_true_iff in Hq1 as [Hq | Hq];
           apply Ascii.eqb_eq in Hq; by subst q1].
      rewrite Hq1.
      rewrite (span_append _ value);
        [| done | intros c r [= <- _]; by rewrite Hq2].
      by destruct value. }
    destruct attribute; [done |]. simpl in Hm |- *. by rewrite Hm.
  - simpl in Hbefore. apply andb_true_iff in Hbefore as [Hx Hbefore].
    rewrite append_cons.
    cbn [extractReferenceAttributeFromFilter].
    rewrite matchAt_no_dollar by (by apply negb_true_iff).
    by apply IH.
Qed.

End FilterFacts.

(** The first example of the documentation of the function. *)
Lemma extractReferenceAttributeFromFilter_round_trip_witness :
  ReferenceFilter.extractReferenceAttributeFromFilter
    "$support_group$ = 'IT Support'"
  = Some ("support_group", "IT Support").
Proof.
  apply (extractReferenceAttributeFromFilter_round_trip
           "" "support_group" " " " " "IT Support" "" "'" "'");
    reflexivity || discriminate.
Defined.

(** ** Validation of the arguments of the tools *)

Section ValidationFacts.
Import JsText Validation.

Local Abbreviation chars := list_ascii_of_string.

Lemma trimStart_empty (s : string) :
  trimStart s = "" <-> forallb isWhiteSpace (chars s) = true.
Proof.
  induction s as [| c s IH]; simpl; [done |].
  destruct (isWhiteSpace c); simpl; [exact IH | done].
Qed.

Lemma trimStart_cons (s : string) c s' :
  trimStart s = String c s' -> isWhiteSpace c = false.
Proof.
  induction s as [| x s IH]; simpl; [done |].
  destruct (isWhiteSpace x) eqn:E; [exact IH |]. by intros [= <- _].
Qed.

Lemma trimEnd_cons c (s : string) :
  isWhiteSpace c = false -> trimEnd (String c s) <> "".
Proof. intros H. simpl. rewrite H. by destruct (trimEnd s). Qed.

(** [s.trim()] is empty exactly when [s] consists of white space. *)
Lemma trim_empty (s : string) :
  trim s = "" <-> forallb isWhiteSpace (chars s) = true.
Proof.
  unfold trim. rewrite <- trimStart_empty.
  destruct (trimStart s) as [| c s'] eqn:E; [done |].
  split; [| done]. intros H.
  by apply (trimEnd_cons c s') in H; [| by apply (trimStart_cons s c s')].
Qed.

Lemma templateCodeChar_not_space c :
  isTemplateCodeChar c = true -> isWhiteSpace c = false.
Proof.
  unfold isTemplateCodeChar, isWhiteSpace.
  destruct c as [[] [] [] [] [] [] [] []]; by vm_compute.
Qed.

Lemma validateNonEmpty_spec value fieldName :
  validateNonEmpty value fieldName
  = if forallb isWhiteSpace (chars value)
    then Throw (newError (fieldName +:+ " cannot be empty"))
    else Ok tt.
Proof.
  unfold validateNonEmpty.
  destruct (forallb isWhiteSpace (chars value)) eqn:E.
  - apply trim_empty in E. rewrite E. by rewrite orb_true_r.
  - destruct value as [| c s]; [done |]. simpl.
    destruct (trim (String c s)) eqn:Et; [| done].
    apply trim_empty in Et. congruence.
Qed.

(** X20.  [validateTemplateCode] accepts exactly the strings that are not
    empty and consist of letters, digits, [_] and [-]. A string of white
    space (the empty string among them) is rejected as empty, and every
    other string with a character outside the class, a slash for instance,
    with the message about the characters. *)
Theorem validateTemplateCode_accepts_exactly (templateCode : string) :
  (validateTemplateCode templateCode = Ok tt <->
   templateCode <> "" /\
   forallb isTemplateCodeChar (chars templateCode) = true) /\
  (forallb isWhiteSpace (chars templateCode) = true ->
   validateTemplateCode templateCode
   = Throw (newError "Template code cannot be empty")) /\
  (forallb isWhiteSpace (chars templateCode) = false ->
   forallb isTemplateCodeChar (chars templateCode) = false ->
   validateTemplateCode templateCode
   = Throw (newError
       "Template code must contain only alphanumeric characters, underscores, or hyphens")).
Proof.
  unfold validateTemplateCode. rewrite validateNonEmpty_spec.
  unfold matchesTemplateCode.
  destruct (forallb isWhiteSpace (chars templateCode)) eqn:Ews;
    cbn [mbind Result_bind].
  - split; [| split; [done | done]]. split; [done |].
    intros [Hne Hall]. destruct templateCode as [| c s]; [done |].
    simpl in Ews, Hall. apply andb_true_iff in Ews as [Hc _].
    apply andb_true_iff in Hall as [Hc' _].
    apply templateCodeChar_not_space in Hc'. congruence.
  - destruct templateCode as [| c s]; [done |].
    cbn [truthy_string andb].
    destruct (forallb isTemplateCodeChar (chars (String c s))) eqn:Hall;
      cbn [negb].
    + split; [| split; [done | done]]. by split.
    + split; [| split; [done | done]]. split; [done | by intros [_ ?]].
Qed.

End ValidationFacts.

(** ** Templates read through the cache *)

Section TemplateFacts.
Import Validation TemplateTools TemplateResources.
Variable efecteConfig : Config.EfecteConfig.
Context {T : Type}.
Variable truthy : T -> bool.

Local Abbreviation ttl := (Config.templatesTTL efecteConfig).
Local Abbreviation getTemplate_begin :=
  (TemplateTools.getTemplate_begin truthy).
Local Abbreviation readResource_begin :=
  (TemplateResources.readResource_begin truthy).

(** X21.  [getTemplate] reads through the cache. After a request for a valid
    template code has brought a result at time [t0], a call until [t0 +
    templatesTTL] returns that result without a request when the result is
    truthy; a falsy result (an empty body, for instance) is cached as well,
    but every call requests the template again. A call after [t0 +
    templatesTTL] requests the template again in either case. A failed
    request is reported with the prefix of the tool and leaves the cache as
    it was, and so does a template code that is not valid, for which nothing
    is requested. *)
Theorem getTemplate_reads_through_cache
    (templateCode : string) (result : T) (t0 : Z) (cache : Cache.t T) :
  validateTemplateCode templateCode = Ok tt ->
  let cache1 :=
    snd (getTemplate_resume efecteConfig t0 templateCode (Ok result) cache) in
  fst (getTemplate_resume efecteConfig t0 templateCode (Ok result) cache)
  = Ok result /\
  (forall now, now <= t0 + ttl ->
     getTemplate_begin now templateCode cache1
     = (if truthy result then Return (Ok result)
        else Fetch ("dc/" +:+ templateCode), cache1))
  /\
  (forall now, t0 + ttl < now ->
     fst (getTemplate_begin now templateCode cache1)
     = Fetch ("dc/" +:+ templateCode)) /\
  (forall error,
     getTemplate_resume efecteConfig t0 templateCode (Throw error) cache
     = (Throw (newError ("Failed to get template: " +:+ message error)),
        cache)) /\
  (forall now badCode,
     forallb isTemplateCodeChar (list_ascii_of_string badCode) = false ->
     exists msg,
       getTemplate_begin now badCode cache
       = (Return (Throw (newError ("Failed to get template: " +:+ msg))),
          cache)).
Proof.
  intros Hvalid cache1. subst cache1. simpl.
  split; [done |]. split; [| split; [| split]].
  - intros now Hnow. unfold TemplateTools.getTemplate_begin. rewrite Hvalid.
    rewrite get_after_set_hit by done. by destruct (truthy result).
  - intros now Hnow. unfold TemplateTools.getTemplate_begin. rewrite Hvalid.
    by rewrite get_after_set_miss.
  - done.
  - intros now badCode Hbad. unfold TemplateTools.getTemplate_begin.
    destruct (validateTemplateCode badCode) as [[] | e] eqn:E.
    + apply (validateTemplateCode_accepts_exactly badCode) in E as [_ E].
      congruence.
    + by eexists.
Qed.

Lemma substring_0_length (s : string) :
  String.substring 0 (String.length s) s = s.
Proof. induction s as [| c s IH]; simpl; [done | by rewrite IH]. Qed.

Lemma substring_append (p s : string) n :
  String.substring (String.length p) n (p +:+ s) = String.substring 0 n s.
Proof. induction p as [| c p IH]; [done |]. rewrite append_cons. exact IH. Qed.

Lemma length_append (p s : string) :
  String.length (p +:+ s) = (String.length p + String.length s)%nat.
Proof.
  induction p as [| c p IH]; [done |]. rewrite append_cons. simpl.
  by rewrite IH.
Qed.

Lemma removeFirst_prefix (pattern code : string) :
  removeFirst pattern (pattern +:+ code) = code.
Proof.
  assert (Hp : String.prefix pattern (pattern +:+ code) = true)
    by (apply prefix_app; by eexists).
  assert (Hunfold : forall s,
             removeFirst pattern s
             = if String.prefix pattern s
               then String.substring (String.length pattern)
                      (String.length s - String.length pattern) s
               else match s with
                    | EmptyString => EmptyString
                    | String c s' => String c (removeFirst pattern s')
                    end)
    by (by intros []).
  rewrite Hunfold, Hp, substring_append, length_append.
  replace (String.length pattern + String.length code
           - String.length pattern)%nat
    with (String.length code) by lia.
  apply substring_0_length.
Qed.

(** X22.  Every resource that [registerTemplateResources()] lists can be
    read: [readResource] takes the template code back out of its URI, and
    takes that template from the cache when the cache holds a truthy value
    for it, and requests it otherwise. After a request that brought a
    template at [t0], a call until [t0 + templatesTTL] needs no request when
    the template is truthy, and requests it again when it is falsy. A URI
    that does not begin with [efecte://templates/] is refused before the
    cache is read. *)
Theorem readResource_reads_listed_resources
    (template : RESTTemplateInfoElement) (now : Z) (cache : Cache.t T) :
  let code := templateCode template in
  let uri := uri (toResource template) in
  removeFirst "efecte://templates/" uri = code /\
  readResource_begin now uri cache
  = (match fst (Cache.get now code cache) with
     | Some t => if truthy t then Return (Ok t) else Fetch ("dc/" +:+ code)
     | None => Fetch ("dc/" +:+ code)
     end, snd (Cache.get now code cache)) /\
  (forall t0 t,
     now <= t0 + ttl ->
     fst (readResource_begin now uri
            (snd (readResource_resume efecteConfig t0 uri (Ok t) cache)))
     = if truthy t then Return (Ok t) else Fetch ("dc/" +:+ code)) /\
  (forall other,
     String.prefix "efecte://templates/" other = false ->
     readResource_begin now other cache
     = (Return (Throw (newError ("Invalid resource URI: " +:+ other))),
        cache)).
Proof.
  intros code uri. subst uri. unfold toResource. cbn [TemplateResources.uri].
  fold code.
  assert (Hp : String.prefix "efecte://templates/"
                 ("efecte://templates/" +:+ code) = true)
    by (apply prefix_app; by eexists).
  split; [apply removeFirst_prefix |]. split; [| split].
  - unfold TemplateResources.readResource_begin.
    rewrite Hp, removeFirst_prefix. cbn [negb].
    destruct (Cache.get now code cache) as [[t |] c]; [| done].
    cbn [fst snd]. by destruct (truthy t).
  - intros t0 t Hnow.
    unfold TemplateResources.readResource_begin, readResource_resume.
    rewrite Hp, removeFirst_prefix. cbn [negb snd].
    rewrite get_after_set_hit by done. by destruct (truthy t).
  - intros other Hother. unfold TemplateResources.readResource_begin.
    by rewrite Hother.
Qed.

End TemplateFacts.

(** A cached template is served until the end of its lifetime; a cached
    empty body is requested again. *)
Lemma getTemplate_reads_through_cache_witness :
  TemplateTools.getTemplate_begin truthy_string 300000 "incident"
    (Cache.set 0 "incident" "{}" 300000 (Cache.empty (T := string)))
  = (Return (Ok "{}"),
     Cache.set 0 "incident" "{}" 300000 (Cache.empty (T := string))) /\
  TemplateTools.getTemplate_begin truthy_string 300000 "incident"
    (Cache.set 0 "incident" "" 300000 (Cache.empty (T := string)))
  = (Fetch "dc/incident",
     Cache.set 0 "incident" "" 300000 (Cache.empty (T := string))).
Proof.
  destruct (getTemplate_reads_through_cache Config.defaults truthy_string
              "incident" "{}" 0 (Cache.empty (T := string)))
    as (_ & Hhit & _); [reflexivity |].
  destruct (getTemplate_reads_through_cache Config.defaults truthy_string
              "incident" "" 0 (Cache.empty (T := string)))
    as (_ & Hfalsy & _); [reflexivity |].
  split.
  - apply (Hhit 300000). vm_compute. congruence.
  - apply (Hfalsy 300000). vm_compute. congruence.
Defined.

(** ** Instances *)

(** A token obtained at second 1 with the default configuration is handed
    out again at second 2000, and is renewed from second 3001 on.  With a
    threshold of [0] and a lifetime of one second, a token cached at time
    10 and recorded at time 20 is renewed at time 1015, when its cache entry
    has expired although [tokenExpiresAt] lies ahead. *)
Lemma token_reused_until_refresh_threshold_witness :
  let s := snd (AuthManager.getToken Config.defaults 0 0 AuthManager.init) in
  let s1 :=
    AuthManager.settle Config.defaults 0
      (AuthManager.Responded (Some "abc") None) 1000 1000 s in
  let short := Config.mkConfig 30000 300000 1000 0 (Some 1800000) in
  let s1' :=
    AuthManager.settle short 0
      (AuthManager.Responded (Some "abc") None) 10 20 s in
  fst (AuthManager.getToken Config.defaults 2000000 2000000 s1)
  = AuthManager.Resolved "Bearer abc" /\
  (exists q,
    fst (AuthManager.getToken Config.defaults 3001000 3001000 s1)
    = AuthManager.Awaits q) /\
  (exists q,
    fst (AuthManager.getToken short 1015 1015 s1') = AuthManager.Awaits q).
Proof.
  intros s s1 short s1'.
  pose proof (token_reused_until_refresh_threshold Config.defaults 0
                (AuthManager.Responded (Some "abc") None) "abc" 1000 1000 s
                true eq_refl eq_refl) as H.
  pose proof (token_reused_until_refresh_threshold short 0
                (AuthManager.Responded (Some "abc") None) "abc" 10 20 s
                true eq_refl eq_refl) as H'.
  split; [| split].
  - destruct (H 2000000 2000000) as [Hfresh _].
    destruct Hfresh as [Hfresh _];
      [split; vm_compute; [congruence | reflexivity] |].
    exact Hfresh.
  - destruct (H 3001000 3001000) as (_ & Hstale & _).
    apply Hstale. right. vm_compute. congruence.
  - destruct (H' 1015 1015) as (_ & Hstale & _).
    apply Hstale. left. vm_compute. reflexivity.
Defined.

(** In the last five minutes of that token the status check still says
    yes while [getToken()] already renews. *)
Lemma isAuthenticated_covers_getToken_witness :
  let s := snd (AuthManager.getToken Config.defaults 0 0 AuthManager.init) in
  let s1 :=
    AuthManager.settle Config.defaults 0
      (AuthManager.Responded (Some "abc") None) 1000 1000 s in
  fst (AuthManager.isAuthenticated 3100000 3100000 s1) = true /\
  exists q,
    fst (AuthManager.getToken Config.defaults 3100000 3100000 s1)
    = AuthManager.Awaits q.
Proof.
  intros s s1.
  destruct (isAuthenticated_covers_getToken Config.defaults s1
              3100000 3100000 "Bearer abc") as (_ & _ & H);
    [reflexivity |].
  apply H. vm_compute. split; congruence.
Defined.

(** A request to a protected path on a new client that the server
    answers. *)
Lemma request_answered_first_time_witness :
  let c :=
    {| url := Some "https://efecte.example/rest-api/itsm/v1/dc";
       method := Some "get"; hdrAuthorization := None; hdrXRetry := None;
       reqTimeout := None |} in
  let w :=
    {| EfecteApiClient.authManager := AuthManager.init;
       EfecteApiClient.clock := fun n => Z.of_nat n;
       EfecteApiClient.ticks := 0;
       EfecteApiClient.loginNet :=
         fun p => AuthManager.Responded (Some "token") None;
       EfecteApiClient.apiNet :=
         fun n _ =>
           EfecteApiClient.Answered (EfecteApiClient.mkResponse 200 "[]");
       EfecteApiClient.trace := [] |} in
  exists w' c1,
    EfecteApiClient.request Config.defaults 1 c w
    = Some (Ok (EfecteApiClient.mkResponse 200 "[]"), w') /\
    EfecteApiClient.dispatches (EfecteApiClient.trace w') = [c1] /\
    hdrAuthorization c1 = Some "Bearer token".
Proof.
  intros c w.
  destruct (request_answered_first_time Config.defaults 0 c w
              (EfecteApiClient.mkResponse 200 "[]"))
    as (w' & c1 & issued & Hrun & Htrace & Hissued & _);
    [apply invariant_init | intros q; discriminate | done |].
  exists w'. vm_compute in Hrun. injection Hrun as <-.
  eexists. split; [reflexivity |]. split; reflexivity.
Defined.

(** The same request when the server answers 500. *)
Lemma request_failure_not_retried_witness :
  let c :=
    {| url := Some "https://efecte.example/rest-api/itsm/v1/dc";
       method := Some "get"; hdrAuthorization := None; hdrXRetry := None;
       reqTimeout := None |} in
  let w :=
    {| EfecteApiClient.authManager := AuthManager.init;
       EfecteApiClient.clock := fun n => Z.of_nat n;
       EfecteApiClient.ticks := 0;
       EfecteApiClient.loginNet :=
         fun p => AuthManager.Responded (Some "token") None;
       EfecteApiClient.apiNet :=
         fun n _ =>
           EfecteApiClient.Failed (Some "ERR_BAD_RESPONSE")
             "Request failed with status code 500" (Some 500);
       EfecteApiClient.trace := [] |} in
  exists e w',
    EfecteApiClient.request Config.defaults 1 c w = Some (Throw e, w') /\
    responseStatus e = Some 500 /\
    length (EfecteApiClient.dispatches (EfecteApiClient.trace w')) = 1%nat.
Proof.
  intros c w.
  destruct (request_failure_not_retried Config.defaults 0 c w
              (Some "ERR_BAD_RESPONSE")
              "Request failed with status code 500" (Some 500))
    as (e & w' & c1 & issued & Hrun & Htrace & Hissued & _ & He);
    [apply invariant_init | intros q; discriminate | done
     | right; right; left; discriminate |].
  exists e, w'. split; [exact Hrun |].
  vm_compute in He. subst e. split; [reflexivity |].
  rewrite Htrace. simpl. rewrite dispatches_app.
  destruct Hissued as [-> | [p ->]]; reflexivity.
Defined.

Lemma getApiUrl_joins_with_single_slashes_witness :
  ConfigLoader.getApiUrl
    (ConfigLoader.mkEfecteConfig "https://efecte.example/"
       "/rest-api/itsm/v1" "user" "secret" 30000 300000 3300000 50 200
       "stdio" false 3000 "0.0.0.0" None 1800000 "info" false false false
       60 300)
    "/dc/incident/data"
  = "https://efecte.example/rest-api/itsm/v1/dc/incident/data".
Proof.
  refine (proj1 (getApiUrl_joins_with_single_slashes _
                   "https://efecte.example" "rest-api/itsm/v1"
                   "dc/incident/data" "/" "/" "" "/"
                   _ _ _ _ _ _ _ _ _ _ _));
    try reflexivity; try discriminate; set_solver.
Defined.

(** ** Text search in data cards *)

Section SearchFacts.
Import JsString JsText Search.

Local Abbreviation chars := list_ascii_of_string.

Lemma blank_query (query : string) :
  negb (truthy_string query) || (String.length (trim query) =? 0)%nat = true
  <-> trim query = "".
Proof.
  destruct query as [| c s]; [done |]. simpl.
  destruct (trim (String c s)); simpl; [done |]. split; [done | done].
Qed.

Lemma filter_filter {A} (f : A -> bool) (l : list A) :
  List.filter f (List.filter f l) = List.filter f l.
Proof.
  induction l as [| x l IH]; simpl; [done |].
  destruct (f x) eqn:E; simpl; [by rewrite E, IH | exact IH].
Qed.

Lemma filter_sublist {A} (f : A -> bool) (l : list A) :
  sublist (List.filter f l) l.
Proof.
  induction l as [| x l IH]; simpl; [constructor |].
  destruct (f x); by constructor.
Qed.

(** X23.  [filterDataCardsByText] returns, in their order, exactly the cards
    that [searchInDataCard] accepts, and sets [meta.count] to their number,
    keeping the rest of [meta]; with a blank query it returns its argument
    as it is. Filtering the result again with the same query changes
    nothing. *)
Theorem filterDataCardsByText_keeps_matching_cards {M : Type}
    (dataCards : RESTPaginatedDataCardsInfo M) (query : string)
    (searchFields : list string) :
  let result := filterDataCardsByText dataCards query searchFields in
  cards result
  = List.filter (fun c => searchInDataCard c query searchFields)
      (cards dataCards) /\
  sublist (cards result) (cards dataCards) /\
  rest result = rest dataCards /\
  (trim query = "" -> result = dataCards) /\
  (trim query <> "" -> count result = length (cards result)) /\
  filterDataCardsByText result query searchFields = result.
Proof.
  intros result. subst result. unfold filterDataCardsByText.
  destruct (negb (truthy_string query)
            || (String.length (trim query) =? 0)%nat) eqn:Hblank.
  - assert (Hall : forall l : list RESTDataCard,
               List.filter (fun c => searchInDataCard c query searchFields) l
               = l).
    { intros l. induction l as [| c l IH]; simpl; [done |].
      unfold searchInDataCard at 1. by rewrite Hblank, IH. }
    apply blank_query in Hblank.
    rewrite Hall. repeat split; done.
  - cbn [cards rest count]. rewrite filter_filter.
    split; [done |]. split; [apply filter_sublist |].
    split; [done |]. split; [| by split].
    intros Ht. apply blank_query in Ht. congruence.
Qed.

(** *** Queries without quotes *)

Lemma forallb_Permutation {A} (f : A -> bool) (l l' : list A) :
  l ≡ₚ l' -> forallb f l = forallb f l'.
Proof.
  induction 1 as [| x l l' _ IH | x y l | l1 l2 l3 _ IH1 _ IH2]; simpl.
  - done.
  - by rewrite IH.
  - by rewrite !andb_assoc, (andb_comm (f y)).
  - by rewrite IH1.
Qed.

(** X24.  A query that is not a quoted phrase asks for every one of its
    words: a card matches exactly when each word of the query, in lower
    case, occurs in the combined text of the card. So the order of the words
    and the white space between them do not matter. *)
Theorem searchInDataCard_requires_every_word
    (dataCard : RESTDataCard) (query : string) (searchFields : list string) :
  trim query <> "" ->
  quotedMatch (trim query) = None ->
  let combinedText :=
    String.concat " " (searchableTexts dataCard searchFields) in
  searchInDataCard dataCard query searchFields
  = forallb (fun word => includes combinedText word)
            (queryWords (trim query)) /\
  forall query',
    trim query' <> "" ->
    quotedMatch (trim query') = None ->
    queryWords (trim query') ≡ₚ queryWords (trim query) ->
    searchInDataCard dataCard query' searchFields
    = searchInDataCard dataCard query searchFields.
Proof.
  intros Hne Hq combinedText.
  assert (Hwords : forall q,
             trim q <> "" -> quotedMatch (trim q) = None ->
             searchInDataCard dataCard q searchFields
             = forallb (fun word => includes combinedText word)
                       (queryWords (trim q))).
  { intros q Hqne Hqq. unfold searchInDataCard.
    destruct (negb (truthy_string q)
              || (String.length (trim q) =? 0)%nat) eqn:Hblank;
      [by apply blank_query in Hblank |].
    rewrite Hqq. fold combinedText.
    destruct (queryWords (trim q)) as [| w [| w' ws]]; simpl; try done.
    by rewrite andb_true_r. }
  split; [by apply Hwords |].
  intros query' Hne' Hq' Hperm.
  rewrite (Hwords query Hne Hq), (Hwords query' Hne' Hq').
  by apply forallb_Permutation.
Qed.

(** *** Upper and lower case in the query *)

Lemma lowerChar_classes (c : ascii) :
  isWhiteSpace (lowerChar c) = isWhiteSpace c /\
  ReferenceFilter.isQuote (lowerChar c) = ReferenceFilter.isQuote c /\
  isLineTerminator (lowerChar c) = isLineTerminator c /\
  lowerChar (lowerChar c) = lowerChar c.
Proof. destruct c as [[] [] [] [] [] [] [] []]; by vm_compute. Qed.

Lemma toLowerCase_idemp (s : string) :
  toLowerCase (toLowerCase s) = toLowerCase s.
Proof.
  induction s as [| c s IH]; simpl; [done |].
  destruct (lowerChar_classes c) as (_ & _ & _ & ->). by rewrite IH.
Qed.

Lemma trimStart_toLowerCase (s : string) :
  trimStart (toLowerCase s) = toLowerCase (trimStart s).
Proof.
  induction s as [| c s IH]; simpl; [done |].
  destruct (lowerChar_classes c) as (-> & _).
  by destruct (isWhiteSpace c).
Qed.

Lemma trimEnd_toLowerCase (s : string) :
  trimEnd (toLowerCase s) = toLowerCase (trimEnd s).
Proof.
  induction s as [| c s IH]; simpl; [done |]. rewrite IH.
  destruct (lowerChar_classes c) as (-> & _).
  destruct (trimEnd s); simpl; [| done]. by destruct (isWhiteSpace c).
Qed.

Lemma trim_toLowerCase (s : string) :
  trim (toLowerCase s) = toLowerCase (trim s).
Proof. unfold trim. by rewrite trimStart_toLowerCase, trimEnd_toLowerCase. Qed.

Lemma unsnoc_toLowerCase (s : string) :
  unsnoc (toLowerCase s)
  = (fun '(init, last) => (toLowerCase init, lowerChar last)) <$> unsnoc s.
Proof.
  induction s as [| c s IH]; simpl; [done |]. rewrite IH.
  by destruct (unsnoc s) as [[init last] |].
Qed.

Lemma forallb_toLowerCase (s : string) :
  forallb (fun c => negb (isLineTerminator c)) (chars (toLowerCase s))
  = forallb (fun c => negb (isLineTerminator c)) (chars s).
Proof.
  induction s as [| c s IH]; simpl; [done |]. rewrite IH.
  by destruct (lowerChar_classes c) as (_ & _ & -> & _).
Qed.

Lemma quotedMatch_toLowerCase (s : string) :
  quotedMatch (toLowerCase s) = toLowerCase <$> quotedMatch s.
Proof.
  destruct s as [| q s]; simpl; [done |].
  rewrite unsnoc_toLowerCase.
  destruct (unsnoc s) as [[middle q'] |]; simpl; [| done].
  destruct (lowerChar_classes q) as (_ & -> & _).
  destruct (lowerChar_classes q') as (_ & -> & _).
  rewrite forallb_toLowerCase.
  assert (truthy_string (toLowerCase middle) = truthy_string middle) as ->
    by (by destruct middle).
  by destruct (ReferenceFilter.isQuote q && ReferenceFilter.isQuote q'
               && truthy_string middle
               && forallb (fun c => negb (isLineTerminator c)) (chars middle)).
Qed.

(** X25.  The search does not distinguish upper and lower case in the query. *)
Theorem searchInDataCard_ignores_case
    (dataCard : RESTDataCard) (query : string) (searchFields : list string) :
  searchInDataCard dataCard (toLowerCase query) searchFields
  = searchInDataCard dataCard query searchFields.
Proof.
  unfold searchInDataCard.
  rewrite trim_toLowerCase, quotedMatch_toLowerCase.
  assert (truthy_string (toLowerCase query) = truthy_string query) as ->
    by (by destruct query).
  assert (forall s, String.length (toLowerCase s) = String.length s) as ->
    by (intros s; induction s; simpl; congruence).
  destruct (negb (truthy_string query)
            || (String.length (trim query) =? 0)%nat); [done |].
  destruct (quotedMatch (trim query)) as [phrase |]; simpl.
  - by rewrite toLowerCase_idemp.
  - unfold queryWords. by rewrite toLowerCase_idemp.
Qed.

End SearchFacts.

(** The words of a query in another order and with other spacing. *)
Lemma searchInDataCard_requires_every_word_witness :
  let card := Search.mkDataCard None (Some "Printer Incident") (Some "42") in
  Search.searchInDataCard card "printer   incident" []
  = Search.searchInDataCard card "incident printer" [].
Proof.
  intros card.
  apply (proj2 (searchInDataCard_requires_every_word card
                  "incident printer" [] ltac:(discriminate) eq_refl)).
  - discriminate.
  - reflexivity.
  - vm_compute. apply perm_swap.
Defined.

(** ** The bridge from standard input to HTTP *)

Section ProxyFacts.
Import JsText HttpProxy.
Context {Message : Type}.
Variable parse : string -> option Message.

Local Abbreviation processLine := (HttpProxy.processLine parse).
Local Abbreviation processInput := (HttpProxy.processInput parse).
Local Abbreviation processInputs := (HttpProxy.processInputs parse).
Local Abbreviation messagesOn := (HttpProxy.messagesOn parse).

Lemma split_cons sep (s : string) : exists piece pieces, split sep s = piece :: pieces.
Proof.
  induction s as [| c s (piece & pieces & IH)]; simpl; [by eexists _, _ |].
  destruct (Ascii.eqb c sep); [by eexists _, _ |].
  rewrite IH. by eexists _, _.
Qed.

Lemma removelast_cons {A} (x y : A) l :
  List.removelast (x :: y :: l) = x :: List.removelast (y :: l).
Proof. reflexivity. Qed.

Lemma last_cons {A} (x y : A) l d :
  List.last (x :: y :: l) d = List.last (y :: l) d.
Proof. reflexivity. Qed.

(** Splitting a text that goes on: the complete pieces stay, and the
    last piece goes on. *)
Lemma split_append sep (s d : string) :
  split sep (s +:+ d)
  = List.removelast (split sep s)
    ++ split sep (List.last (split sep s) "" +:+ d).
Proof.
  induction s as [| c s IH]; [done |].
  rewrite append_cons.
  destruct (split_cons sep s) as (piece & pieces & Hs).
  destruct (split_cons sep (s +:+ d)) as (piece' & pieces' & Hsd).
  cbn [split]. destruct (Ascii.eqb c sep) eqn:Hc.
  - rewrite Hs, removelast_cons, last_cons, <- Hs, IH. done.
  - rewrite Hs. rewrite Hs in IH.
    destruct pieces as [| piece2 pieces].
    + cbn [List.removelast List.last app] in IH |- *.
      rewrite append_cons. cbn [split]. rewrite Hc. by rewrite IH.
    + rewrite removelast_cons, last_cons in IH.
      rewrite removelast_cons, last_cons. rewrite IH. done.
Qed.

Lemma messagesOn_app l1 l2 :
  messagesOn (l1 ++ l2) = messagesOn l1 ++ messagesOn l2.
Proof. unfold HttpProxy.messagesOn. apply flat_map_app. Qed.

Lemma processLines_wellformed (lines : list string) handled buffer :
  (forall line, line ∈ lines -> trim line <> "" ->
                is_Some (parse (trim line))) ->
  foldl processLine (handled, buffer) lines
  = (handled ++ messagesOn lines, buffer).
Proof.
  revert handled. induction lines as [| line lines IH]; intros handled Hwf.
  - simpl. by rewrite app_nil_r.
  - cbn [foldl]. unfold HttpProxy.processLine at 2.
    unfold HttpProxy.messagesOn. cbn [flat_map].
    destruct (trim line) as [| c t] eqn:Ht; cbn [truthy_string negb].
    + rewrite IH; [done |]. intros l Hl. apply Hwf. by right.
    + destruct (Hwf line) as [message Hm]; [by left | by rewrite Ht |].
      rewrite Ht in Hm. rewrite Hm.
      rewrite IH; [by rewrite <- app_assoc |].
      intros l Hl. apply Hwf. by right.
Qed.

Lemma removelast_app_nonempty {A} (l1 l2 : list A) :
  l2 <> [] ->
  List.removelast (l1 ++ l2) = l1 ++ List.removelast l2 /\
  forall d, List.last (l1 ++ l2) d = List.last l2 d.
Proof.
  intros H. split; [by apply removelast_app |].
  intros d. induction l1 as [| x l1 IH]; [done |].
  destruct l1 as [| y l1].
  - destruct l2; done.
  - exact IH.
Qed.

Lemma split_complete_lines sep (s d : string) :
  List.removelast (split sep (s +:+ d))
  = List.removelast (split sep s)
    ++ List.removelast (split sep (List.last (split sep s) "" +:+ d)) /\
  List.last (split sep (s +:+ d)) ""
  = List.last (split sep (List.last (split sep s) "" +:+ d)) "".
Proof.
  rewrite split_append.
  destruct (split_cons sep (List.last (split sep s) "" +:+ d))
    as (piece & pieces & ->).
  destruct (removelast_app_nonempty (List.removelast (split sep s))
              (piece :: pieces)) as [H1 H2]; [done |].
  by rewrite H1, H2.
Qed.

(** The last piece holds no separator. *)
Lemma split_last_single sep (s : string) :
  split sep (List.last (split sep s) "") = [List.last (split sep s) ""].
Proof.
  induction s as [| c s IH]; [done |].
  destruct (split_cons sep s) as (piece & pieces & Hs).
  cbn [split]. destruct (Ascii.eqb c sep) eqn:Hc.
  - by rewrite Hs, last_cons, <- Hs.
  - rewrite Hs. rewrite Hs in IH. destruct pieces as [| piece2 pieces].
    + cbn [List.last] in IH |- *. cbn [split]. by rewrite Hc, IH.
    + by rewrite last_cons.
Qed.

Lemma processInput_wellformed (data buffer : string) :
  (forall line,
     line ∈ List.removelast (split newline (buffer +:+ data)) ->
     trim line <> "" -> is_Some (parse (trim line))) ->
  processInput data buffer
  = (messagesOn (List.removelast (split newline (buffer +:+ data))),
     List.last (split newline (buffer +:+ data)) "").
Proof.
  intros Hwf. unfold HttpProxy.processInput.
  by rewrite (processLines_wellformed _ [] _ Hwf).
Qed.

Lemma processInputs_from (chunks : list string) :
  forall (buffer : string) handled,
    split newline buffer = [buffer] ->
    (forall line,
       line ∈ List.removelast
                (split newline (buffer +:+ foldr append "" chunks)) ->
       trim line <> "" -> is_Some (parse (trim line))) ->
    foldl (fun '(handled, buffer) data =>
             let '(more, buffer) := processInput data buffer in
             (handled ++ more, buffer))
          (handled, buffer) chunks
    = (handled
       ++ messagesOn
            (List.removelast
               (split newline (buffer +:+ foldr append "" chunks))),
       List.last (split newline (buffer +:+ foldr append "" chunks)) "").
Proof.
  induction chunks as [| data chunks IH]; intros buffer handled Hb Hwf.
  - cbn [foldl foldr]. rewrite append_nil_r, Hb. simpl.
    by rewrite app_nil_r.
  - cbn [foldl foldr] in Hwf |- *.
    destruct (split_complete_lines newline (buffer +:+ data)
                (foldr append "" chunks)) as [H1 H2].
    rewrite append_assoc in H1, H2. rewrite H1 in Hwf.
    rewrite processInput_wellformed
      by (intros line Hl; apply Hwf, elem_of_app; by left).
    rewrite IH.
    + rewrite H1, H2, messagesOn_app. by rewrite <- app_assoc.
    + apply split_last_single.
    + intros line Hl. apply Hwf, elem_of_app. by right.
Qed.

(** X26.  The messages do not depend on how the input is cut into chunks.
    When every complete line of the input is blank or parses, feeding the
    chunks one after the other hands over exactly the messages on the
    complete lines of the whole input, in their order, and leaves the
    unfinished last line in the buffer. *)
Theorem processInput_independent_of_chunking (chunks : list string) :
  let input := foldr append "" chunks in
  (forall line,
     line ∈ List.removelast (split newline input) ->
     trim line <> "" -> is_Some (parse (trim line))) ->
  processInputs chunks ""
  = (messagesOn (List.removelast (split newline input)),
     List.last (split newline input) "").
Proof.
  intros input Hwf. unfold HttpProxy.processInputs.
  by rewrite (processInputs_from chunks "" [] eq_refl Hwf).
Qed.

(** *** The session of the bridge *)

(** X27.  The bridge adopts the session identifier of the first response
    that carries one, and then keeps it whatever the later responses carry,
    sending it with every message; only [checkSessionTimeout] drops it, and
    only when the last response is more than [SESSION_TIMEOUT] milliseconds
    old. The timeout is 30 minutes when the environment gives none, and with
    a value that [parseInt] cannot read the session is never dropped. *)
Theorem proxy_session_kept_until_idle st sid :
  sid <> "" ->
  (sessionId st = None ->
   forall n1 n2,
     requestSessionHeader st = None /\
     sessionId (forwardToHttp_resume (Some sid) n1 n2 st) = Some sid) /\
  (sessionId st = Some sid ->
   (forall (responses : list (option string * Z * Z)),
      let st' :=
        foldl (fun st '(r, n1, n2) => forwardToHttp_resume r n1 n2 st)
              st responses in
      sessionId st' = Some sid /\ requestSessionHeader st' = Some sid) /\
   (forall r n1 n2,
      sessionLastActivity (forwardToHttp_resume r n1 n2 st) = n2) /\
   (forall timeout now,
      sessionId (checkSessionTimeout (Some timeout) now st)
      = if now - sessionLastActivity st >? timeout then None else Some sid) /\
   (forall now, sessionId (checkSessionTimeout None now st) = Some sid)) /\
  SESSION_TIMEOUT None = Some 1800000.
Proof.
  intros Hne.
  assert (Ht : truthy_string sid = true) by (by destruct sid).
  split; [| split; [| done]].
  - intros Hnone n1 n2. unfold requestSessionHeader, forwardToHttp_resume.
    rewrite Hnone. simpl. rewrite Ht. simpl. by rewrite Ht.
  - intros Hsid. split; [| split; [| split]].
    + intros responses. revert st Hsid.
      induction responses as [| [[r n1] n2] responses IH]; intros st Hsid.
      * simpl. unfold requestSessionHeader. rewrite Hsid. simpl.
        by rewrite Ht.
      * cbn [foldl]. apply IH.
        unfold forwardToHttp_resume. rewrite Hsid. simpl. rewrite Ht.
        rewrite andb_false_r. rewrite Hsid. simpl. by rewrite Ht.
    + intros r n1 n2. unfold forwardToHttp_resume. rewrite Hsid. simpl.
      rewrite Ht, andb_false_r. rewrite Hsid. simpl. by rewrite Ht.
    + intros timeout now. unfold checkSessionTimeout. rewrite Hsid. simpl.
      rewrite Ht. simpl.
      by destruct (now - sessionLastActivity st >? timeout).
    + intros now. unfold checkSessionTimeout. rewrite Hsid. simpl.
      by rewrite andb_false_r.
Qed.

End ProxyFacts.

(** ** The scheduled clean-up of the caches *)

Section CleanupFacts.
Import CacheCleanup.
Context {T : Type}.
Implicit Types (st : State T) (ev : Event T).

Lemma sweep_registry clock (registry : list nat) :
  forall i total (cs : gmap nat (Cache.t T)),
    NoDup registry ->
    (forall cache, cache ∈ registry -> is_Some (cs !! cache)) ->
    let result := sweep clock i registry total cs in
    fst result
    = total
      + Z.of_nat
          (sum_list
             (imap (fun k cache =>
                      expiredIn (clock (i + k)%nat)
                        (default ∅ (cs !! cache))) registry)) /\
    (forall k cache c,
       registry !! k = Some cache -> cs !! cache = Some c ->
       snd result !! cache = Some (Cache.cleanExpired (clock (i + k)%nat) c))
    /\
    (forall cache, cache ∉ registry -> snd result !! cache = cs !! cache) /\
    dom (snd result) = dom cs.
Proof.
  induction registry as [| cache registry IH]; intros i total cs Hnd Hex.
  - simpl. split; [lia |]. split; [done |]. done.
  - apply NoDup_cons in Hnd as [Hfresh Hnd].
    destruct (Hex cache) as [c Hc]; [by left |].
    cbn [sweep]. rewrite Hc.
    set (c' := Cache.cleanExpired (clock i) c).
    set (cs1 := <[cache := c']> cs).
    assert (Hother : forall x, x <> cache -> cs1 !! x = cs !! x)
      by (intros x Hx; by apply lookup_insert_ne).
    destruct (IH (S i)
                (total + (Z.of_nat (Cache.size c) - Z.of_nat (Cache.size c')))
                cs1 Hnd) as (Ht & Hin & Hout & Hdom).
    { intros x Hx. rewrite Hother; [apply Hex; by right |].
      intros ->. done. }
    split; [| split; [| split]].
    + rewrite Ht. cbn [imap sum_list foldr]. rewrite Hc. simpl.
      rewrite Nat.add_0_r. fold c'.
      assert (Hle : (Cache.size c' <= Cache.size c)%nat)
        by apply map_subseteq_size, cleanExpired_subseteq.
      unfold expiredIn at 2. fold c'.
      rewrite (imap_ext _ (fun k x =>
                 expiredIn (clock (i + S k)%nat) (default ∅ (cs !! x)))).
      * unfold compose. change (sum_list_with id ?l) with (sum_list l).
        lia.
      * intros k x Hk. rewrite Hother; [by rewrite Nat.add_succ_r |].
        intros ->. apply Hfresh. by apply list_elem_of_lookup_2 in Hk.
    + intros k x c0 Hk Hx. destruct k as [| k].
      * injection Hk as <-. rewrite Hout by done.
        subst cs1. rewrite lookup_insert_eq, Nat.add_0_r.
        rewrite Hc in Hx. by injection Hx as <-.
      * simpl in Hk. rewrite Nat.add_succ_r. apply Hin; [done |].
        rewrite Hother; [done |]. intros ->. apply Hfresh.
        by apply list_elem_of_lookup_2 in Hk.
    + intros x Hx. apply not_elem_of_cons in Hx as [Hne Hx].
      rewrite Hout by done. by apply Hother.
    + rewrite Hdom. subst cs1. rewrite dom_insert_L.
      apply elem_of_dom_2 in Hc. apply subseteq_union_1_L.
      by apply singleton_subseteq_l.
Qed.

Lemma NoDup_List_filter {A} (f : A -> bool) (l : list A) :
  NoDup l -> NoDup (List.filter f l).
Proof.
  induction 1 as [| x l Hx Hnd IH]; simpl; [constructor |].
  destruct (f x); [| done]. constructor; [| done].
  intros Hin. apply Hx. by apply list_elem_of_In, filter_In in Hin as [Hin _];
    apply list_elem_of_In.
Qed.

Lemma scheduler_invariant_step st ev :
  scheduler_invariant st -> scheduler_invariant (step st ev).
Proof.
  intros (Htimer & Hnd & Hreg). unfold scheduler_invariant.
  destruct ev as [| this | this c | ms | | clock].
  - (* new Cache *)
    unfold step, newCache. simpl. split; [done |].
    assert (Hfresh : nextId st ∉ cacheRegistry st).
    { intros Hin. apply Hreg in Hin as [Hlt _]. lia. }
    rewrite bool_decide_eq_false_2 by done. simpl. split.
    + apply NoDup_app. split; [done |]. split; [| apply NoDup_singleton].
      intros x Hx Hx'. apply list_elem_of_singleton in Hx' as ->. done.
    + intros x Hx. apply elem_of_app in Hx as [Hx | Hx].
      * destruct (Hreg x Hx) as [Hlt Hsome]. split; [lia |].
        rewrite lookup_insert_ne by lia. done.
      * apply list_elem_of_singleton in Hx as ->. split; [lia |].
        rewrite lookup_insert_eq. by eexists.
  - (* destroy *)
    unfold step, destroy. simpl. split; [done |]. split.
    + by apply NoDup_List_filter.
    + intros x Hx. apply list_elem_of_In, filter_In in Hx as [Hx _].
      apply list_elem_of_In, Hreg in Hx as [Hlt Hsome]. split; [done |].
      destruct (decide (x = this)) as [-> | Hne].
      * rewrite lookup_alter_eq. destruct Hsome as [c ->]. by eexists.
      * by rewrite lookup_alter_ne.
  - (* a method of a cache *)
    unfold step. simpl. split; [done |]. split; [done |].
    intros x Hx. apply Hreg in Hx as [Hlt Hsome]. split; [done |].
    destruct (decide (x = this)) as [-> | Hne].
    + rewrite lookup_alter_eq. destruct Hsome as [c0 ->]. by eexists.
    + by rewrite lookup_alter_ne.
  - (* startCacheCleanup *)
    unfold step, startCacheCleanup.
    destruct (cleanupInterval st) as [handle |] eqn:Hh.
    + split; [by rewrite Hh | done].
    + simpl. split; [exists ms; by rewrite Htimer |]. split; [done |].
      intros x Hx. apply Hreg in Hx as [Hlt Hsome]. split; [lia | done].
  - (* stopCacheCleanup *)
    unfold step, stopCacheCleanup.
    destruct (cleanupInterval st) as [handle |] eqn:Hh.
    + simpl. destruct Htimer as [period ->].
      split; [apply delete_singleton_eq | done].
    + split; [by rewrite Hh | done].
  - (* the callback of the interval *)
    unfold step, cleanupTick.
    destruct (sweep_registry clock (cacheRegistry st) 0 0 (caches st) Hnd)
      as (_ & _ & _ & Hdom).
    { intros x Hx. by apply Hreg. }
    destruct (sweep clock 0 (cacheRegistry st) 0 (caches st)) as [t cs].
    simpl in *. split; [done |]. split; [done |].
    intros x Hx. apply Hreg in Hx as [Hlt Hsome]. split; [done |].
    apply elem_of_dom. rewrite Hdom. by apply elem_of_dom.
Qed.

Lemma scheduler_invariant_run (evs : list (Event T)) :
  scheduler_invariant (foldl step init evs).
Proof.
  assert (H : forall st, scheduler_invariant st ->
                         scheduler_invariant (foldl step st evs)).
  { induction evs as [| ev evs IH]; intros st Hst; [done |].
    simpl. by apply IH, scheduler_invariant_step. }
  apply H. split; [done |]. split; [constructor |].
  intros x Hx. by apply elem_of_nil in Hx.
Qed.

(** X28.  Whatever was called before, at most one interval of the clean-up
    is active, and none when [cleanupInterval] is [null]:
    [startCacheCleanup] does nothing when the clean-up is already started
    (the interval keeps its period), and otherwise starts the only interval;
    [stopCacheCleanup] leaves no interval behind. *)
Theorem cleanup_scheduler_has_one_timer (evs : list (Event T)) :
  let st := foldl step init evs in
  (size (timers st) <= 1)%nat /\
  (cleanupInterval st = None <-> timers st = ∅) /\
  timers (stopCacheCleanup st) = ∅ /\
  cleanupInterval (stopCacheCleanup st) = None /\
  (forall intervalMs,
     is_Some (cleanupInterval st) -> startCacheCleanup intervalMs st = st) /\
  (forall intervalMs,
     cleanupInterval st = None ->
     timers (startCacheCleanup intervalMs st) = {[nextId st := intervalMs]}).
Proof.
  intros st. destruct (scheduler_invariant_run evs) as (Htimer & _ & _). fold st in Htimer.
  unfold stopCacheCleanup, startCacheCleanup.
  destruct (cleanupInterval st) as [handle |] eqn:Hh.
  - destruct Htimer as [period Htimer]. rewrite Htimer. simpl.
    split; [by rewrite map_size_singleton |]. split.
    { split; [done |]. intros H. by apply map_non_empty_singleton in H. }
    split; [apply delete_singleton_eq |]. split; [done |].
    split; [done |]. done.
  - rewrite Htimer. rewrite Hh.
    split; [rewrite map_size_empty; lia |]. split; [done |].
    split; [done |]. split; [done |]. split; [by intros ? [? ?] |].
    intros ms _. simpl. done.
Qed.

(** X29.  One run of the scheduled clean-up sweeps every registered cache,
    each at the time of its own sweep, and leaves the caches that are not
    registered (those destroyed, for instance) alone; the number that it
    reports is the number of entries that had expired in the registered
    caches. *)
Theorem cleanupTick_sweeps_registered_caches
    (evs : list (Event T)) (clock : nat -> Z) :
  let st := foldl step init evs in
  let totalCleaned := fst (cleanupTick clock st) in
  let st' := snd (cleanupTick clock st) in
  (forall k cache,
     cacheRegistry st !! k = Some cache ->
     exists c,
       caches st !! cache = Some c /\
       caches st' !! cache = Some (Cache.cleanExpired (clock k) c)) /\
  (forall cache,
     cache ∉ cacheRegistry st -> caches st' !! cache = caches st !! cache) /\
  totalCleaned
  = Z.of_nat
      (sum_list
         (imap (fun k cache =>
                  expiredIn (clock k) (default ∅ (caches st !! cache)))
               (cacheRegistry st))) /\
  cacheRegistry st' = cacheRegistry st /\
  timers st' = timers st.
Proof.
  intros st totalCleaned st'. subst totalCleaned st'.
  destruct (scheduler_invariant_run evs) as (_ & Hnd & Hreg). fold st in Hnd, Hreg.
  unfold cleanupTick.
  destruct (sweep_registry clock (cacheRegistry st) 0 0 (caches st) Hnd)
    as (Ht & Hin & Hout & _).
  { intros x Hx. by apply Hreg. }
  destruct (sweep clock 0 (cacheRegistry st) 0 (caches st)) as [t cs].
  simpl in *. split; [| split; [| split; [| done]]].
  - intros k cache Hk.
    destruct (Hreg cache) as [_ [c Hc]];
      [by apply list_elem_of_lookup_2 in Hk |].
    exists c. split; [done |]. by apply (Hin k cache c).
  - exact Hout.
  - rewrite Ht. done.
Qed.

End CleanupFacts.

(** ** The check of the origin *)

Section OriginFacts.
Import OriginValidation.
Variable parseURL : string -> option URL.

Local Abbreviation validateOrigin := (OriginValidation.validateOrigin parseURL).
Local Abbreviation isAllowed := (OriginValidation.isAllowed parseURL).

(** X30.  The origin check lets a request pass when it has neither an
    [Origin] nor a [Referer] header, whatever the list of allowed origins,
    and when there is no list or an empty one. Otherwise the origin (the
    [Referer] standing in for a missing [Origin]) must parse as a URL, or
    the answer is 403 [Invalid origin format], and an entry of the list must
    admit it, or the answer is 403 [Origin not allowed]: an entry that is a
    URL by having the same origin, another entry by being the host name or
    the origin. *)
Theorem validateOrigin_passes
    (allowedOrigins : option (list string))
    (headerOrigin headerReferer : option string) :
  let origin :=
    if truthy_opt_string headerOrigin then headerOrigin else headerReferer in
  let verdict := validateOrigin allowedOrigins headerOrigin headerReferer in
  (truthy_opt_string origin = false -> verdict = Next) /\
  (allowedOrigins = None \/ allowedOrigins = Some [] -> verdict = Next) /\
  (forall allowed o,
     allowedOrigins = Some allowed -> allowed <> [] ->
     origin = Some o -> o <> "" ->
     match parseURL o with
     | Some originUrl =>
         (verdict = Next <->
          exists entry, entry ∈ allowed /\
            match parseURL entry with
            | Some allowedUrl =>
                OriginValidation.origin originUrl
                = OriginValidation.origin allowedUrl
            | None =>
                hostname originUrl = entry
                \/ OriginValidation.origin originUrl = entry
            end) /\
         (verdict <> Next -> verdict = Forbidden "Origin not allowed")
     | None => verdict = Forbidden "Invalid origin format"
     end).
Proof.
  intros origin verdict. subst verdict.
  unfold OriginValidation.validateOrigin. fold origin.
  split; [| split].
  - intros ->. destruct allowedOrigins; [| done]. by rewrite andb_false_r.
  - by intros [-> | ->].
  - intros allowed o -> Hne Ho Hone. rewrite Ho.
    assert (Hlen : (0 <? length allowed)%nat = true)
      by (by destruct allowed).
    assert (Ht : truthy_opt_string (Some o) = true) by (by destruct o).
    rewrite Hlen, Ht. simpl.
    destruct (parseURL o) as [originUrl |]; [| done].
    destruct (existsb (OriginValidation.isAllowed parseURL originUrl) allowed)
      eqn:Hex.
    + split; [| done]. split; [| done]. intros _.
      apply existsb_exists in Hex as (entry & Hin & Hok).
      exists entry. split; [by apply list_elem_of_In |].
      unfold OriginValidation.isAllowed in Hok.
      destruct (parseURL entry) as [allowedUrl |].
      * by apply String.eqb_eq.
      * apply orb_true_iff in Hok as [Hok | Hok];
          apply String.eqb_eq in Hok; [by left | by right].
    + split; [| done]. split; [done |].
      intros (entry & Hin & Hok).
      assert (Hex' : existsb (OriginValidation.isAllowed parseURL originUrl)
                       allowed = true).
      { apply existsb_exists. exists entry.
        split; [by apply list_elem_of_In |].
        unfold OriginValidation.isAllowed.
        destruct (parseURL entry) as [allowedUrl |].
        - by apply String.eqb_eq.
        - apply orb_true_iff.
          destruct Hok as [Hok | Hok]; [left | right];
            by apply String.eqb_eq. }
      congruence.
Qed.

End OriginFacts.

(** Two chunks that cut a line in the middle: the lines are [{}], [{}],
    a blank line and the unfinished [{x]. *)
Lemma processInput_independent_of_chunking_witness :
  let nl := String HttpProxy.newline "" in
  let parse :=
    fun s : string => if String.eqb s "{}" then Some 1%nat else None in
  HttpProxy.processInputs parse
    ["{}" +:+ nl +:+ "{"; "}" +:+ nl +:+ "  " +:+ nl +:+ "{x"] ""
  = ([1%nat; 1%nat], "{x").
Proof.
  intros nl parse.
  apply (processInput_independent_of_chunking parse
           ["{}" +:+ nl +:+ "{"; "}" +:+ nl +:+ "  " +:+ nl +:+ "{x"]).
  intros line Hl Hline. apply list_elem_of_In in Hl. vm_compute in Hl.
  destruct Hl as [<- | [<- | [<- | []]]].
  - by exists 1%nat.
  - by exists 1%nat.
  - exfalso. apply Hline. vm_compute. reflexivity.
Defined.

(** A bridge that has no session receives one, and keeps it for the
    30 minutes after the last response. *)
Lemma proxy_session_kept_until_idle_witness :
  let st0 := HttpProxy.mkState None 0 "" in
  let st := HttpProxy.forwardToHttp_resume (Some "s-1") 1000 1001 st0 in
  HttpProxy.sessionId st = Some "s-1" /\
  HttpProxy.sessionId
    (HttpProxy.checkSessionTimeout (Some 1800000) 1801001 st) = Some "s-1" /\
  HttpProxy.sessionId
    (HttpProxy.checkSessionTimeout (Some 1800000) 1801002 st) = None.
Proof.
  intros st0 st.
  destruct (proxy_session_kept_until_idle st0 "s-1" ltac:(discriminate))
    as (Hfirst & _ & _).
  destruct (proxy_session_kept_until_idle st "s-1" ltac:(discriminate))
    as (_ & Hkept & _).
  destruct (Hkept eq_refl) as (_ & _ & Htimeout & _).
  split; [exact (proj2 (Hfirst eq_refl 1000 1001)) |].
  split; [exact (Htimeout 1800000 1801001) | exact (Htimeout 1800000 1801002)].
Defined.
